(** * A shallow embedding of the EchoVault keyspace, ACL and set commands

    The development follows the Go sources:
    - [src/server/keyspace.go]      per-key locks, store, expiry, eviction;
    - [internal/utils.go]           [AdaptType], [IsMaxMemoryExceeded];
    - [src/modules/set/commands.go] the SADD, SINTERSTORE and SMEMBERS handlers;
    - [src/acl/acl.go] and the later ACL module, [AuthorizeConnection].

    Further parts of the sources are covered after the same pattern:
    - [internal/utils.go]           [ParseMemory], [AbsInt], [EncodeCommand],
                                    [FilterExpiredKeys], [ReadMessage] and
                                    the key functions of the generic commands;
    - [src/modules/list/key_funcs.go], [src/modules/etc/key_funcs.go];
    - the plugins of the string commands, SET, GET and MGET;
    - [src/modules/set/commands.go] SCARD, SISMEMBER, SMISMEMBER, SINTER,
                                    SUNION and SUNIONSTORE;
    - [src/acl/acl.go]              [NewACL] and [MergeUser];
    - [src/echovault/echovault.go]  the response writer of [handleConnection];
    - the append-only log,          [Write], [Sync] and [Restore].

    The Go runtime is sequentialised: one goroutine runs one operation at a
    time.  What the runtime decides (heap readings, random numbers, the
    iteration order of a map, the passing of time while a lock is polled) is
    an oracle carried in the state. *)

From Stdlib Require Import ZArith NArith Lia List String Ascii Permutation.
From stdpp Require Import base option list gmap strings fin_maps.

Local Open Scope string_scope.

(** ** Strings and slices *)

Module Strings.

(** [strings.ToLower] on the ASCII letters; policy names and command names
    are ASCII. *)
Definition lower_ascii (c : ascii) : ascii :=
  let n := nat_of_ascii c in
  if (65 <=? n)%nat && (n <=? 90)%nat then ascii_of_nat (n + 32) else c.

Fixpoint ToLower (s : string) : string :=
  match s with
  | EmptyString => EmptyString
  | String c r => String (lower_ascii c) (ToLower r)
  end.

(** [strings.EqualFold] against an ASCII word. *)
Definition EqualFold (a b : string) : bool := String.eqb (ToLower a) (ToLower b).

(** [slices.Contains]. *)
Definition Contains (l : list string) (x : string) : bool :=
  existsb (String.eqb x) l.

(** [slices.ContainsFunc]. *)
Definition ContainsFunc {A} (l : list A) (f : A -> bool) : bool := existsb f l.

End Strings.

(** ** Decimal rendering, [fmt.Sprintf("%d", n)] *)

Module Fmt.

Definition digit_char (d : N) : ascii := ascii_of_N (48 + d).

(** Most significant digit first; [fuel] bounds the number of digits. *)
Fixpoint digits_go (fuel : nat) (n : N) (acc : list ascii) : list ascii :=
  match fuel with
  | O => acc
  | S f =>
      let acc' := digit_char (n mod 10) :: acc in
      if (n / 10 =? 0)%N then acc' else digits_go f (n / 10) acc'
  end.

Definition digits (n : N) : list ascii := digits_go (S (N.to_nat (N.log2 n))) n [].

Definition FormatUint (n : N) : string := string_of_list_ascii (digits n).

Definition FormatInt (z : Z) : string :=
  match z with
  | Zneg p => String "-" (FormatUint (Npos p))
  | _ => FormatUint (Z.to_N z)
  end.

Definition d (n : nat) : string := FormatUint (N.of_nat n).

End Fmt.

(** ** The Go runtime as an oracle *)

Record Runtime := mkRuntime {
  heapInuse : nat -> N;        (** [HeapInuse] seen by the i-th [ReadMemStats] *)
  memReads : nat;              (** [ReadMemStats] calls so far *)
  randSrc : nat -> nat;        (** the i-th number drawn by [rand.Intn] *)
  randCalls : nat;
  rangeOrder : list string -> list string;  (** order in which [range] visits a map's keys *)
  pollClock : nat              (** time, counted in polls of a lock attempt loop *)
}.

Definition ReadMemStats (rt : Runtime) : N * Runtime :=
  (heapInuse rt (memReads rt),
   mkRuntime (heapInuse rt) (S (memReads rt)) (randSrc rt) (randCalls rt)
             (rangeOrder rt) (pollClock rt)).

(** [runtime.GC()]: what it reclaims shows in the next reading. *)
Definition GC (rt : Runtime) : Runtime := rt.

(** [rand.Intn(n)], for [n > 0]. *)
Definition Intn (n : nat) (rt : Runtime) : nat * Runtime :=
  (randSrc rt (randCalls rt) mod n,
   mkRuntime (heapInuse rt) (memReads rt) (randSrc rt) (S (randCalls rt))
             (rangeOrder rt) (pollClock rt)).

Definition tick (rt : Runtime) : Runtime :=
  mkRuntime (heapInuse rt) (memReads rt) (randSrc rt) (randCalls rt)
            (rangeOrder rt) (S (pollClock rt)).

(** A [context.Context]: when it is done, and the cause it then reports. *)
Record Context := mkContext {
  deadline : option nat;
  cause : string
}.

Definition Background : Context := mkContext None "".

Definition ctx_done (ctx : Context) (rt : Runtime) : bool :=
  match deadline ctx with
  | Some t => (t <=? pollClock rt)%nat
  | None => false
  end.

(** ** [sync.RWMutex] *)

Module RWMutex.

Record t := mk { writer : bool; readers : nat }.

Definition new : t := mk false 0.

Definition TryLock (m : t) : option t :=
  if negb (writer m) && (readers m =? 0)%nat then Some (mk true 0) else None.

Definition TryRLock (m : t) : option t :=
  if writer m then None else Some (mk false (S (readers m))).

(** [Unlock] of a mutex that is not write-locked is a fatal error. *)
Definition Unlock (m : t) : option t :=
  if writer m then Some (mk false (readers m)) else None.

(** [RUnlock] of a mutex that is not read-locked is a fatal error. *)
Definition RUnlock (m : t) : option t :=
  match readers m with
  | O => None
  | S n => Some (mk (writer m) n)
  end.

Definition held (m : t) : bool := writer m || negb (readers m =? 0)%nat.

End RWMutex.

(** ** Values *)

(** The arbitrary-precision float of Go's [math/big]: a sign, a mantissa and
    a binary exponent, for the value [(-1)^neg * mant * 2^exp], or an
    infinity. *)
Inductive BigFloat :=
| BFinite (neg : bool) (mant : N) (exp : Z)
| BInf (neg : bool).

(** Modelled from the spec: the [Set] type of the set module is a set of
    strings. *)
Abbreviation SetT := (gset string).

(** What an [interface{}] in the store holds. *)
Inductive Value :=
| VString (s : string)
| VInt (i : Z)
| VFloat (f : BigFloat)    (** the [float64] nearest to [f] *)
| VSet (s : SetT).

(** ** The eviction caches

    The [eviction] package ([CacheLRU], [CacheLFU]) is not part of the sources
    at hand; it is modelled from the component design of the spec.  The LRU cache is an order list whose
    front is the most recently used key; the LFU cache orders its keys by
    [(access_count, last_access_time)].  [Pop] removes and returns the victim,
    [Update] touches a key, [Delete] forgets it. *)

Module CacheLRU.

(** Modelled from the spec: [eviction.CacheLRU], the keys from the most to the
    least recently used. *)
Definition t := list string.

(** Modelled from the spec: [Len]. *)
Definition Len (c : t) : nat := length c.

(** Modelled from the spec: [Delete]. *)
Definition Delete (k : string) (c : t) : t :=
  List.filter (fun x => negb (String.eqb x k)) c.

(** Modelled from the spec: [Update] moves the key to the front. *)
Definition Update (k : string) (c : t) : t := k :: Delete k c.

(** Modelled from the spec: [Pop]; the victim is the least recently used key,
    the last of the list. *)
Definition Pop (c : t) : option (string * t) :=
  match rev c with
  | [] => None
  | k :: r => Some (k, rev r)
  end.

End CacheLRU.

Module CacheLFU.

(** Modelled from the spec: an entry of [eviction.CacheLFU], a key with its
    access count and the time of its last access. *)
Record entry := mkEntry { ekey : string; count : nat; lastAccess : nat }.

(** Modelled from the spec: [eviction.CacheLFU]; [stamp] is the cache's clock. *)
Record t := mk { entries : list entry; stamp : nat }.

(** Modelled from the spec: [Len]. *)
Definition Len (c : t) : nat := length (entries c).

(** Modelled from the spec: [Delete]. *)
Definition Delete (k : string) (c : t) : t :=
  mk (List.filter (fun e => negb (String.eqb (ekey e) k)) (entries c)) (stamp c).

Definition touch (k : string) (now : nat) (e : entry) : entry :=
  if String.eqb (ekey e) k then mkEntry k (S (count e)) now else e.

(** Modelled from the spec: [Update] counts one more access of the key. *)
Definition Update (k : string) (c : t) : t :=
  if existsb (fun e => String.eqb (ekey e) k) (entries c)
  then mk (map (touch k (stamp c)) (entries c)) (S (stamp c))
  else mk (mkEntry k 1 (stamp c) :: entries c) (S (stamp c)).

Definition before (a b : entry) : bool :=
  (count a <? count b)%nat
  || ((count a =? count b)%nat && (lastAccess a <=? lastAccess b)%nat).

(** The least frequently used entry, ties broken by the earliest access. *)
Fixpoint least (e : entry) (l : list entry) : entry :=
  match l with
  | [] => e
  | x :: r => if before e x then least e r else least x r
  end.

(** Modelled from the spec: [Pop] removes the least frequently used key. *)
Definition Pop (c : t) : option (string * t) :=
  match entries c with
  | [] => None
  | e :: r =>
      let v := least e r in
      Some (ekey v, Delete (ekey v) c)
  end.

End CacheLFU.

(** ** The server *)

Definition Time := Z.

(** [time.Time{}], the zero time. *)
Definition zeroTime : Time := 0%Z.

(** The configuration that the keyspace reads.  [InCluster] is what
    [server.IsInCluster()] answers; that function is declared outside the
    sources at hand. *)
Record Config := mkConfig {
  MaxMemory : N;
  EvictionPolicy : string;
  InCluster : bool
}.

(** The three [sync.Mutex] of the server: one for key creation and one for
    each eviction cache.  [true] means held. *)
Record Mutexes := mkMutexes {
  keyCreationLock : bool;
  lfuMutex : bool;
  lruMutex : bool
}.

Record Server := mkServer {
  config : Config;
  store : gmap string Value;
  keyLocks : gmap string RWMutex.t;
  keyExpiry : gmap string Time;
  lfuCache : CacheLFU.t;
  lruCache : CacheLRU.t;
  mutexes : Mutexes;
  changeCount : nat;           (** [SnapshotEngine.IncrementChangeCount] *)
  rt : Runtime
}.

Definition set_store (f : gmap string Value -> gmap string Value) (s : Server) : Server :=
  mkServer (config s) (f (store s)) (keyLocks s) (keyExpiry s) (lfuCache s)
           (lruCache s) (mutexes s) (changeCount s) (rt s).

Definition set_keyLocks (f : gmap string RWMutex.t -> gmap string RWMutex.t)
  (s : Server) : Server :=
  mkServer (config s) (store s) (f (keyLocks s)) (keyExpiry s) (lfuCache s)
           (lruCache s) (mutexes s) (changeCount s) (rt s).

Definition set_keyExpiry (f : gmap string Time -> gmap string Time) (s : Server) : Server :=
  mkServer (config s) (store s) (keyLocks s) (f (keyExpiry s)) (lfuCache s)
           (lruCache s) (mutexes s) (changeCount s) (rt s).

Definition set_lfuCache (f : CacheLFU.t -> CacheLFU.t) (s : Server) : Server :=
  mkServer (config s) (store s) (keyLocks s) (keyExpiry s) (f (lfuCache s))
           (lruCache s) (mutexes s) (changeCount s) (rt s).

Definition set_lruCache (f : CacheLRU.t -> CacheLRU.t) (s : Server) : Server :=
  mkServer (config s) (store s) (keyLocks s) (keyExpiry s) (lfuCache s)
           (f (lruCache s)) (mutexes s) (changeCount s) (rt s).

Definition set_mutexes (f : Mutexes -> Mutexes) (s : Server) : Server :=
  mkServer (config s) (store s) (keyLocks s) (keyExpiry s) (lfuCache s)
           (lruCache s) (f (mutexes s)) (changeCount s) (rt s).

Definition set_changeCount (f : nat -> nat) (s : Server) : Server :=
  mkServer (config s) (store s) (keyLocks s) (keyExpiry s) (lfuCache s)
           (lruCache s) (mutexes s) (f (changeCount s)) (rt s).

Definition set_rt (f : Runtime -> Runtime) (s : Server) : Server :=
  mkServer (config s) (store s) (keyLocks s) (keyExpiry s) (lfuCache s)
           (lruCache s) (mutexes s) (changeCount s) (f (rt s)).

(** [NewServer]: empty maps and caches, every mutex free. *)
Definition NewServer (c : Config) (r : Runtime) : Server :=
  mkServer c ∅ ∅ ∅ (CacheLFU.mk [] 0) [] (mkMutexes false false false) 0 r.

(** ** Operations: a state monad with fatal errors and fuel *)

Inductive outcome (A : Type) :=
| Ret (a : A) (s : Server)
| Fatal               (** the Go runtime aborts the process *)
| OutOfFuel.          (** no result within the fuel given: the call still spins or blocks *)

Arguments Ret {A} a s.
Arguments Fatal {A}.
Arguments OutOfFuel {A}.

Definition M (A : Type) : Type := Server -> outcome A.

Definition ret {A} (a : A) : M A := fun s => Ret a s.

Definition bind {A B} (m : M A) (k : A -> M B) : M B :=
  fun s =>
    match m s with
    | Ret a s' => k a s'
    | Fatal => Fatal
    | OutOfFuel => OutOfFuel
    end.

Definition get : M Server := fun s => Ret s s.
Definition modify (f : Server -> Server) : M unit := fun s => Ret tt (f s).
Definition fatal {A} : M A := fun _ => Fatal.
Definition spin {A} : M A := fun _ => OutOfFuel.

Notation "'let*' x ':=' m 'in' k" := (bind m (fun x => k))
  (at level 10, x pattern, m at level 100, k at level 200).

(** A Go [error]: [None] is [nil]. *)
Definition error := option string.

(** ** [sync.Mutex]

    [Lock] blocks until the mutex is released.  With one goroutine nobody
    else can release it: a [Lock] on a held mutex never returns. *)

Module Mutex.

Inductive name := KeyCreation | LFU | LRU.

Definition held (n : name) (m : Mutexes) : bool :=
  match n with
  | KeyCreation => keyCreationLock m
  | LFU => lfuMutex m
  | LRU => lruMutex m
  end.

Definition put (n : name) (b : bool) (m : Mutexes) : Mutexes :=
  match n with
  | KeyCreation => mkMutexes b (lfuMutex m) (lruMutex m)
  | LFU => mkMutexes (keyCreationLock m) b (lruMutex m)
  | LRU => mkMutexes (keyCreationLock m) (lfuMutex m) b
  end.

Definition Lock (n : name) : M unit :=
  let* s := get in
  if held n (mutexes s) then spin else modify (set_mutexes (put n true)).

(** [Unlock] of a free mutex is a fatal error. *)
Definition Unlock (n : name) : M unit :=
  let* s := get in
  if held n (mutexes s) then modify (set_mutexes (put n false)) else fatal.

(** [mu.Lock(); defer mu.Unlock(); body]: the mutex is released when the
    function returns, whatever [body] returns. *)
Definition locked {A} (n : name) (body : M A) : M A :=
  let* _ := Lock n in
  let* a := body in
  let* _ := Unlock n in
  ret a.

End Mutex.

(** ** [math/big]: parsing a decimal float

    [big.ParseFloat(s, 10, 256, mode)] of the Go standard library, after
    its documentation and its scanner; the mode that
    [AdaptType] passes, [big.RoundingMode(big.Exact)], is mode 0, to nearest
    even.  The syntax is
    [[sign] mantissa [exponent]] or [[sign] ("inf" | "Inf")], with
    [mantissa = digits "." [digits] | digits | "." digits] and
    [exponent = ("e"|"E"|"p"|"P") [sign] digits]; the whole string must be
    consumed.  The value is rounded once to 256 bits (Go multiplies by a power
    of five held with 320 bits, which is exact for decimal exponents up to 137
    in magnitude). *)

Module Big.

Local Open Scope Z_scope.

Definition prec : Z := 256.
Definition MaxExp : Z := 2147483647.
Definition MinExp : Z := -2147483648.
Definition MaxInt64 : Z := 9223372036854775807.
Definition MinInt64 : Z := -9223372036854775808.

Definition is_digit (c : ascii) : bool :=
  let n := Z.of_N (N_of_ascii c) in (48 <=? n) && (n <=? 57).

Definition digit_val (c : ascii) : Z := Z.of_N (N_of_ascii c) - 48.

(** Reads a run of digits: the number read so far, how many digits, the rest. *)
Fixpoint scan_digits (s : list ascii) (acc : Z) (cnt : nat) : Z * nat * list ascii :=
  match s with
  | c :: r => if is_digit c then scan_digits r (10 * acc + digit_val c) (S cnt) else (acc, cnt, s)
  | [] => (acc, cnt, [])
  end.

Definition scanSign (s : list ascii) : bool * list ascii :=
  match s with
  | c :: r =>
      if Ascii.eqb c "-" then (true, r)
      else if Ascii.eqb c "+" then (false, r)
      else (false, s)
  | [] => (false, s)
  end.

(** The mantissa: its digits read as one integer, the number of digits after
    the radix point, the rest.  [None] when there is no digit. *)
Definition scanMantissa (s : list ascii) : option (Z * nat * list ascii) :=
  let '(i, ci, r) := scan_digits s 0 O in
  let whole := if (ci =? 0)%nat then None else Some (i, O, r) in
  match r with
  | c :: r' =>
      if Ascii.eqb c "." then
        let '(m, cf, r'') := scan_digits r' i O in
        if (ci + cf =? 0)%nat then None else Some (m, cf, r'')
      else whole
  | [] => whole
  end.

(** The exponent: its value, whether it is binary, the rest.  [None] when the
    exponent has no digits or does not fit 64 bits. *)
Definition scanExponent (s : list ascii) : option (Z * bool * list ascii) :=
  let go (binary : bool) (r : list ascii) :=
    let '(neg, r1) := scanSign r in
    let '(e, c, r2) := scan_digits r1 0 O in
    if (c =? 0)%nat then None
    else
      let v := if neg then - e else e in
      if (MinInt64 <=? v) && (v <=? MaxInt64) then Some (v, binary, r2) else None in
  match s with
  | c :: r =>
      if Ascii.eqb c "e" || Ascii.eqb c "E" then go false r
      else if Ascii.eqb c "p" || Ascii.eqb c "P" then go true r
      else Some (0, false, s)
  | [] => Some (0, false, s)
  end.

Definition bitlen (n : Z) : Z := if n =? 0 then 0 else Z.log2 n + 1.

(** [num / den * 2^e], rounded to nearest even with [prec] bits:
    a mantissa and a binary exponent. *)
Definition round (num den e : Z) : Z * Z :=
  let s := if den =? 1 then 0 else Z.max 0 (prec + 2 + bitlen den - bitlen num) in
  let q := (num * 2 ^ s) / den in
  let sticky := negb ((num * 2 ^ s) mod den =? 0) in
  let l := bitlen q in
  if l <=? prec then (q, e - s)
  else
    let k := l - prec in
    let m0 := Z.shiftr q k in
    let rem := Z.land q (Z.ones k) in
    let half := 2 ^ (k - 1) in
    let up := (half <? rem) || ((rem =? half) && (sticky || Z.odd m0)) in
    ((if up then m0 + 1 else m0), e - s + k).

Definition scan (s : list ascii) : option BigFloat :=
  let '(neg, r0) := scanSign s in
  match r0 with
  | [] => None
  | _ =>
      match scanMantissa r0 with
      | None => None
      | Some (mant, fcount, r1) =>
          match scanExponent r1 with
          | None => None
          | Some (exp, binary, r2) =>
              match r2 with
              | _ :: _ => None
              | [] =>
                  if mant =? 0 then Some (BFinite neg 0%N 0)
                  else
                    let d := - Z.of_nat fcount in
                    let exp5 := if binary then d else d + exp in
                    let e2 := d + exp in
                    let exp2 := bitlen mant + e2 in
                    if negb ((MinExp <=? exp2) && (exp2 <=? MaxExp)) then None
                    else
                      let '(m, e) :=
                        if 0 <=? exp5 then round (mant * 5 ^ exp5) 1 e2
                        else round mant (5 ^ (- exp5)) e2 in
                      if MaxExp <? bitlen m + e then Some (BInf neg)
                      else if bitlen m + e <? MinExp then Some (BFinite neg 0%N 0)
                      else Some (BFinite neg (Z.to_N m) e)
              end
          end
      end
  end.

Definition ParseFloat (s : string) : option BigFloat :=
  if String.eqb s "Inf" || String.eqb s "inf" || String.eqb s "+Inf" || String.eqb s "+inf"
  then Some (BInf false)
  else if String.eqb s "-Inf" || String.eqb s "-inf" then Some (BInf true)
  else scan (list_ascii_of_string s).

(** [x.IsInt()]: infinities are not integers. *)
Definition IsInt (x : BigFloat) : bool :=
  match x with
  | BInf _ => false
  | BFinite _ m e => (0 <=? e) || (Z.of_N m mod 2 ^ (- e) =? 0)
  end.

(** A finite [x] truncated towards zero. *)
Definition trunc (neg : bool) (m : N) (e : Z) : Z :=
  let a := if 0 <=? e then Z.of_N m * 2 ^ e else Z.of_N m / 2 ^ (- e) in
  if neg then - a else a.

(** [x.Int64()]: truncation towards zero; a value out of range gives the
    nearest bound (the accuracy reported beside it says so). *)
Definition Int64 (x : BigFloat) : Z :=
  match x with
  | BInf neg => if neg then MinInt64 else MaxInt64
  | BFinite neg m e => Z.max MinInt64 (Z.min MaxInt64 (trunc neg m e))
  end.

End Big.

(** ** [internal/utils.go] *)

Module Utils.

(** Modelled from the spec: the eviction policy names of the configuration
    ([utils.NoEviction], [utils.AllKeysLFU], ...) are declared outside the
    sources at hand; the configuration surface lists their values. *)
Definition NoEviction := "noeviction".
(** Modelled from the spec: [utils.AllKeysLFU]. *)
Definition AllKeysLFU := "allkeys-lfu".
(** Modelled from the spec: [utils.AllKeysLRU]. *)
Definition AllKeysLRU := "allkeys-lru".
(** Modelled from the spec: [utils.AllKeysRandom]. *)
Definition AllKeysRandom := "allkeys-random".
(** Modelled from the spec: [utils.VolatileLFU]. *)
Definition VolatileLFU := "volatile-lfu".
(** Modelled from the spec: [utils.VolatileLRU]. *)
Definition VolatileLRU := "volatile-lru".
(** Modelled from the spec: [utils.VolatileRandom]. *)
Definition VolatileRandom := "volatile-random".
(** Modelled from the spec: the policy name [volatile-ttl] of the
    configuration surface; the sources never mention it. *)
Definition VolatileTTL := "volatile-ttl".

(** Modelled from the spec: [utils.WRONG_ARGS_RESPONSE] is declared outside
    the sources at hand; the handlers only return it. *)
Definition WRONG_ARGS_RESPONSE := "wrong number of arguments".

(** [AdaptType]: a string, a float64 or an int.  The accuracy that [Int64]
    returns is dropped, as is that of [Float64]. *)
Definition AdaptType (s : string) : Value :=
  match Big.ParseFloat s with
  | None => VString s
  | Some n => if Big.IsInt n then VInt (Big.Int64 n) else VFloat n
  end.

(** [IsMaxMemoryExceeded]: two readings of the heap, one before and one after
    a forced collection. *)
Definition IsMaxMemoryExceeded (maxMemory : N) (r : Runtime) : bool * Runtime :=
  if (maxMemory =? 0)%N then (false, r)
  else
    let '(h1, r1) := ReadMemStats r in
    if (h1 <? maxMemory)%N then (false, r1)
    else
      let '(h2, r2) := ReadMemStats (GC r1) in
      ((maxMemory <=? h2)%N, r2).

End Utils.

(** ** [src/server/keyspace.go] *)

Module Keyspace.

Import Utils.

Definition liftRt {A} (f : Runtime -> A * Runtime) : M A :=
  fun s => let '(a, r) := f (rt s) in Ret a (set_rt (fun _ => r) s).

Definition KeyExists (key : string) (s : Server) : bool :=
  match keyLocks s !! key with
  | Some _ => true
  | None => false
  end.

(** [KeyLock]: the attempt loop.  Each round first looks at [ctx.Done()];
    a round that finds the lock taken lets one poll of time pass. *)
Fixpoint KeyLock (fuel : nat) (ctx : Context) (key : string) : M (bool * error) :=
  match fuel with
  | O => spin
  | S f =>
      let* s := get in
      if ctx_done ctx (rt s) then ret (false, Some (cause ctx))
      else
        match keyLocks s !! key with
        | None => ret (false, Some ("key " ++ key ++ " not found"))
        | Some m =>
            match RWMutex.TryLock m with
            | Some m' =>
                let* _ := modify (set_keyLocks (insert key m')) in
                ret (true, None)
            | None =>
                let* _ := modify (set_rt tick) in
                KeyLock f ctx key
            end
        end
  end.

Definition KeyUnlock (key : string) : M unit :=
  let* s := get in
  if KeyExists key s then
    match keyLocks s !! key ≫= RWMutex.Unlock with
    | Some m' => modify (set_keyLocks (insert key m'))
    | None => fatal
    end
  else ret tt.

Fixpoint KeyRLock (fuel : nat) (ctx : Context) (key : string) : M (bool * error) :=
  match fuel with
  | O => spin
  | S f =>
      let* s := get in
      if ctx_done ctx (rt s) then ret (false, Some (cause ctx))
      else
        match keyLocks s !! key with
        | None => ret (false, Some ("key " ++ key ++ " not found"))
        | Some m =>
            match RWMutex.TryRLock m with
            | Some m' =>
                let* _ := modify (set_keyLocks (insert key m')) in
                ret (true, None)
            | None =>
                let* _ := modify (set_rt tick) in
                KeyRLock f ctx key
            end
        end
  end.

Definition KeyRUnlock (key : string) : M unit :=
  let* s := get in
  if KeyExists key s then
    match keyLocks s !! key ≫= RWMutex.RUnlock with
    | Some m' => modify (set_keyLocks (insert key m'))
    | None => fatal
    end
  else ret tt.

Definition CreateKeyAndLock (fuel : nat) (ctx : Context) (key : string) : M (bool * error) :=
  let* s := get in
  let* exceeded := liftRt (IsMaxMemoryExceeded (MaxMemory (config s))) in
  if exceeded && String.eqb (EvictionPolicy (config s)) NoEviction
  then ret (false, Some "max memory reached, key not created")
  else
    Mutex.locked Mutex.KeyCreation
      (let* s := get in
       if negb (KeyExists key s) then
         let* _ := modify (set_keyLocks (insert key (RWMutex.mk true 0))) in
         ret (true, None)
       else KeyLock fuel ctx key).

(** One eviction round, the body shared by the four loops of
    [adjustMemoryUsage]: lock the victim, delete it from the store, the
    expiry map and the lock map (the random loops delete from the lock map
    first, with the same result), collect, and read the heap again.
    [Some e] ends the loop with [e], [None] goes round again. *)
Definition evictVictim (fuel : nat) (ctx : Context) (wrap : string -> string)
  (key : string) : M (option error) :=
  let* r := KeyLock fuel ctx key in
  match snd r with
  | Some e => ret (Some (Some (wrap e)))
  | None =>
      let* _ := modify (set_store (delete key)) in
      let* _ := modify (set_keyExpiry (delete key)) in
      let* _ := modify (set_keyLocks (delete key)) in
      let* _ := modify (set_rt GC) in
      let* h := liftRt ReadMemStats in
      let* s := get in
      if (h <? MaxMemory (config s))%N then ret (Some None) else ret None
  end.

(** The victim of one round, or the error that ends the loop. *)
Definition pickLFU : M (string + string) :=
  let* s := get in
  if (CacheLFU.Len (lfuCache s) =? 0)%nat
  then ret (inl "adjsutMemoryUsage -> LFU cache empty")
  else
    match CacheLFU.Pop (lfuCache s) with
    | Some (key, c) => let* _ := modify (set_lfuCache (fun _ => c)) in ret (inr key)
    | None => fatal
    end.

Definition pickLRU : M (string + string) :=
  let* s := get in
  if (CacheLRU.Len (lruCache s) =? 0)%nat
  then ret (inl "adjsutMemoryUsage -> LRU cache empty")
  else
    match CacheLRU.Pop (lruCache s) with
    | Some (key, c) => let* _ := modify (set_lruCache (fun _ => c)) in ret (inr key)
    | None => fatal
    end.

(** [idx := rand.Intn(len(m))], then the key the [range] over [m] reaches
    when [idx] has counted down to zero. *)
Definition pickRandom {V} (m : Server -> gmap string V) (msg : string) : M (string + string) :=
  let* s := get in
  if (size (m s) =? 0)%nat then ret (inl msg)
  else
    let* idx := liftRt (Intn (size (m s))) in
    match rangeOrder (rt s) (elements (dom (m s))) !! idx with
    | Some key => ret (inr key)
    | None => fatal
    end.

Fixpoint evictLoop (fuel : nat) (ctx : Context) (pick : M (string + string))
  (wrap : string -> string) : M error :=
  match fuel with
  | O => spin
  | S f =>
      let* v := pick in
      match v with
      | inl e => ret (Some e)
      | inr key =>
          let* r := evictVictim f ctx wrap key in
          match r with
          | Some res => ret res
          | None => evictLoop f ctx pick wrap
          end
      end
  end.

Definition adjustMemoryUsage (fuel : nat) (ctx : Context) : M error :=
  let* s := get in
  if (MaxMemory (config s) =? 0)%N then ret None
  else
    let* h := liftRt ReadMemStats in
    if (h <? MaxMemory (config s))%N then ret None
    else
      let* _ := modify (set_rt GC) in
      let* h := liftRt ReadMemStats in
      if (h <? MaxMemory (config s))%N then ret None
      else
        let policy := Strings.ToLower (EvictionPolicy (config s)) in
        if Strings.Contains [AllKeysLFU; VolatileLFU] policy then
          Mutex.locked Mutex.LFU
            (evictLoop fuel ctx pickLFU
               (fun e => "adjustMemoryUsage -> LFU cache eviction: " ++ e))
        else if Strings.Contains [AllKeysLRU; VolatileLRU] policy then
          Mutex.locked Mutex.LRU
            (evictLoop fuel ctx pickLRU
               (fun e => "adjustMemoryUsage -> LRU cache eviction: " ++ e))
        else if Strings.Contains [AllKeysRandom] policy then
          evictLoop fuel ctx
            (pickRandom keyLocks "adjustMemoryUsage -> all keys random: no keys to evict")
            (fun e => "adjustMemoryUsage -> all keys random: " ++ e)
        else if Strings.Contains [VolatileRandom] policy then
          evictLoop fuel ctx
            (pickRandom keyExpiry
               "adjustMemoryUsage -> volatile keys random: no volatile keys to evict")
            (fun e => "adjustMemoryUsage -> volatile keys random: " ++ e)
        else ret None.

Definition is_Some_b {A} (o : option A) : bool :=
  match o with Some _ => true | None => false end.

(** The cache mutex taken in a [case] of [updateKeyInCache] is released by a
    [defer], that is after [adjustMemoryUsage] has returned. *)
Definition updateKeyInCache (fuel : nat) (ctx : Context) (key : string) : M error :=
  let* s := get in
  if (MaxMemory (config s) =? 0)%N then ret None
  else
    let policy := Strings.ToLower (EvictionPolicy (config s)) in
    let rest : M error :=
      let* err := adjustMemoryUsage fuel ctx in
      match err with
      | Some e => ret (Some ("updateKeyInCache: " ++ e))
      | None => ret None
      end in
    if String.eqb policy AllKeysLFU then
      Mutex.locked Mutex.LFU
        (let* _ := modify (set_lfuCache (CacheLFU.Update key)) in rest)
    else if String.eqb policy AllKeysLRU then
      Mutex.locked Mutex.LRU
        (let* _ := modify (set_lruCache (CacheLRU.Update key)) in rest)
    else if String.eqb policy VolatileLFU then
      Mutex.locked Mutex.LFU
        (let* _ := (if is_Some_b (keyExpiry s !! key)
                    then modify (set_lfuCache (CacheLFU.Update key)) else ret tt) in
         rest)
    else if String.eqb policy VolatileLRU then
      Mutex.locked Mutex.LRU
        (let* _ := (if is_Some_b (keyExpiry s !! key)
                    then modify (set_lruCache (CacheLRU.Update key)) else ret tt) in
         rest)
    else rest.

(** [GetValue]: the error of [updateKeyInCache] is logged and dropped. *)
Definition GetValue (fuel : nat) (ctx : Context) (key : string) : M (option Value) :=
  let* _ := updateKeyInCache fuel ctx key in
  let* s := get in
  ret (store s !! key).

Definition SetValue (fuel : nat) (ctx : Context) (key : string) (value : Value) : M error :=
  let* s := get in
  let* exceeded := liftRt (IsMaxMemoryExceeded (MaxMemory (config s))) in
  if exceeded && String.eqb (EvictionPolicy (config s)) NoEviction
  then ret (Some "max memory reached, key value not set")
  else
    let* _ := modify (set_store (insert key value)) in
    let* _ := updateKeyInCache fuel ctx key in
    let* s := get in
    let* _ := (if negb (InCluster (config s)) then modify (set_changeCount S) else ret tt) in
    ret None.

Definition SetKeyExpiry (fuel : nat) (ctx : Context) (key : string) (expire : Time)
  (touch : bool) : M unit :=
  let* _ := modify (set_keyExpiry (insert key expire)) in
  if touch then let* _ := updateKeyInCache fuel ctx key in ret tt else ret tt.

Definition RemoveKeyExpiry (key : string) : M unit :=
  let* _ := modify (set_keyExpiry (insert key zeroTime)) in
  let* s := get in
  if Strings.Contains [AllKeysLFU; VolatileLFU] (EvictionPolicy (config s))
  then modify (set_lfuCache (CacheLFU.Delete key))
  else if Strings.Contains [AllKeysLRU; VolatileLRU] (EvictionPolicy (config s))
  then modify (set_lruCache (CacheLRU.Delete key))
  else ret tt.

End Keyspace.

(** ** [src/modules/set/commands.go] *)

Module SetModule.

Import Utils Keyspace.

(** Modelled from the spec: the [Set] type ([NewSet], [Add], [Cardinality],
    [GetAll], [Intersection]) is declared outside the sources at hand; the
    data model makes it a set of strings.  [GetAll] lists the members in the
    order the runtime ranges over them; a [limit] of zero means no limit. *)
Definition NewSet (elems : list string) : SetT := list_to_set elems.

(** Modelled from the spec: [Cardinality]. *)
Definition Cardinality (s : SetT) : nat := size s.

(** Modelled from the spec: [Contains]. *)
Definition Contains (s : SetT) (e : string) : bool := bool_decide (e ∈ s).

(** Modelled from the spec: [GetAll], the members in the order of a [range]. *)
Definition GetAll (r : Runtime) (s : SetT) : list string := rangeOrder r (elements s).

(** Modelled from the spec: [Add] returns how many of the members were not yet
    in the set. *)
Definition Add (elems : list string) (s : SetT) : nat * SetT :=
  (size (list_to_set elems ∖ s : SetT), s ∪ list_to_set elems).

(** Modelled from the spec: [Intersection] with the other sets, cut to [limit]
    members when [limit] is not zero. *)
Definition Intersection (r : Runtime) (base : SetT) (others : list SetT) (limit : nat) : SetT :=
  let all := foldl (fun acc x => acc ∩ x) base others in
  if (limit =? 0)%nat then all else list_to_set (take limit (GetAll r all)).

(** What a handler returns: the bytes of the reply, or an error. *)
Inductive reply :=
| Reply (bytes : string)
| Err (msg : string).

Definition CRLF : string := String (ascii_of_nat 13) (String (ascii_of_nat 10) EmptyString).
Definition LF : string := String (ascii_of_nat 10) EmptyString.

(** [cmd[i]]; the handlers check the length before they index. *)
Definition arg (cmd : list string) (i : nat) : string := nth i cmd "".

Definition asSet (v : option Value) : option SetT :=
  match v with
  | Some (VSet s) => Some s
  | _ => None
  end.

Definition handleSADD (fuel : nat) (ctx : Context) (cmd : list string) : M reply :=
  if (length cmd <? 3)%nat then ret (Err WRONG_ARGS_RESPONSE)
  else
    let key := arg cmd 1 in
    let* s := get in
    if negb (KeyExists key s) then
      let set := NewSet (drop 2 cmd) in
      let* r := CreateKeyAndLock fuel ctx key in
      if negb (fst r) && is_Some_b (snd r) then ret (Err (default "" (snd r)))
      else
        let* _ := SetValue fuel ctx key (VSet set) in
        let* _ := KeyUnlock key in
        ret (Reply (":" ++ Fmt.d (length (drop 2 cmd)) ++ CRLF ++ CRLF))
    else
      let* r := KeyLock fuel ctx key in
      match snd r with
      | Some e => ret (Err e)
      | None =>
          let* res :=
            (let* v := GetValue fuel ctx key in
             match asSet v with
             | None => ret (Err ("value at key " ++ key ++ " is not a set"))
             | Some set =>
                 let '(count, set') := Add (drop 2 cmd) set in
                 (* the set is updated in place, through the pointer in the store *)
                 let* _ := modify (set_store (insert key (VSet set'))) in
                 ret (Reply (":" ++ Fmt.d count ++ CRLF ++ LF))
             end) in
          let* _ := KeyUnlock key in
          ret res
      end.

(** The loop that read-locks the keys of an intersection: the keys locked
    ([locks]), and the reply or error that ends the command early. *)
Fixpoint rlockKeys (fuel : nat) (ctx : Context) (keys : list string) (locks : gset string)
  : M (gset string * option reply) :=
  match keys with
  | [] => ret (locks, None)
  | key :: rest =>
      let* s := get in
      if negb (KeyExists key s) then ret (locks, Some (Reply ("*0" ++ CRLF ++ CRLF)))
      else
        let* r := KeyRLock fuel ctx key in
        match snd r with
        | Some e => ret (locks, Some (Err e))
        | None => rlockKeys fuel ctx rest ({[key]} ∪ locks)
        end
  end.

(** The deferred function: [KeyRUnlock] for every key of [locks]. *)
Fixpoint runlockKeys (keys : list string) : M unit :=
  match keys with
  | [] => ret tt
  | key :: rest => let* _ := KeyRUnlock key in runlockKeys rest
  end.

Definition rangeKeys (locks : gset string) : M (list string) :=
  let* s := get in ret (rangeOrder (rt s) (elements locks)).

(** [for key := range locks]: the sets at the locked keys, or the error at
    the first key that holds no set. *)
Fixpoint collectSets (fuel : nat) (ctx : Context) (keys : list string) (sets : list SetT)
  : M (list SetT + string) :=
  match keys with
  | [] => ret (inl sets)
  | key :: rest =>
      let* v := GetValue fuel ctx key in
      match asSet v with
      | None => ret (inr ("value at key " ++ key ++ " is not a set"))
      | Some set => collectSets fuel ctx rest (sets ++ [set])
      end
  end.

Definition handleSINTERSTORE (fuel : nat) (ctx : Context) (cmd : list string) : M reply :=
  if (length cmd <? 3)%nat then ret (Err WRONG_ARGS_RESPONSE)
  else
    let* lk := rlockKeys fuel ctx (drop 2 cmd) ∅ in
    let* res :=
      match snd lk with
      | Some early => ret early
      | None =>
          let* order := rangeKeys (fst lk) in
          let* c := collectSets fuel ctx order [] in
          match c with
          | inr e => ret (Err e)
          | inl [] => ret (Err "not enough sets in the keys provided")
          | inl (base :: others) =>
              let* s := get in
              let intersect := Intersection (rt s) base others 0 in
              let destination := arg cmd 1 in
              let* r :=
                (if KeyExists destination s then KeyLock fuel ctx destination
                 else CreateKeyAndLock fuel ctx destination) in
              match snd r with
              | Some e => ret (Err e)
              | None =>
                  let* _ := SetValue fuel ctx destination (VSet intersect) in
                  let* _ := KeyUnlock destination in
                  ret (Reply (":" ++ Fmt.d (Cardinality intersect) ++ CRLF ++ CRLF))
              end
          end
      end in
    let* order := rangeKeys (fst lk) in
    let* _ := runlockKeys order in
    ret res.

(** The array reply built member by member; the closing blank line is added
    with the last member. *)
Fixpoint bulkStrings (res : string) (elems : list string) : string :=
  match elems with
  | [] => res
  | e :: rest =>
      let res' := res ++ CRLF ++ "$" ++ Fmt.d (String.length e) ++ CRLF ++ e in
      match rest with
      | [] => res' ++ CRLF ++ CRLF
      | _ => bulkStrings res' rest
      end
  end.

Definition handleSMEMBERS (fuel : nat) (ctx : Context) (cmd : list string) : M reply :=
  if negb (length cmd =? 2)%nat then ret (Err WRONG_ARGS_RESPONSE)
  else
    let key := arg cmd 1 in
    let* s := get in
    if negb (KeyExists key s) then ret (Reply ("*0" ++ CRLF ++ CRLF))
    else
      let* r := KeyRLock fuel ctx key in
      match snd r with
      | Some e => ret (Err e)
      | None =>
          let* res :=
            (let* v := GetValue fuel ctx key in
             match asSet v with
             | None => ret (Err ("value at key " ++ key ++ " is not a set"))
             | Some set =>
                 let* s := get in
                 let elems := GetAll (rt s) set in
                 ret (Reply (bulkStrings ("*" ++ Fmt.d (length elems)) elems))
             end) in
          let* _ := KeyRUnlock key in
          ret res
      end.

End SetModule.

(** ** [src/acl/acl.go]: the first ACL, where authorisation is a placeholder *)

Module AclStub.

Record Password := mkPassword { PasswordType : string; PasswordValue : string }.

Record User := mkUser {
  Username : string;
  Enabled : bool;
  Passwords : list Password;
  IncludedCategories : list string;
  ExcludedCategories : list string;
  IncludedCommands : list string;
  ExcludedCommands : list string;
  IncludedKeys : list string;
  ExcludedKeys : list string;
  IncludedReadKeys : list string;
  IncludedWriteKeys : list string;
  IncludedPubSubChannels : list string;
  ExcludedPubSubChannels : list string
}.

Definition CreateUser (username : string) (enabled : bool) : User :=
  mkUser username enabled [] ["*"] [] ["*"] [] ["*"] [] ["*"] ["*"] ["*"] [].

Record ACL := mkACL {
  Users : list User;
  Connections : gmap nat User;
  RequirePass : bool
}.

Definition AuthenticateConnection (acl : ACL) (conn : nat) (cmd : list string) : error := None.

Definition AuthorizeConnection (acl : ACL) (conn : nat) (cmd : list string) : error := None.

End AclStub.

(** ** The ACL module with [AuthorizeConnection] implemented *)

Module Acl.

(** Modelled from the spec: the category names ([utils.PubSubCategory],
    [utils.ReadCategory], [utils.WriteCategory]) are declared outside the
    sources at hand. *)
Definition PubSubCategory := "pubsub".
(** Modelled from the spec: [utils.ReadCategory]. *)
Definition ReadCategory := "read".
(** Modelled from the spec: [utils.WriteCategory]. *)
Definition WriteCategory := "write".

Record Password := mkPassword { PasswordType : string; PasswordValue : string }.

(** The fields of [User] that the module reads. *)
Record User := mkUser {
  Username : string;
  Enabled : bool;
  NoPassword : bool;
  Passwords : list Password;
  IncludedCategories : list string;
  ExcludedCategories : list string;
  IncludedCommands : list string;
  ExcludedCommands : list string;
  IncludedKeys : list string;
  ExcludedKeys : list string;
  IncludedReadKeys : list string;
  IncludedWriteKeys : list string;
  IncludedPubSubChannels : list string;
  ExcludedPubSubChannels : list string
}.

Record Connection := mkConnection {
  Authenticated : bool;
  ConnUser : option User       (** [nil] for a connection that was never registered *)
}.

Record ACL := mkACL {
  Users : list User;
  Connections : gmap nat Connection;
  RequirePass : bool           (** [Config.RequirePass] *)
}.

Definition KeyExtractionFunc := list string -> list string + string.

Record SubCommand := mkSubCommand {
  SubName : string;
  SubCategories : list string;
  SubDescription : string;
  SubSync : bool;
  SubKeyExtractionFunc : option KeyExtractionFunc
}.

Record Command := mkCommand {
  Name : string;
  Categories : list string;
  Description : string;
  SubCommands : list SubCommand;
  Sync : bool;
  KeyExtraction : option KeyExtractionFunc
}.

(** [reflect.DeepEqual(subCommand, utils.SubCommand{})]; a nil and an empty
    slice are not told apart here. *)
Definition isZeroSubCommand (sc : SubCommand) : bool :=
  String.eqb (SubName sc) "" && (length (SubCategories sc) =? 0)%nat
  && String.eqb (SubDescription sc) "" && negb (SubSync sc)
  && match SubKeyExtractionFunc sc with None => true | Some _ => false end.

(** Why a command is refused; the texts of the Go errors are left out. *)
Inductive denial :=
| KeyExtractionError (msg : string)
| NotAuthenticated
| CategoryNotAllowed
| CategoryExcluded
| CommandNotAllowed
| CommandExcluded
| ChannelNotAllowed
| ChannelExcluded
| KeysNotAllowed
| ReadKeysNotAllowed
| WriteKeysNotAllowed.

Inductive verdict :=
| Authorized                 (** [nil] *)
| Denied (why : denial)
| Panic.                     (** nil function, nil pointer or index out of range *)

Definition matches (pattern x : string) : bool :=
  String.eqb pattern "*" || String.eqb pattern x.

(** [slices.ContainsFunc(xs, func(x) { return slices.ContainsFunc(ps, ...) })]:
    some [x] matches some pattern. *)
Definition anyMatches (xs patterns : list string) : bool :=
  Strings.ContainsFunc xs (fun x => Strings.ContainsFunc patterns (fun p => matches p x)).

Definition callExtraction (f : option KeyExtractionFunc) (cmd : list string)
  (k : list string -> verdict) : verdict :=
  match f with
  | None => Panic
  | Some g =>
      match g cmd with
      | inr e => Denied (KeyExtractionError e)
      | inl keys => k keys
      end
  end.

Definition checks (acl : ACL) (conn : nat) (comm : string) (categories keys : list string)
  : verdict :=
  if Strings.EqualFold comm "auth" then Authorized
  else
    let connection := default (mkConnection false None) (Connections acl !! conn) in
    if RequirePass acl && negb (Authenticated connection) then Denied NotAuthenticated
    else
      match ConnUser connection with
      | None =>
          (* the nil user is first read when a category is looked at *)
          match categories with
          | [] => Denied CategoryNotAllowed
          | _ :: _ => Panic
          end
      | Some user =>
          if negb (anyMatches categories (IncludedCategories user)) then Denied CategoryNotAllowed
          else if anyMatches categories (ExcludedCategories user) then Denied CategoryExcluded
          else if negb (Strings.ContainsFunc (IncludedCommands user) (fun c => matches c comm))
          then Denied CommandNotAllowed
          else if Strings.ContainsFunc (ExcludedCommands user) (fun c => matches c comm)
          then Denied CommandExcluded
          else if Strings.Contains categories PubSubCategory then
            match keys with
            | [] => Panic
            | channel :: _ =>
                if negb (Strings.ContainsFunc (IncludedPubSubChannels user)
                           (fun c => Strings.Contains ["*"; channel] c))
                then Denied ChannelNotAllowed
                else if Strings.ContainsFunc (ExcludedPubSubChannels user)
                          (fun c => Strings.Contains ["*"; channel] c)
                then Denied ChannelExcluded
                else Authorized
            end
          else if (0 <? length keys)%nat && negb (anyMatches keys (IncludedKeys user))
          then Denied KeysNotAllowed
          else if (0 <? length keys)%nat && Strings.Contains categories ReadCategory
                  && negb (anyMatches keys (IncludedReadKeys user))
          then Denied ReadKeysNotAllowed
          else if (0 <? length keys)%nat && Strings.Contains categories WriteCategory
                  && negb (anyMatches keys (IncludedWriteKeys user))
          then Denied WriteKeysNotAllowed
          else Authorized
      end.

Definition AuthorizeConnection (acl : ACL) (conn : nat) (cmd : list string)
  (command : Command) (subCommand : SubCommand) : verdict :=
  callExtraction (KeyExtraction command) cmd (fun keys =>
    if negb (isZeroSubCommand subCommand) then
      callExtraction (SubKeyExtractionFunc subCommand) cmd (fun keys' =>
        checks acl conn (Name command ++ "|" ++ SubName subCommand)
          (Categories command ++ SubCategories subCommand) keys')
    else checks acl conn (Name command) (Categories command) keys).

End Acl.

(** ** Predicates on the server state *)

Import Keyspace.

(** The part of the server that the keyspace invariants speak about. *)
Definition same_keys (s s' : Server) : Prop :=
  config s' = config s /\ store s' = store s /\ keyLocks s' = keyLocks s
  /\ keyExpiry s' = keyExpiry s.

(** [k] is as it was: value, lock and expiry. *)
Definition untouched (k : string) (s s' : Server) : Prop :=
  store s' !! k = store s !! k /\ keyLocks s' !! k = keyLocks s !! k
  /\ keyExpiry s' !! k = keyExpiry s !! k.

(** [k] was there with a free lock and is gone: value, lock and expiry. *)
Definition evicted (k : string) (s s' : Server) : Prop :=
  (exists m, keyLocks s !! k = Some m /\ RWMutex.held m = false)
  /\ store s' !! k = None /\ keyLocks s' !! k = None /\ keyExpiry s' !! k = None.

(** What memory adjustment may do to the keyspace: evict keys whose lock was free. *)
Definition evolves (s s' : Server) : Prop :=
  config s' = config s /\ forall k, untouched k s s' \/ evicted k s s'.

(** The caller holds a lock on [key], as the keyspace functions ask for
    ("the key must be locked prior to calling this function"). *)
Definition locked (key : string) (s : Server) : Prop :=
  exists m, keyLocks s !! key = Some m /\ RWMutex.held m = true.

(** Nothing but the runtime oracle (heap readings taken, time passed) differs. *)
Definition only_runtime (s s' : Server) : Prop :=
  exists r, s' = set_rt (fun _ => r) s.

(** ** The states the keyspace can reach

    One step is one call of a keyspace function that returns.  The functions
    that ask for the key to be locked are called with the key locked. *)

Inductive step : Server -> Server -> Prop :=
| step_KeyLock fuel ctx key s r s' :
    KeyLock fuel ctx key s = Ret r s' -> step s s'
| step_KeyUnlock key s s' :
    KeyUnlock key s = Ret tt s' -> step s s'
| step_KeyRLock fuel ctx key s r s' :
    KeyRLock fuel ctx key s = Ret r s' -> step s s'
| step_KeyRUnlock key s s' :
    KeyRUnlock key s = Ret tt s' -> step s s'
| step_CreateKeyAndLock fuel ctx key s r s' :
    CreateKeyAndLock fuel ctx key s = Ret r s' -> step s s'
| step_GetValue fuel ctx key s r s' :
    GetValue fuel ctx key s = Ret r s' -> step s s'
| step_SetValue fuel ctx key v s r s' :
    locked key s -> SetValue fuel ctx key v s = Ret r s' -> step s s'
| step_SetKeyExpiry fuel ctx key t touch s s' :
    locked key s -> SetKeyExpiry fuel ctx key t touch s = Ret tt s' -> step s s'
| step_RemoveKeyExpiry key s s' :
    locked key s -> RemoveKeyExpiry key s = Ret tt s' -> step s s'.

Definition reachable (c : Config) (r : Runtime) (s : Server) : Prop :=
  rtc step (NewServer c r) s.

(** Every key with a value or an expiry has its lock. *)
Definition keyspace_inv (s : Server) : Prop :=
  forall k, is_Some (store s !! k) \/ is_Some (keyExpiry s !! k) -> KeyExists k s = true.

(** ** Example states *)

Module Ex.

(** A runtime whose heap always reads [h]. *)
Definition rt_const (h : N) : Runtime :=
  mkRuntime (fun _ => h) 0 (fun _ => 0) 0 (fun l => l) 0.

(** The configuration of the test servers: no memory limit. *)
Definition cfg0 : Config := mkConfig 0 "" false.

Definition s0 : Server := NewServer cfg0 (rt_const 0).

(** A server with one key ["k"] holding ["v"], unlocked, that expired at
    time 5. *)
Definition expired : Server :=
  mkServer cfg0 {["k" := VString "v"]} {["k" := RWMutex.new]} {["k" := 5%Z]}
           (CacheLFU.mk [] 0) [] (mkMutexes false false false) 0 (rt_const 0).

(** The same key under [volatile-ttl] with the heap at twice the limit. *)
Definition pressed (policy : string) : Server :=
  mkServer (mkConfig 100 policy false)
           {["k" := VString "v"]} {["k" := RWMutex.new]} {["k" := 5%Z]}
           (CacheLFU.mk [] 0) [] (mkMutexes false false false) 0 (rt_const 200).

(** The key write-locked by the caller, no memory limit. *)
Definition held : Server :=
  mkServer cfg0 ∅ {["k" := RWMutex.mk true 0]} ∅
           (CacheLFU.mk [] 0) [] (mkMutexes false false false) 0 (rt_const 0).

(** The server after that caller has set the key to 7. *)
Definition filled : Server :=
  mkServer cfg0 {["k" := VInt 7]} {["k" := RWMutex.mk true 0]} ∅
           (CacheLFU.mk [] 0) [] (mkMutexes false false false) 1 (rt_const 0).

End Ex.

(** The sets of the SINTERSTORE scenario. *)
Module Scenario.

Definition set1 : SetT := SetModule.NewSet ["one"; "two"; "three"; "four"; "five"].
Definition set2 : SetT := SetModule.NewSet ["three"; "four"; "five"; "six"; "seven"; "eight"].
Definition common : SetT := SetModule.NewSet ["three"; "four"; "five"].

(** The test server after its preset: [key1] and [key2] hold the two sets. *)
Definition preset : Server :=
  mkServer Ex.cfg0
           {["key1" := VSet set1; "key2" := VSet set2]}
           {["key1" := RWMutex.new; "key2" := RWMutex.new]} ∅
           (CacheLFU.mk [] 0) [] (mkMutexes false false false) 2 (Ex.rt_const 0).

End Scenario.

(** ** The typing rule of the data model, in the spec's words

    "A token parses as integer if it is a base-10 integer": an optional sign
    followed by decimal digits. *)
Module SpecTyping.

Fixpoint all_digits (s : list ascii) : bool :=
  match s with
  | [] => true
  | c :: r => Big.is_digit c && all_digits r
  end.

Definition is_base10_integer (token : string) : bool :=
  let body := snd (Big.scanSign (list_ascii_of_string token)) in
  negb (length body =? 0)%nat && all_digits body.

End SpecTyping.

(** ** Authorisation, in the spec's words

    "[authorize] returns Unauthorized unless all of: (a) if [require_pass],
    connection is authenticated; (b) every category is allowed and none
    excluded; (c) command name is allowed and not excluded; (d) every key is
    in [included_keys], additionally in [included_read_keys] if the command
    has the read category, in [included_write_keys] if write; (e) for pub/sub
    commands, the channel is allowed and not excluded." *)
Module SpecAcl.

Import Acl.

Definition listed (patterns : list string) (x : string) : bool :=
  existsb (fun p => matches p x) patterns.

Definition spec_allows (requirePass : bool) (connection : Connection) (user : User)
  (comm : string) (categories keys channels : list string) : bool :=
  (negb requirePass || Authenticated connection)
  && forallb (fun c => listed (IncludedCategories user) c
                       && negb (listed (ExcludedCategories user) c)) categories
  && (listed (IncludedCommands user) comm && negb (listed (ExcludedCommands user) comm))
  && forallb (listed (IncludedKeys user)) keys
  && (negb (Strings.Contains categories ReadCategory)
      || forallb (listed (IncludedReadKeys user)) keys)
  && (negb (Strings.Contains categories WriteCategory)
      || forallb (listed (IncludedWriteKeys user)) keys)
  && (negb (Strings.Contains categories PubSubCategory)
      || forallb (fun ch => listed (IncludedPubSubChannels user) ch
                            && negb (listed (ExcludedPubSubChannels user) ch)) channels).

End SpecAcl.

Module ExAcl.

Import Acl.

Definition noSub : SubCommand := mkSubCommand "" [] "" false None.

(** A user allowed the read category only, and one allowed the key [a] only. *)
Definition reader : User :=
  mkUser "reader" true true [] ["read"] [] ["*"] [] ["*"] [] ["*"] ["*"] ["*"] [].

Definition keyed : User :=
  mkUser "keyed" true true [] ["*"] [] ["*"] [] ["a"] [] ["a"] ["a"] ["*"] [].

Definition acl (u : User) : ACL :=
  mkACL [u] {[ 1%nat := mkConnection true (Some u) ]} false.

(** GET carries the categories read and slow; MGET reads every key given. *)
Definition get : Command :=
  mkCommand "get" ["read"; "slow"] "" [] false (Some (fun cmd => inl (drop 1 cmd))).

Definition mget : Command :=
  mkCommand "mget" ["read"] "" [] true (Some (fun cmd => inl (drop 1 cmd))).

Definition stub : AclStub.ACL :=
  AclStub.mkACL [AclStub.CreateUser "default" true] ∅ true.

End ExAcl.

(** ** Relations between states used in the proofs *)

(** Choosing a victim leaves the keyspace alone. *)
Definition picks_only (pick : M (string + string)) : Prop :=
  forall s v s', pick s = Ret v s' -> same_keys s s'.

(** The existing keys stay when a lock changes hands. *)
Definition keeps_keys (s s' : Server) : Prop :=
  config s' = config s /\ store s' = store s /\ keyExpiry s' = keyExpiry s
  /\ forall k, KeyExists k s = true -> KeyExists k s' = true.

(** The counter of changes that [SetValue] feeds outside a cluster. *)
Definition counted (s : Server) : Server :=
  if negb (InCluster (config s)) then set_changeCount S s else s.

(** What SINTERSTORE leaves for the command that follows. *)
Definition stored_at (d : string) (set : SetT) (s s' : Server) : Prop :=
  config s' = config s /\ rt s' = rt s
  /\ store s' !! d = Some (VSet set)
  /\ keyLocks s' !! d = Some (RWMutex.mk false 0).

(** ** Further relations and example states for the keyspace *)

(** A computation that gives back every server mutex it takes. *)
Definition keeps_mutexes {A} (m : M A) : Prop :=
  forall s a s', m s = Ret a s' -> mutexes s' = mutexes s.

(** The heap reading taken last was below the limit. *)
Definition read_below (s : Server) : Prop :=
  exists n, memReads (rt s) = S n /\ (heapInuse (rt s) n < MaxMemory (config s))%N.

(** The server after one eviction round that deleted [key]. *)
Definition evictedState (key : string) (s : Server) : Server :=
  set_rt (fun r => snd (ReadMemStats (GC r)))
    (set_keyLocks (delete key) (set_keyExpiry (delete key) (set_store (delete key) s))).

(** The server a call leaves, for a call that returns. *)
Definition state_after {A} (o : outcome A) (otherwise : Server) : Server :=
  match o with
  | Ret _ s => s
  | _ => otherwise
  end.

Module Samples.

(** A runtime whose heap reads 200 twice and 50 from then on. *)
Definition rt_relieved : Runtime :=
  mkRuntime (fun i => if (i <? 2)%nat then 200%N else 50%N) 0 (fun _ => 0) 0 (fun l => l) 0.

(** One unlocked key ["k"] with an expiry, a limit of 100 under [policy],
    and a heap that falls below the limit once something was evicted. *)
Definition relieved (policy : string) : Server :=
  mkServer (mkConfig 100 policy false)
           {["k" := VString "v"]} {["k" := RWMutex.new]} {["k" := 5%Z]}
           (CacheLFU.mk [] 0) [] (mkMutexes false false false) 0 rt_relieved.

End Samples.

(** ** [strconv.ParseInt(s, 10, 64)]

    The function of the Go standard library that [ParseMemory] calls, after
    its source: an optional sign, then [ParseUint], which reads the digits
    and reports a number that does not fit in 64 bits as a range error as
    soon as it meets it.  The value returned beside an error is left out:
    [ParseMemory] drops it. *)

Module Strconv.

Inductive NumError := ErrSyntax | ErrRange.

Definition maxUint64 : N := 18446744073709551615.

(** [maxUint64/10 + 1], the smallest [n] for which [n*10] overflows. *)
Definition cutoff10 : N := 1844674407370955162.

(** An [int64] holding the mathematical integer [z], with wrap-around. *)
Definition wrap64 (z : Z) : Z := ((z + 2 ^ 63) mod 2 ^ 64 - 2 ^ 63)%Z.

(** [lower(c)] of the package: the byte with bit 5 set. *)
Definition lower (c : ascii) : N := N.lor (N_of_ascii c) 32.

(** The value of one character in a base up to 36, when it has one. *)
Definition digitOf (c : ascii) : option N :=
  let n := N_of_ascii c in
  if (48 <=? n)%N && (n <=? 57)%N then Some (n - 48)%N
  else if (97 <=? lower c)%N && (lower c <=? 122)%N then Some (lower c - 97 + 10)%N
  else None.

(** The loop of [ParseUint] for base 10 and 64 bits; an underscore is only
    read in base 0. *)
Fixpoint parseUintLoop (s : list ascii) (n : N) : N + NumError :=
  match s with
  | [] => inl n
  | c :: r =>
      match digitOf c with
      | None => inr ErrSyntax
      | Some d =>
          if (10 <=? d)%N then inr ErrSyntax
          else if (cutoff10 <=? n)%N then inr ErrRange
          else
            let n10 := (n * 10)%N in
            let n1 := ((n10 + d) mod 2 ^ 64)%N in
            if (n1 <? n10)%N || (maxUint64 <? n1)%N then inr ErrRange
            else parseUintLoop r n1
      end
  end.

Definition ParseUint (s : list ascii) : N + NumError :=
  match s with
  | [] => inr ErrSyntax
  | _ => parseUintLoop s 0
  end.

Definition ParseInt (s : list ascii) : Z + NumError :=
  match s with
  | [] => inr ErrSyntax
  | c :: r =>
      let '(neg, digits) :=
        if Ascii.eqb c "+" then (false, r)
        else if Ascii.eqb c "-" then (true, r)
        else (false, s) in
      match ParseUint digits with
      | inr e => inr e
      | inl un =>
          let cutoff := (2 ^ 63)%N in
          if negb neg && (cutoff <=? un)%N then inr ErrRange
          else if neg && (cutoff <? un)%N then inr ErrRange
          else
            let n := wrap64 (Z.of_N un) in
            inl (if neg then wrap64 (- n) else n)
      end
  end.

End Strconv.

(** ** [internal/utils.go], the other functions *)

Module Internal.

(** [AbsInt]; an [int] has 64 bits. *)
Definition AbsInt (n : Z) : Z :=
  if (n <? 0)%Z then Strconv.wrap64 (- n) else n.

Inductive MemoryError :=
| NumberError (e : Strconv.NumError)
| UnsupportedUnit (memUnit : string).

(** [ParseMemory]: [None] is the panic of a slice expression out of range;
    the product is an [int64] and wraps, the result is its conversion to
    [uint64]. *)
Definition ParseMemory (memory : string) : option (N + MemoryError) :=
  let bytes := list_ascii_of_string memory in
  let len := length bytes in
  if (len <? 2)%nat then None
  else
    let memString := take (len - 2) bytes in
    match Strconv.ParseInt memString with
    | inr e => Some (inr (NumberError e))
    | inl bytesInt =>
        let memUnit := Strings.ToLower (string_of_list_ascii (drop (len - 2) bytes)) in
        let scaled (factor : Z) : option (N + MemoryError) :=
          Some (inl (Z.to_N (Strconv.wrap64 (bytesInt * factor) mod 2 ^ 64))) in
        if String.eqb memUnit "kb" then scaled 1024%Z
        else if String.eqb memUnit "mb" then scaled (1024 * 1024)%Z
        else if String.eqb memUnit "gb" then scaled (1024 * 1024 * 1024)%Z
        else if String.eqb memUnit "tb" then scaled (1024 * 1024 * 1024 * 1024)%Z
        else if String.eqb memUnit "pb" then scaled (1024 * 1024 * 1024 * 1024 * 1024)%Z
        else Some (inr (UnsupportedUnit memUnit))
    end.

(** [EncodeCommand]: the RESP array of bulk strings; [len(token)] counts
    bytes. *)
Definition EncodeCommand (cmd : list string) : string :=
  fold_left
    (fun res token =>
       res ++ "$" ++ Fmt.d (String.length token) ++ SetModule.CRLF ++ token ++ SetModule.CRLF)
    cmd ("*" ++ Fmt.d (length cmd) ++ SetModule.CRLF).

(** [KeyData], by the fields the sources read: the value and the expiry. *)
Record KeyData := mkKeyData {
  Value : Value;
  ExpireAt : Time
}.

(** The first loop of [FilterExpiredKeys]: [time.Now()] is read once for
    every key that has an expiry; [now i] is the i-th reading. *)
Fixpoint expiredKeys (now : nat -> Time) (state : gmap string KeyData) (keys : list string)
  (reads : nat) (keysToDelete : list string) : list string :=
  match keys with
  | [] => keysToDelete
  | k :: rest =>
      match state !! k with
      | None => expiredKeys now state rest reads keysToDelete
      | Some v =>
          if (ExpireAt v =? zeroTime)%Z then expiredKeys now state rest reads keysToDelete
          else if (ExpireAt v <? now reads)%Z
               then expiredKeys now state rest (S reads) (keysToDelete ++ [k])
               else expiredKeys now state rest (S reads) keysToDelete
      end
  end.

(** [FilterExpiredKeys]: [order] is the order in which [range] visits the
    keys of the map. *)
Definition FilterExpiredKeys (order : list string -> list string) (now : nat -> Time)
  (state : gmap string KeyData) : gmap string KeyData :=
  let keysToDelete := expiredKeys now state (order (elements (dom state))) 0 [] in
  fold_left (fun st key => delete key st) keysToDelete state.

End Internal.

(** The bytes that [EncodeCommand] writes for one token. *)
Definition bulkBytes (token : string) : list ascii :=
  "$"%char :: Fmt.digits (N.of_nat (String.length token))
  ++ list_ascii_of_string SetModule.CRLF
  ++ list_ascii_of_string token ++ list_ascii_of_string SetModule.CRLF.

(** ** Key extraction functions

    What a key function returns: the keys, or the error, or [None] when an
    index or slice expression is out of range and the function panics. *)

Module Slices.

(** [cmd[i]]. *)
Definition at_ (cmd : list string) (i : nat) : option string := cmd !! i.

(** [cmd[i:]], for [i <= len(cmd)]. *)
Definition from (cmd : list string) (i : nat) : option (list string) :=
  if (length cmd <? i)%nat then None else Some (drop i cmd).

(** [cmd[i:j]], for [i <= j <= len(cmd)]. *)
Definition between (cmd : list string) (i j : nat) : option (list string) :=
  if (j <? i)%nat || (length cmd <? j)%nat then None else Some (take (j - i) (drop i cmd)).

(** The elements at the even indices: [for i, key := range s { if i%2 == 0 ... }]. *)
Fixpoint evens (s : list string) : list string :=
  match s with
  | [] => []
  | key :: rest => key :: match rest with [] => [] | _ :: rest' => evens rest' end
  end.

End Slices.

(** *** [src/modules/list/key_funcs.go] *)

Module ListKeys.

Import Slices.

Definition KeyFunc := list string -> option (list string + string).

Definition lpushKeyFunc : KeyFunc := fun cmd =>
  if (length cmd <? 3)%nat then Some (inr Utils.WRONG_ARGS_RESPONSE)
  else k ← at_ cmd 1; Some (inl [k]).

Definition popKeyFunc : KeyFunc := fun cmd =>
  if negb (length cmd =? 2)%nat then Some (inr Utils.WRONG_ARGS_RESPONSE)
  else k ← at_ cmd 1; Some (inl [k]).

Definition llenKeyFunc : KeyFunc := fun cmd =>
  if negb (length cmd =? 2)%nat then Some (inr Utils.WRONG_ARGS_RESPONSE)
  else k ← at_ cmd 1; Some (inl [k]).

Definition lrangeKeyFunc : KeyFunc := fun cmd =>
  if negb (length cmd =? 4)%nat then Some (inr Utils.WRONG_ARGS_RESPONSE)
  else k ← at_ cmd 1; Some (inl [k]).

Definition lindexKeyFunc : KeyFunc := fun cmd =>
  if negb (length cmd =? 3)%nat then Some (inr Utils.WRONG_ARGS_RESPONSE)
  else k ← at_ cmd 1; Some (inl [k]).

Definition lsetKeyFunc : KeyFunc := fun cmd =>
  if negb (length cmd =? 4)%nat then Some (inr Utils.WRONG_ARGS_RESPONSE)
  else k ← at_ cmd 1; Some (inl [k]).

Definition ltrimKeyFunc : KeyFunc := fun cmd =>
  if negb (length cmd =? 4)%nat then Some (inr Utils.WRONG_ARGS_RESPONSE)
  else k ← at_ cmd 1; Some (inl [k]).

Definition lremKeyFunc : KeyFunc := fun cmd =>
  if negb (length cmd =? 4)%nat then Some (inr Utils.WRONG_ARGS_RESPONSE)
  else k ← at_ cmd 1; Some (inl [k]).

Definition rpushKeyFunc : KeyFunc := fun cmd =>
  if (length cmd <? 3)%nat then Some (inr Utils.WRONG_ARGS_RESPONSE)
  else k ← at_ cmd 1; Some (inl [k]).

Definition lmoveKeyFunc : KeyFunc := fun cmd =>
  if negb (length cmd =? 5)%nat then Some (inr Utils.WRONG_ARGS_RESPONSE)
  else k1 ← at_ cmd 1; k2 ← at_ cmd 2; Some (inl [k1; k2]).

(** The ten functions of the file. *)
Definition all : list KeyFunc :=
  [lpushKeyFunc; popKeyFunc; llenKeyFunc; lrangeKeyFunc; lindexKeyFunc;
   lsetKeyFunc; ltrimKeyFunc; lremKeyFunc; rpushKeyFunc; lmoveKeyFunc].

End ListKeys.

(** *** [src/modules/etc/key_funcs.go] *)

Module EtcKeys.

Import Slices.

Definition setKeyFunc (cmd : list string) : option (list string + string) :=
  if negb (length cmd =? 3)%nat then Some (inr Utils.WRONG_ARGS_RESPONSE)
  else k ← at_ cmd 1; Some (inl [k]).

Definition setNXKeyFunc (cmd : list string) : option (list string + string) :=
  if negb (length cmd =? 3)%nat then Some (inr Utils.WRONG_ARGS_RESPONSE)
  else k ← at_ cmd 1; Some (inl [k]).

Definition msetKeyFunc (cmd : list string) : option (list string + string) :=
  args ← from cmd 1;
  if negb (length args mod 2 =? 0)%nat then Some (inr "each key must be paired with a value")
  else Some (inl (evens args)).

End EtcKeys.

(** *** [internal/modules/generic/key_funcs.go], the later key functions *)

Module GenericKeys.

Import Slices.

Record AccessKeys := mkAccessKeys {
  Channels : list string;
  ReadKeys : list string;
  WriteKeys : list string
}.

Definition KeyFunc := list string -> option (AccessKeys + string).

Definition setKeyFunc : KeyFunc := fun cmd =>
  if (length cmd <? 3)%nat || (7 <? length cmd)%nat then Some (inr Utils.WRONG_ARGS_RESPONSE)
  else w ← between cmd 1 2; Some (inl (mkAccessKeys [] [] w)).

Definition msetKeyFunc : KeyFunc := fun cmd =>
  args ← from cmd 1;
  if negb (length args mod 2 =? 0)%nat then Some (inr "each key must be paired with a value")
  else Some (inl (mkAccessKeys [] [] (evens args))).

Definition getKeyFunc : KeyFunc := fun cmd =>
  if negb (length cmd =? 2)%nat then Some (inr Utils.WRONG_ARGS_RESPONSE)
  else r ← from cmd 1; Some (inl (mkAccessKeys [] r [])).

Definition mgetKeyFunc : KeyFunc := fun cmd =>
  if (length cmd <? 2)%nat then Some (inr Utils.WRONG_ARGS_RESPONSE)
  else r ← from cmd 1; Some (inl (mkAccessKeys [] r [])).

Definition delKeyFunc : KeyFunc := fun cmd =>
  if (length cmd <? 2)%nat then Some (inr Utils.WRONG_ARGS_RESPONSE)
  else w ← from cmd 1; Some (inl (mkAccessKeys [] [] w)).

Definition persistKeyFunc : KeyFunc := fun cmd =>
  if negb (length cmd =? 2)%nat then Some (inr Utils.WRONG_ARGS_RESPONSE)
  else w ← from cmd 1; Some (inl (mkAccessKeys [] [] w)).

Definition expireTimeKeyFunc : KeyFunc := fun cmd =>
  if negb (length cmd =? 2)%nat then Some (inr Utils.WRONG_ARGS_RESPONSE)
  else r ← from cmd 1; Some (inl (mkAccessKeys [] r [])).

Definition ttlKeyFunc : KeyFunc := fun cmd =>
  if negb (length cmd =? 2)%nat then Some (inr Utils.WRONG_ARGS_RESPONSE)
  else r ← from cmd 1; Some (inl (mkAccessKeys [] r [])).

Definition expireKeyFunc : KeyFunc := fun cmd =>
  if (length cmd <? 3)%nat || (4 <? length cmd)%nat then Some (inr Utils.WRONG_ARGS_RESPONSE)
  else w ← between cmd 1 2; Some (inl (mkAccessKeys [] [] w)).

Definition expireAtKeyFunc : KeyFunc := fun cmd =>
  if (length cmd <? 3)%nat || (4 <? length cmd)%nat then Some (inr Utils.WRONG_ARGS_RESPONSE)
  else w ← between cmd 1 2; Some (inl (mkAccessKeys [] [] w)).

(** The ten functions of the file. *)
Definition all : list KeyFunc :=
  [setKeyFunc; msetKeyFunc; getKeyFunc; mgetKeyFunc; delKeyFunc; persistKeyFunc;
   expireTimeKeyFunc; ttlKeyFunc; expireKeyFunc; expireAtKeyFunc].

End GenericKeys.

(** ** The string commands SET, GET and MGET

    The plugins of the string commands call the keyspace through the
    [Server] interface.  They predate the [ctx] parameter of [GetValue] and
    the error that [SetValue] returns: the context of the command is passed
    on, and what [SetValue] returns is dropped. *)

Module StrCmd.

Import SetModule.

(** ["+OK\r\n\n"] *)
Definition OK : string := "+OK" ++ CRLF ++ LF.

Section Printing.

(** [fmt.Sprintf("%v", value)] prints an [int] in decimal and a string as it
    is; how it prints a [float64] and a pointer to a set is left to the two
    parameters. *)
Variable sprintFloat : BigFloat -> string.
Variable sprintSet : SetT -> string.

Definition Sprint (value : Value) : string :=
  match value with
  | VString s => s
  | VInt i => Fmt.FormatInt i
  | VFloat f => sprintFloat f
  | VSet s => sprintSet s
  end.

(** The [switch value.(type)] of GET and MGET. *)
Definition render (value : option Value) : string :=
  match value with
  | None => "nil"
  | Some v => Sprint v
  end.

Definition handleSet (fuel : nat) (ctx : Context) (cmd : list string) : M reply :=
  if negb (length cmd =? 3)%nat then ret (Err "wrong number of args for SET command")
  else
    let key := arg cmd 1 in
    let* s := get in
    if negb (KeyExists key s) then
      let* _ := CreateKeyAndLock fuel ctx key in
      let* _ := SetValue fuel ctx key (Utils.AdaptType (arg cmd 2)) in
      let* _ := KeyUnlock key in
      ret (Reply OK)
    else
      let* r := KeyLock fuel ctx key in
      match snd r with
      | Some e => ret (Err e)
      | None =>
          let* _ := SetValue fuel ctx key (Utils.AdaptType (arg cmd 2)) in
          let* _ := KeyUnlock key in
          ret (Reply OK)
      end.

(** [handleGet]: what [KeyRLock] returns is not looked at. *)
Definition handleGet (fuel : nat) (ctx : Context) (cmd : list string) : M reply :=
  if negb (length cmd =? 2)%nat then ret (Err "wrong number of args for GET command")
  else
    let key := arg cmd 1 in
    let* _ := KeyRLock fuel ctx key in
    let* value := GetValue fuel ctx key in
    let* _ := KeyRUnlock key in
    ret (Reply ("+" ++ render value ++ CRLF ++ LF)).

(** The loop of [handleMGet]; a value that is not nil is read a second time
    to be printed. *)
Fixpoint mgetValues (fuel : nat) (ctx : Context) (keys vals : list string) : M (list string) :=
  match keys with
  | [] => ret vals
  | key :: rest =>
      let* _ := KeyRLock fuel ctx key in
      let* value := GetValue fuel ctx key in
      let* vals' :=
        match value with
        | None => ret (vals ++ ["nil"])%list
        | Some _ =>
            let* again := GetValue fuel ctx key in
            ret (vals ++ [match again with
                          | Some v => Sprint v
                          | None => "<nil>"    (* [%v] of a nil interface *)
                          end])%list
        end in
      let* _ := KeyRUnlock key in
      mgetValues fuel ctx rest vals'
  end.

(** The reply of MGET for the values collected. *)
Definition mgetReply (vals : list string) : string :=
  fold_left (fun bytes val => bytes ++ "$" ++ Fmt.d (String.length val) ++ CRLF ++ val ++ CRLF)
            vals ("*" ++ Fmt.d (length vals) ++ CRLF)
  ++ LF.

Definition handleMGet (fuel : nat) (ctx : Context) (cmd : list string) : M reply :=
  if (length cmd <? 2)%nat then ret (Err "wrong number of args for MGET command")
  else
    let* vals := mgetValues fuel ctx (drop 1 cmd) [] in
    ret (Reply (mgetReply vals)).

End Printing.

End StrCmd.

Module Samples2.

(** A printer for the values the examples do not hold. *)
Definition noFloat (f : BigFloat) : string := "".
Definition noSet (s : SetT) : string := "".

End Samples2.

(** ** [src/modules/set/commands.go], further handlers *)

Module SetMore.

Import Utils SetModule.

Definition notASet (key : string) : string := "value at key " ++ key ++ " is not a set".

Definition handleSCARD (fuel : nat) (ctx : Context) (cmd : list string) : M reply :=
  if negb (length cmd =? 2)%nat then ret (Err WRONG_ARGS_RESPONSE)
  else
    let key := arg cmd 1 in
    let* s := get in
    if negb (KeyExists key s) then ret (Reply (":0" ++ CRLF ++ CRLF))
    else
      let* r := KeyRLock fuel ctx key in
      match snd r with
      | Some e => ret (Err e)
      | None =>
          let* res :=
            (let* v := GetValue fuel ctx key in
             match asSet v with
             | None => ret (Err (notASet key))
             | Some set => ret (Reply (":" ++ Fmt.d (Cardinality set) ++ CRLF ++ CRLF))
             end) in
          let* _ := KeyRUnlock key in
          ret res
      end.

Definition handleSISMEMBER (fuel : nat) (ctx : Context) (cmd : list string) : M reply :=
  if negb (length cmd =? 3)%nat then ret (Err WRONG_ARGS_RESPONSE)
  else
    let key := arg cmd 1 in
    let* s := get in
    if negb (KeyExists key s) then ret (Reply (":0" ++ CRLF ++ CRLF))
    else
      let* r := KeyRLock fuel ctx key in
      match snd r with
      | Some e => ret (Err e)
      | None =>
          let* res :=
            (let* v := GetValue fuel ctx key in
             match asSet v with
             | None => ret (Err (notASet key))
             | Some set =>
                 if negb (Contains set (arg cmd 2)) then ret (Reply (":0" ++ CRLF ++ CRLF))
                 else ret (Reply (":1" ++ CRLF ++ CRLF))
             end) in
          let* _ := KeyRUnlock key in
          ret res
      end.

(** The array of SMISMEMBER: [answer m] is the text written for member [m];
    the closing blank line is added with the last member. *)
Fixpoint flags (answer : string -> string) (res : string) (members : list string) : string :=
  match members with
  | [] => res
  | m :: rest =>
      let res' := res ++ answer m in
      match rest with
      | [] => res' ++ CRLF ++ CRLF
      | _ => flags answer res' rest
      end
  end.

Definition handleSMISMEMBER (fuel : nat) (ctx : Context) (cmd : list string) : M reply :=
  if (length cmd <? 3)%nat then ret (Err WRONG_ARGS_RESPONSE)
  else
    let key := arg cmd 1 in
    let members := drop 2 cmd in
    let* s := get in
    if negb (KeyExists key s)
    then ret (Reply (flags (fun _ => CRLF ++ ":0") ("*" ++ Fmt.d (length members)) members))
    else
      let* r := KeyRLock fuel ctx key in
      match snd r with
      | Some e => ret (Err e)
      | None =>
          let* res :=
            (let* v := GetValue fuel ctx key in
             match asSet v with
             | None => ret (Err (notASet key))
             | Some set =>
                 ret (Reply (flags (fun m => if Contains set m then CRLF ++ ":1"
                                             else CRLF ++ ":0")
                                   ("*" ++ Fmt.d (length members)) members))
             end) in
          let* _ := KeyRUnlock key in
          ret res
      end.

Definition handleSINTER (fuel : nat) (ctx : Context) (cmd : list string) : M reply :=
  if (length cmd <? 2)%nat then ret (Err WRONG_ARGS_RESPONSE)
  else
    let* lk := rlockKeys fuel ctx (drop 1 cmd) ∅ in
    let* res :=
      match snd lk with
      | Some early => ret early
      | None =>
          let* order := rangeKeys (fst lk) in
          let* c := collectSets fuel ctx order [] in
          match c with
          | inr e => ret (Err e)
          | inl [] => ret (Err "not enough sets in the keys provided")
          | inl (base :: others) =>
              let* s := get in
              let intersect := Intersection (rt s) base others 0 in
              let elems := GetAll (rt s) intersect in
              ret (Reply (bulkStrings ("*" ++ Fmt.d (length elems)) elems))
          end
      end in
    let* order := rangeKeys (fst lk) in
    let* _ := runlockKeys order in
    ret res.

(** The loop of SUNION and SUNIONSTORE that read-locks the keys: a key that
    does not exist is passed over. *)
Fixpoint rlockExisting (fuel : nat) (ctx : Context) (keys : list string) (locks : gset string)
  : M (gset string * option reply) :=
  match keys with
  | [] => ret (locks, None)
  | key :: rest =>
      let* s := get in
      if negb (KeyExists key s) then rlockExisting fuel ctx rest locks
      else
        let* r := KeyRLock fuel ctx key in
        match snd r with
        | Some e => ret (locks, Some (Err e))
        | None => rlockExisting fuel ctx rest ({[key]} ∪ locks)
        end
  end.

Section Union.

(** [Union] of the [Set] type is declared outside the sources at hand; the
    handlers are modelled for any such operation. *)
Variable Union : SetT -> list SetT -> SetT.

(** [sets[0].Union(sets[1:])] panics when no set was collected. *)
Definition handleSUNION (fuel : nat) (ctx : Context) (cmd : list string) : M reply :=
  if (length cmd <? 2)%nat then ret (Err WRONG_ARGS_RESPONSE)
  else
    let* lk := rlockExisting fuel ctx (drop 1 cmd) ∅ in
    let* res :=
      match snd lk with
      | Some early => ret early
      | None =>
          let* order := rangeKeys (fst lk) in
          let* c := collectSets fuel ctx order [] in
          match c with
          | inr e => ret (Err e)
          | inl [] => fatal
          | inl (base :: others) =>
              let union := Union base others in
              let* s := get in
              let elems := GetAll (rt s) union in
              ret (Reply (bulkStrings ("*" ++ Fmt.d (Cardinality union)) elems))
          end
      end in
    let* order := rangeKeys (fst lk) in
    let* _ := runlockKeys order in
    ret res.

Definition handleSUNIONSTORE (fuel : nat) (ctx : Context) (cmd : list string) : M reply :=
  if (length cmd <? 3)%nat then ret (Err WRONG_ARGS_RESPONSE)
  else
    let* lk := rlockExisting fuel ctx (drop 2 cmd) ∅ in
    let* res :=
      match snd lk with
      | Some early => ret early
      | None =>
          let* order := rangeKeys (fst lk) in
          let* c := collectSets fuel ctx order [] in
          match c with
          | inr e => ret (Err e)
          | inl [] => fatal
          | inl (base :: others) =>
              let union := Union base others in
              let destination := arg cmd 1 in
              let* s := get in
              let* r :=
                (if KeyExists destination s then KeyLock fuel ctx destination
                 else CreateKeyAndLock fuel ctx destination) in
              match snd r with
              | Some e => ret (Err e)
              | None =>
                  let* _ := SetValue fuel ctx destination (VSet union) in
                  let* _ := KeyUnlock destination in
                  ret (Reply (":" ++ Fmt.d (Cardinality union) ++ CRLF ++ CRLF))
              end
          end
      end in
    let* order := rangeKeys (fst lk) in
    let* _ := runlockKeys order in
    ret res.

End Union.

End SetMore.

(** The lock [m] with [n] more readers, and with one reader less. *)
Definition moreReaders (n : nat) (m : RWMutex.t) : RWMutex.t :=
  RWMutex.mk (RWMutex.writer m) (RWMutex.readers m + n).

Definition oneReaderLess (m : RWMutex.t) : RWMutex.t :=
  RWMutex.mk (RWMutex.writer m) (RWMutex.readers m - 1).

(** How often [key] is named in [keys]. *)
Definition occurrences (key : string) (keys : list string) : nat :=
  length (List.filter (String.eqb key) keys).

(** ** [src/acl/acl.go], building the first ACL *)

Module AclSetup.

Import AclStub.

(** The fields of [utils.Config] that [NewACL] reads. *)
Record Settings := mkSettings {
  RequirePass : bool;
  Password : string;
  AclConfig : string
}.

(** [strings.Split(password, "")[0] == "#"]: the first character of the
    password is compared with the number sign, a character of one byte.  The
    empty password splits into nothing, and the index panics. *)
Definition GetPasswordType (password : string) : option string :=
  match password with
  | EmptyString => None
  | String c _ => Some (if Ascii.eqb c "#" then "SHA256" else "plaintext")
  end.

(** [User{}] *)
Definition noUser : User := mkUser "" false [] [] [] [] [] [] [] [] [] [] [].

(** [NormaliseUser] is a placeholder: it returns the empty user. *)
Definition NormaliseUser (user : User) : User := noUser.

Definition MergeUser (base target : User) : User * error :=
  if negb (String.eqb (Username base) (Username target)) then
    (noUser,
     Some ("cannot merge user with username " ++ Username base
           ++ " to user with username " ++ Username target))
  else
    let result :=
      mkUser (Username base) (Enabled target)
             (Passwords base ++ Passwords target)
             (IncludedCategories base ++ IncludedCategories target)
             (ExcludedCategories base ++ ExcludedCategories target)
             (IncludedCommands base ++ IncludedCommands target)
             (ExcludedCommands base ++ ExcludedCommands target)
             (IncludedKeys base) (ExcludedKeys base)
             (IncludedReadKeys base ++ IncludedReadKeys target)
             (IncludedWriteKeys base ++ IncludedWriteKeys target)
             (IncludedPubSubChannels base ++ IncludedPubSubChannels target)
             (ExcludedPubSubChannels base ++ ExcludedPubSubChannels target) in
    (NormaliseUser result, None).

(** Step 3 of [NewACL]: a loaded user named default is replaced by its merge
    with the default user that was created. *)
Definition mergeDefault (defaultUser user : User) : User :=
  if String.eqb (Username user) "default" then
    match MergeUser defaultUser user with
    | (_, Some _) => user
    | (u, None) => u
    end
  else user.

(** [NewACL].  [file] is what the decoder reads from the file that
    [AclConfig] names: the users, or [None] when the file cannot be opened or
    decoded and the process ends.  A file that is neither JSON nor YAML gives
    no users.  [None] as result is the end of the process. *)
Definition NewACL (config : Settings) (file : option (list User)) : option ACL :=
  defaultUser ←
    (if RequirePass config then
       passwordType ← GetPasswordType (Password config);
       Some (mkUser "default" true [mkPassword passwordType (Password config)]
                    ["*"] [] ["*"] [] ["*"] [] ["*"] ["*"] ["*"] [])
     else Some (CreateUser "default" true));
  users ← (if String.eqb (AclConfig config) "" then Some [] else file);
  Some (mkACL (map (mergeDefault defaultUser) users) ∅ (RequirePass config)).

End AclSetup.

(** ** [bytes.Trim] and [bytes.TrimLeft] with a cutset of one ASCII byte *)

Module Bytes.

Definition NUL : ascii := Ascii.zero.

Fixpoint TrimLeft (s : list ascii) (c : ascii) : list ascii :=
  match s with
  | [] => []
  | x :: r => if Ascii.eqb x c then TrimLeft r c else s
  end.

Definition TrimRight (s : list ascii) (c : ascii) : list ascii :=
  reverse (TrimLeft (reverse s) c).

Definition Trim (s : list ascii) (c : ascii) : list ascii := TrimLeft (TrimRight s c) c.

End Bytes.

(** ** [internal/utils.go]: [ReadMessage] *)

Module Wire.

Inductive IOError := EOF | Failure (msg : string).

(** What the [i]-th call of [Read] on the connection delivers: the bytes, and
    the error returned with them.  A reader delivers at most the bytes it is
    asked for and writes nothing else into the slice it is given.  The
    [bufio.Reader] that [ReadMessage] puts around the connection hands a read
    of 8192 bytes, twice its buffer, straight to the connection. *)
Definition Reader := nat -> list ascii * option IOError.

Definition chunkLen : nat := 8 * 1024.

(** The chunk after a read: it was all zero before. *)
Definition filled (data : list ascii) : list ascii :=
  take chunkLen (data ++ replicate chunkLen Bytes.NUL).

(** The loop of [ReadMessage]; [calls] reads were made before, [None] is a
    loop that has not ended when the fuel has. *)
Fixpoint readLoop (fuel : nat) (r : Reader) (calls : nat) (res : list ascii)
  : option (list ascii + IOError) :=
  match fuel with
  | 0 => None
  | S fuel' =>
      let '(data, err) := r calls in
      match err with
      | Some EOF => Some (inl res)
      | Some e => Some (inr e)
      | None =>
          let res' := (res ++ filled data)%list in
          if (length data <? chunkLen)%nat then Some (inl res')
          else readLoop fuel' r (S calls) res'
      end
  end.

(** [ReadMessage]: the message and a nil error, or the error. *)
Definition ReadMessage (fuel : nat) (r : Reader) : option (list ascii + IOError) :=
  match readLoop fuel r 0 [] with
  | Some (inl res) => Some (inl (Bytes.Trim res Bytes.NUL))
  | other => other
  end.

(** *** [handleConnection]: writing the response

    A call of [Write] on the connection, by the slice it was passed and the
    number of bytes it reports as written. *)
Record Written := mkWritten {
  passed : list ascii;
  taken : nat
}.

(** What the [i]-th call of [Write] reports for the slice it is passed. *)
Definition Writer := nat -> list ascii -> nat.

Inductive sent :=
| Sent (log : list Written)
| Panic
| NoFuel.

Definition chunkSize : nat := 1024.

(** The loop that sends a large response.  A slice expression panics when
    its bounds are out of range. *)
Fixpoint sendChunks (fuel : nat) (w : Writer) (res : list ascii) (startIndex : nat)
  (log : list Written) : sent :=
  match fuel with
  | 0 => NoFuel
  | S fuel' =>
      if (Z.of_nat (length res) - 1 - Z.of_nat startIndex <? Z.of_nat chunkSize)%Z then
        if (length res <? startIndex)%nat then Panic
        else
          let p := drop startIndex res in
          Sent (log ++ [mkWritten p (w (length log) p)])
      else
        if (length res <? startIndex + chunkSize)%nat then Panic
        else
          let p := take chunkSize (drop startIndex res) in
          let n := w (length log) p in
          if (n <? chunkSize)%nat then Sent (log ++ [mkWritten p n])
          else sendChunks fuel' w res (startIndex + chunkSize) (log ++ [mkWritten p n])
  end.

(** The part of [handleConnection] that writes the response [res] of a
    command. *)
Definition writeResponse (fuel : nat) (w : Writer) (res : list ascii) : sent :=
  if (length res =? 0)%nat then Sent []
  else if (length res <=? chunkSize)%nat then Sent [mkWritten res (w 0 res)]
  else sendChunks fuel w res 0 [].

(** Writes that passed a full chunk each, which was taken whole. *)
Definition fullWrites (log : list Written) : Prop :=
  Forall (fun x => length (passed x) = chunkSize /\ (chunkSize <= taken x)%nat) log.

End Wire.

(** ** [bufio.Reader.ReadLine]

    The reader of the Go standard library that [Restore] reads the log with,
    after its source, for the default buffer of 4096 bytes.  The underlying
    reader delivers the bytes [data] and from then on returns the error
    [ending] at every read, [io.EOF] or another error. *)

Module Bufio.

Definition CR : ascii := ascii_of_nat 13.
Definition LF : ascii := ascii_of_nat 10.

Definition defaultBufSize : nat := 4 * 1024.

(** The bytes before the first line feed among the first [n] bytes, and the
    bytes after it. *)
Fixpoint splitLF (n : nat) (data : list ascii) : option (list ascii * list ascii) :=
  match n, data with
  | S n', c :: r =>
      if Ascii.eqb c LF then Some ([], r)
      else match splitLF n' r with
           | Some (l, rest) => Some (c :: l, rest)
           | None => None
           end
  | _, _ => None
  end.

(** A line without the carriage return that ended it. *)
Definition dropCR (line : list ascii) : list ascii :=
  match reverse line with
  | c :: r => if Ascii.eqb c CR then reverse r else line
  | [] => line
  end.

(** [ReadLine]: the line, [isPrefix], and the bytes left, or the error.  A
    line that does not end within the buffer is returned in pieces, and a
    carriage return at the end of a piece is kept for the next call.  The
    bytes that come before the error of the underlying reader, without a
    line feed, are returned as a line and with no error: the error is
    returned by the call after. *)
Definition ReadLine (data : list ascii) (ending : Wire.IOError)
  : (list ascii * bool * list ascii) + Wire.IOError :=
  match data with
  | [] => inr ending
  | _ =>
      match splitLF defaultBufSize data with
      | Some (l, rest) => inl (dropCR l, false, rest)
      | None =>
          if (length data <? defaultBufSize)%nat then inl (data, false, [])
          else
            match last (take defaultBufSize data) with
            | Some c =>
                if Ascii.eqb c CR
                then inl (take (defaultBufSize - 1) data, true,
                          drop (defaultBufSize - 1) data)
                else inl (take defaultBufSize data, true, drop defaultBufSize data)
            | None => inl (take defaultBufSize data, true, drop defaultBufSize data)
            end
      end
  end.

End Bufio.

(** ** The append-only log, [AppendStore] *)

Module Aof.

Import Bufio.

(** An [AppendReadWriter].  What its calls return is its own affair:
    [onWrite i p] is what the [i]-th call of [Write] returns for the slice
    [p], the number of bytes it took and the error, and [onSync i] is the
    error of the [i]-th call of [Sync].  A reader over it gets the bytes
    [toRead] and then the error [readEnd]. *)
Record ReadWriter := mkReadWriter {
  toRead : list ascii;
  readEnd : Wire.IOError;
  written : list ascii;
  writes : nat;
  syncs : nat;
  onWrite : nat -> list ascii -> nat * error;
  onSync : nat -> error
}.

(** The [ReadWriter] after a call of [Write] that took [bytes], after a
    call of [Sync], and after a reader has read it to its end. *)
Definition wrote (bytes : list ascii) (f : ReadWriter) : ReadWriter :=
  mkReadWriter (toRead f) (readEnd f) (written f ++ bytes) (S (writes f)) (syncs f)
               (onWrite f) (onSync f).

Definition synced (f : ReadWriter) : ReadWriter :=
  mkReadWriter (toRead f) (readEnd f) (written f) (writes f) (S (syncs f))
               (onWrite f) (onSync f).

Definition drained (f : ReadWriter) : ReadWriter :=
  mkReadWriter [] (readEnd f) (written f) (writes f) (syncs f) (onWrite f) (onSync f).

(** The store: [mut] is [true] while the mutex is held; [handled] are the
    commands that were passed to [handleCommand], in order. *)
Record AppendStore := mkAppendStore {
  strategy : string;
  mut : bool;
  rw : option ReadWriter;
  handled : list (list ascii)
}.

Definition set_mut (b : bool) (st : AppendStore) : AppendStore :=
  mkAppendStore (strategy st) b (rw st) (handled st).

Definition set_rw (f : ReadWriter) (st : AppendStore) : AppendStore :=
  mkAppendStore (strategy st) (mut st) (Some f) (handled st).

Definition add_handled (commands : list (list ascii)) (st : AppendStore) : AppendStore :=
  mkAppendStore (strategy st) (mut st) (rw st) (handled st ++ commands).

(** What a call does: it returns, it panics, it waits for the mutex for
    ever, or the fuel of a loop is used up. *)
Inductive run (A : Type) :=
| Done (a : A) (st : AppendStore)
| Panicked
| Blocked
| NoFuel.

Arguments Done {A} a st.
Arguments Panicked {A}.
Arguments Blocked {A}.
Arguments NoFuel {A}.

Definition Op (A : Type) := AppendStore -> run A.

Definition andThen {A B} (m : Op A) (k : A -> Op B) : Op B :=
  fun st =>
    match m st with
    | Done a st' => k a st'
    | Panicked => Panicked
    | Blocked => Blocked
    | NoFuel => NoFuel
    end.

(** [store.mut.Lock()]: a mutex is not reentrant. *)
Definition Lock : Op unit :=
  fun st => if mut st then Blocked else Done tt (set_mut true st).

Definition Unlock : Op unit :=
  fun st => if mut st then Done tt (set_mut false st) else Panicked.

(** [store.mut.Lock(); defer store.mut.Unlock(); body] *)
Definition locked {A} (body : Op A) : Op A :=
  andThen Lock (fun _ => andThen body (fun a => andThen Unlock (fun _ => Done a))).

Definition Sync : Op error :=
  locked (fun st =>
            match rw st with
            | Some f => Done (onSync f (syncs f)) (set_rw (synced f) st)
            | None => Done None st
            end).

Definition CRLF : list ascii := [CR; LF].

Definition Write (command : list ascii) : Op error :=
  locked (fun st =>
            match rw st with
            | None => Done None st
            | Some f =>
                let out := (command ++ CRLF)%list in
                let '(n, err) := onWrite f (writes f) out in
                let st' := set_rw (wrote (take n out) f) st in
                match err with
                | Some e => Done (Some e) st'
                | None =>
                    if Strings.EqualFold (strategy st) "always" then
                      andThen Sync (fun err =>
                                      match err with
                                      | Some e => Done (Some e)
                                      | None => Done None
                                      end) st'
                    else Done None st'
                end
            end).

(** The loop of [Restore] over the lines of the log: the commands, or the
    error of the reader other than [io.EOF]. *)
Fixpoint restoreLoop (fuel : nat) (data : list ascii) (ending : Wire.IOError)
  (line : list ascii) (commands : list (list ascii)) : option (list (list ascii) + string) :=
  match fuel with
  | 0 => None
  | S fuel' =>
      match ReadLine data ending with
      | inr Wire.EOF => Some (inl commands)
      | inr (Wire.Failure e) => Some (inr e)
      | inl (b, _, rest) =>
          if (length b <=? 0)%nat then
            restoreLoop fuel' rest ending [] (commands ++ [line ++ CRLF ++ CRLF])%list
          else if (0 <? length line)%nat then
            restoreLoop fuel' rest ending
                        (line ++ CRLF ++ Bytes.TrimLeft b Bytes.NUL)%list commands
          else
            restoreLoop fuel' rest ending (line ++ Bytes.TrimLeft b Bytes.NUL)%list commands
      end
  end.

(** [Restore]: a reader around no [ReadWriter] panics at its first read; an
    error of the reader is returned before any command is handled. *)
Definition Restore (fuel : nat) : Op error :=
  locked (fun st =>
            match rw st with
            | None => Panicked
            | Some f =>
                match restoreLoop fuel (toRead f) (readEnd f) [] [] with
                | None => NoFuel
                | Some (inr e) => Done (Some e) (set_rw (drained f) st)
                | Some (inl commands) =>
                    Done None (add_handled commands (set_rw (drained f) st))
                end
            end).

(** [Write] for each command of a list, as long as no error is returned. *)
Fixpoint WriteAll (commands : list (list ascii)) : Op error :=
  match commands with
  | [] => Done None
  | c :: rest =>
      andThen (Write c) (fun err =>
                           match err with
                           | Some e => Done (Some e)
                           | None => WriteAll rest
                           end)
  end.

End Aof.

(** A token that the log gives back: it is not empty, holds no line feed,
    does not begin with a zero byte, and its line fits the buffer of the
    reader. *)
Definition plainToken (token : string) : Prop :=
  let bytes := list_ascii_of_string token in
  bytes <> [] /\ (Bufio.LF ∉ bytes) /\ head bytes <> Some Bytes.NUL
  /\ (length bytes + 2 <= Bufio.defaultBufSize)%nat.

(** The same for a line of the log. *)
Definition plainLine (l : list ascii) : Prop :=
  l <> [] /\ (Bufio.LF ∉ l) /\ head l <> Some Bytes.NUL
  /\ (length l + 2 <= Bufio.defaultBufSize)%nat.

(** The line that [Restore] holds after it has read the line [b]. *)
Definition addLine (line b : list ascii) : list ascii :=
  if (0 <? length line)%nat then (line ++ Aof.CRLF ++ b)%list else (line ++ b)%list.

(** The lines of an encoded command. *)
Definition cmdLines (cmd : list string) : list (list ascii) :=
  ("*"%char :: Fmt.digits (N.of_nat (length cmd)))
  :: flat_map (fun token => ["$"%char :: Fmt.digits (N.of_nat (String.length token));
                             list_ascii_of_string token]) cmd.

(** What [Write] appends for the command [cmd] as [EncodeCommand] encodes
    it. *)
Definition logged (cmd : list string) : list ascii :=
  (list_ascii_of_string (Internal.EncodeCommand cmd) ++ Aof.CRLF)%list.

(** The [ReadWriter] after [n] writes that took [bytes] in all. *)
Definition wroteAll (n : nat) (bytes : list ascii) (f : Aof.ReadWriter) : Aof.ReadWriter :=
  Aof.mkReadWriter (Aof.toRead f) (Aof.readEnd f) (Aof.written f ++ bytes) (n + Aof.writes f)
                   (Aof.syncs f) (Aof.onWrite f) (Aof.onSync f).

Module Samples3.

(** A [ReadWriter] that takes every write and never fails, over the bytes
    [data] to read. *)
Definition file (data : list ascii) : Aof.ReadWriter :=
  Aof.mkReadWriter data Wire.EOF [] 0 0 (fun _ p => (length p, None)) (fun _ => None).

(** One whose disk is full: no write takes a byte. *)
Definition fullDisk : Aof.ReadWriter :=
  Aof.mkReadWriter [] Wire.EOF [] 0 0 (fun _ _ => (0%nat, Some "no space left on device"))
                   (fun _ => None).

End Samples3.

(** * Properties *)

(** ** Running the monad *)

Lemma bind_Ret {A B} (m : M A) (k : A -> M B) s b s' :
  bind m k s = Ret b s' -> exists a s1, m s = Ret a s1 /\ k a s1 = Ret b s'.
Proof.
  unfold bind. destruct (m s) as [a s1| |]; [eauto | discriminate | discriminate].
Qed.

Lemma bind_eq {A B} (m : M A) (k : A -> M B) s a s1 :
  m s = Ret a s1 -> bind m k s = k a s1.
Proof. unfold bind. intros ->. reflexivity. Qed.

Lemma liftRt_Ret {A} (f : Runtime -> A * Runtime) s :
  liftRt f s = Ret (fst (f (rt s))) (set_rt (fun _ => snd (f (rt s))) s).
Proof. unfold liftRt. destruct (f (rt s)); reflexivity. Qed.

Lemma same_keys_refl s : same_keys s s.
Proof. repeat split. Qed.

Lemma same_keys_trans s1 s2 s3 : same_keys s1 s2 -> same_keys s2 s3 -> same_keys s1 s3.
Proof.
  intros (a & b & c & d) (a' & b' & c' & d'). repeat split; congruence.
Qed.

#[local] Hint Resolve same_keys_refl : core.

(** ** C10: unlocking a key that is not there *)

(** C10.  For a key with no entry in the lock map, [KeyUnlock] and
    [KeyRUnlock] return at once, without a fatal error, and the server, its
    lock map and store included, is as before. *)
Theorem unlock_absent_key_noop (key : string) (s : Server) :
  keyLocks s !! key = None ->
  KeyUnlock key s = Ret tt s /\ KeyRUnlock key s = Ret tt s.
Proof.
  intros H. unfold KeyUnlock, KeyRUnlock, bind, get, KeyExists.
  rewrite H. split; reflexivity.
Qed.

Lemma unlock_absent_key_noop_witness :
  KeyUnlock "missing" Ex.s0 = Ret tt Ex.s0 /\ KeyRUnlock "missing" Ex.s0 = Ret tt Ex.s0.
Proof. apply (unlock_absent_key_noop "missing" Ex.s0). reflexivity. Defined.

(** ** Locks *)

Lemma TryLock_Some m m' :
  RWMutex.TryLock m = Some m' -> RWMutex.held m = false /\ m' = RWMutex.mk true 0.
Proof.
  unfold RWMutex.TryLock, RWMutex.held. destruct m as [w r]; simpl.
  destruct w; simpl; [discriminate|]. destruct r; simpl; [|discriminate].
  intros [= <-]. split; reflexivity.
Qed.

Lemma TryLock_held m : RWMutex.held m = true -> RWMutex.TryLock m = None.
Proof.
  unfold RWMutex.TryLock, RWMutex.held. destruct m as [w r]; simpl.
  destruct w; simpl; [reflexivity|]. destruct r; simpl; [discriminate|reflexivity].
Qed.

(** What a returning [KeyLock] has done: nothing to the keyspace when it
    reports an error, and the write lock taken on a free key otherwise. *)
Lemma KeyLock_inv fuel ctx key : forall s r s',
  KeyLock fuel ctx key s = Ret r s' ->
  (exists e, r = (false, Some e) /\ same_keys s s')
  \/ (r = (true, None) /\ exists m,
        keyLocks s !! key = Some m /\ RWMutex.held m = false
        /\ config s' = config s /\ store s' = store s /\ keyExpiry s' = keyExpiry s
        /\ keyLocks s' = <[key := RWMutex.mk true 0]> (keyLocks s)).
Proof.
  induction fuel as [|f IH]; intros s r s' H; simpl in H; [discriminate|].
  unfold bind, get in H. simpl in H.
  destruct (ctx_done ctx (rt s)).
  { injection H as <- <-. left. eauto. }
  destruct (keyLocks s !! key) as [m|] eqn:Hm.
  2:{ injection H as <- <-. left. eauto. }
  destruct (RWMutex.TryLock m) as [m'|] eqn:Ht.
  - apply TryLock_Some in Ht as [Hfree ->].
    unfold modify, ret in H. injection H as <- <-. right. split; [reflexivity|].
    exists m. repeat split; first [assumption | reflexivity].
  - unfold modify in H. apply IH in H. simpl in H.
    destruct H as [(e & -> & Hk)|(-> & m0 & H1 & H2 & H3 & H4 & H5 & H6)].
    + left. exists e. split; [reflexivity|]. exact Hk.
    + right. split; [reflexivity|]. exists m0. repeat split; first [assumption | congruence].
Qed.

(** A lock that is held is never taken by [KeyLock]. *)
Lemma KeyLock_locked fuel ctx key s r s' :
  locked key s -> KeyLock fuel ctx key s = Ret r s' ->
  exists e, r = (false, Some e) /\ same_keys s s'.
Proof.
  intros (m & Hm & Hheld) H. apply KeyLock_inv in H as [H|(_ & m0 & Hm0 & Hfree & _)].
  - exact H.
  - rewrite Hm in Hm0. injection Hm0 as <-. congruence.
Qed.

(** ** Memory adjustment only evicts keys whose lock is free *)

Lemma evolves_refl s : evolves s s.
Proof. split; [reflexivity|]. intros k. left. repeat split. Qed.

Lemma same_keys_evolves s s' : same_keys s s' -> evolves s s'.
Proof.
  intros (a & b & c & d). split; [assumption|]. intros k. left.
  unfold untouched. rewrite b, c, d. repeat split.
Qed.

Lemma evolves_trans s1 s2 s3 : evolves s1 s2 -> evolves s2 s3 -> evolves s1 s3.
Proof.
  intros [Hc H12] [Hc' H23]. split; [congruence|]. intros k.
  destruct (H12 k) as [(a & b & c)|(Hfree & a & b & c)];
    destruct (H23 k) as [(a' & b' & c')|((m & Hm & Hf) & a' & b' & c')].
  - left. repeat split; congruence.
  - right. split; [|repeat split; assumption].
    exists m. split; [congruence | assumption].
  - right. split; [assumption|]. repeat split; congruence.
  - congruence.
Qed.

Lemma evictVictim_evolves fuel ctx wrap key s r s' :
  evictVictim fuel ctx wrap key s = Ret r s' -> evolves s s'.
Proof.
  unfold evictVictim. intros H.
  apply bind_Ret in H as ([b e] & s1 & Hlock & H). simpl in H.
  apply KeyLock_inv in Hlock as [(e0 & [= -> ->] & Hk)|([= -> ->] & m & Hm & Hfree & Hc & Hs & He & Hl)].
  - unfold ret in H. injection H as _ <-. apply same_keys_evolves, Hk.
  - assert (Hs' : forall s0, config s0 = config s1 -> store s0 = delete key (store s1) ->
        keyLocks s0 = delete key (keyLocks s1) -> keyExpiry s0 = delete key (keyExpiry s1) ->
        evolves s s0).
    { intros s0 E1 E2 E3 E4. split; [congruence|]. intros k. unfold untouched, evicted.
      rewrite E2, E3, E4. destruct (decide (k = key)) as [->|Hne].
      - right. split; [eauto|]. rewrite !lookup_delete_eq. repeat split.
      - left. rewrite !lookup_delete_ne by congruence.
        rewrite Hs, He, Hl. rewrite lookup_insert_ne by congruence. repeat split. }
    unfold bind, modify, get in H. simpl in H.
    match type of H with
    | (if ?c then _ else _) _ = _ => destruct c
    end; unfold ret in H; injection H as _ <-; apply Hs'; reflexivity.
Qed.

(** The victim of a round that deleted it is gone: value, lock and expiry. *)
Lemma evictVictim_deletes fuel ctx wrap key s r s' :
  evictVictim fuel ctx wrap key s = Ret r s' ->
  (forall e, r <> Some (Some e)) ->
  KeyExists key s' = false /\ store s' !! key = None /\ keyExpiry s' !! key = None.
Proof.
  unfold evictVictim. intros H Hr.
  apply bind_Ret in H as ([b e] & s1 & Hlock & H). simpl in H.
  destruct e as [e|].
  { unfold ret in H. injection H as <- _. exfalso. eapply Hr. reflexivity. }
  unfold bind, modify, get in H. simpl in H.
  match type of H with
  | (if ?c then _ else _) _ = _ => destruct c
  end; unfold ret in H; injection H as _ <-; unfold KeyExists; simpl;
    rewrite !lookup_delete_eq; repeat split.
Qed.

Lemma pickLFU_only : picks_only pickLFU.
Proof.
  intros s v s' H. unfold pickLFU, bind, get in H. simpl in H.
  destruct (CacheLFU.Len (lfuCache s) =? 0)%nat.
  - injection H as _ <-. apply same_keys_refl.
  - destruct (CacheLFU.Pop (lfuCache s)) as [[k c]|]; [|discriminate].
    unfold modify, ret in H. injection H as _ <-. repeat split.
Qed.

Lemma pickLRU_only : picks_only pickLRU.
Proof.
  intros s v s' H. unfold pickLRU, bind, get in H. simpl in H.
  destruct (CacheLRU.Len (lruCache s) =? 0)%nat.
  - injection H as _ <-. apply same_keys_refl.
  - destruct (CacheLRU.Pop (lruCache s)) as [[k c]|]; [|discriminate].
    unfold modify, ret in H. injection H as _ <-. repeat split.
Qed.

Lemma pickRandom_only {V} (m : Server -> gmap string V) msg : picks_only (pickRandom m msg).
Proof.
  intros s v s' H. unfold pickRandom, bind, get in H. simpl in H.
  destruct (size (m s) =? 0)%nat.
  - injection H as _ <-. apply same_keys_refl.
  - destruct (rangeOrder (rt s) (elements (dom (m s))) !! _); [|discriminate].
    unfold ret in H. injection H as _ <-. repeat split.
Qed.

Lemma evictLoop_evolves pick wrap ctx :
  picks_only pick ->
  forall fuel s r s', evictLoop fuel ctx pick wrap s = Ret r s' -> evolves s s'.
Proof.
  intros Hpick. induction fuel as [|f IH]; intros s r s' H; simpl in H; [discriminate|].
  apply bind_Ret in H as (v & s1 & Hp & H). apply Hpick in Hp.
  apply same_keys_evolves in Hp.
  destruct v as [e|key].
  - unfold ret in H. injection H as _ <-. exact Hp.
  - apply bind_Ret in H as (o & s2 & Hv & H). apply evictVictim_evolves in Hv.
    pose proof (evolves_trans _ _ _ Hp Hv) as H12.
    destruct o as [res|].
    + unfold ret in H. injection H as _ <-. exact H12.
    + apply IH in H. eapply evolves_trans; eassumption.
Qed.

Lemma Mutex_locked_Ret {A} n (body : M A) s a s' :
  Mutex.locked n body s = Ret a s' ->
  Mutex.held n (mutexes s) = false /\
  exists s2, body (set_mutexes (Mutex.put n true) s) = Ret a s2
             /\ s' = set_mutexes (Mutex.put n false) s2.
Proof.
  unfold Mutex.locked, Mutex.Lock, Mutex.Unlock. intros H.
  apply bind_Ret in H as ([] & s1 & Hl & H).
  unfold bind, get in Hl. simpl in Hl.
  destruct (Mutex.held n (mutexes s)); [discriminate|].
  unfold modify in Hl. injection Hl as <-. split; [reflexivity|].
  apply bind_Ret in H as (a' & s2 & Hb & H).
  apply bind_Ret in H as ([] & s3 & Hu & H).
  unfold ret in H. injection H as <- <-.
  unfold bind, get in Hu. simpl in Hu.
  destruct (Mutex.held n (mutexes s2)); [|discriminate].
  unfold modify in Hu. injection Hu as <-. eauto.
Qed.

Lemma Mutex_locked_evolves {A} n (body : M A) :
  (forall s a s', body s = Ret a s' -> evolves s s') ->
  forall s a s', Mutex.locked n body s = Ret a s' -> evolves s s'.
Proof.
  intros Hb s a s' H. apply Mutex_locked_Ret in H as (_ & s2 & H & ->).
  apply Hb in H. destruct H as [Hc Hk]. split; [exact Hc|exact Hk].
Qed.

Lemma adjustMemoryUsage_evolves fuel ctx s r s' :
  adjustMemoryUsage fuel ctx s = Ret r s' -> evolves s s'.
Proof.
  unfold adjustMemoryUsage. intros H. unfold bind at 1, get in H.
  destruct (MaxMemory (config s) =? 0)%N.
  { unfold ret in H. injection H as _ <-. apply evolves_refl. }
  rewrite (bind_eq _ _ _ _ _ (liftRt_Ret ReadMemStats s)) in H.
  match type of H with (if ?c then _ else _) _ = _ => destruct c end.
  { unfold ret in H. injection H as _ <-. apply same_keys_evolves. repeat split. }
  unfold bind at 1, modify in H.
  rewrite (bind_eq _ _ _ _ _ (liftRt_Ret ReadMemStats _)) in H.
  match type of H with (if ?c then _ else _) _ = _ => destruct c end.
  { unfold ret in H. injection H as _ <-. apply same_keys_evolves. repeat split. }
  set (s2 := set_rt _ _) in H.
  assert (H02 : evolves s s2) by (apply same_keys_evolves; repeat split).
  repeat match type of H with (if ?c then _ else _) _ = _ => destruct c end.
  - eapply evolves_trans; [exact H02|].
    eapply Mutex_locked_evolves; [|exact H]. apply evictLoop_evolves, pickLFU_only.
  - eapply evolves_trans; [exact H02|].
    eapply Mutex_locked_evolves; [|exact H]. apply evictLoop_evolves, pickLRU_only.
  - eapply evolves_trans; [exact H02|].
    eapply evictLoop_evolves; [|exact H]. apply pickRandom_only.
  - eapply evolves_trans; [exact H02|].
    eapply evictLoop_evolves; [|exact H]. apply pickRandom_only.
  - unfold ret in H. injection H as _ <-. exact H02.
Qed.

Lemma updateKeyInCache_evolves fuel ctx key s r s' :
  updateKeyInCache fuel ctx key s = Ret r s' -> evolves s s'.
Proof.
  unfold updateKeyInCache. intros H. unfold bind at 1, get in H.
  destruct (MaxMemory (config s) =? 0)%N.
  { unfold ret in H. injection H as _ <-. apply evolves_refl. }
  assert (Hrest : forall s0 r0 s0',
    (let* err := adjustMemoryUsage fuel ctx in
     match err with
     | Some e => ret (Some ("updateKeyInCache: " ++ e))
     | None => ret None
     end) s0 = Ret r0 s0' -> evolves s0 s0').
  { intros s0 r0 s0' H0. apply bind_Ret in H0 as (e & s1 & Ha & H0).
    apply adjustMemoryUsage_evolves in Ha.
    destruct e; unfold ret in H0; injection H0 as _ <-; exact Ha. }
  assert (Hupd : forall (u : M unit),
    (forall s0 x s1, u s0 = Ret x s1 -> same_keys s0 s1) ->
    forall s0 r0 s0',
    (let* _ := u in
     let* err := adjustMemoryUsage fuel ctx in
     match err with
     | Some e => ret (Some ("updateKeyInCache: " ++ e))
     | None => ret None
     end) s0 = Ret r0 s0' -> evolves s0 s0').
  { intros u Hu s0 r0 s0' H0. apply bind_Ret in H0 as (x & s1 & Hx & H0).
    apply Hu in Hx. apply Hrest in H0.
    eapply evolves_trans; [apply same_keys_evolves|]; eassumption. }
  assert (Hmod : forall f, (forall s0, same_keys s0 (f s0)) ->
    forall s0 x s1, modify f s0 = Ret x s1 -> same_keys s0 s1).
  { intros f Hf s0 x s1 Hm. unfold modify in Hm. injection Hm as _ <-. apply Hf. }
  destruct (is_Some_b (keyExpiry s !! key));
  repeat match type of H with (if ?c then _ else _) _ = _ => destruct c end;
    try (eapply Mutex_locked_evolves; [|exact H]; apply Hupd;
         first [ apply Hmod; intros; repeat split
               | intros s0 x s1 Hr; unfold ret in Hr; injection Hr as _ <-;
                 apply same_keys_refl ]).
  all: eapply Hrest, H.
Qed.

(** ** C3: out of memory under [noeviction] *)

Lemma IsMaxMemoryExceeded_true max r :
  (0 < max)%N ->
  (max <= heapInuse r (memReads r))%N ->
  (max <= heapInuse r (S (memReads r)))%N ->
  fst (Utils.IsMaxMemoryExceeded max r) = true.
Proof.
  intros H0 H1 H2. unfold Utils.IsMaxMemoryExceeded.
  destruct (N.eqb_spec max 0) as [->|_]; [lia|]. simpl.
  destruct (N.ltb_spec (heapInuse r (memReads r)) max) as [?|_]; [lia|]. simpl.
  apply N.leb_le. exact H2.
Qed.

(** C3.  With a memory limit set, the heap at or above it before and after
    the forced collection, and the [noeviction] policy, [CreateKeyAndLock]
    returns its error without creating the key and [SetValue] returns its
    error without storing the value: nothing but the runtime's count of heap
    readings differs in the server. *)
Theorem out_of_memory_noeviction fuel ctx key value s :
  (0 < MaxMemory (config s))%N ->
  (MaxMemory (config s) <= heapInuse (rt s) (memReads (rt s)))%N ->
  (MaxMemory (config s) <= heapInuse (rt s) (S (memReads (rt s))))%N ->
  EvictionPolicy (config s) = Utils.NoEviction ->
  (exists s1,
     CreateKeyAndLock fuel ctx key s
       = Ret (false, Some "max memory reached, key not created") s1
     /\ only_runtime s s1 /\ KeyExists key s1 = KeyExists key s)
  /\ (exists s2,
        SetValue fuel ctx key value s = Ret (Some "max memory reached, key value not set") s2
        /\ only_runtime s s2 /\ store s2 = store s).
Proof.
  intros H0 H1 H2 Hp.
  pose proof (IsMaxMemoryExceeded_true _ _ H0 H1 H2) as Hex.
  split.
  - unfold CreateKeyAndLock, bind at 1, get.
    rewrite (bind_eq _ _ _ _ _ (liftRt_Ret _ s)), Hex, Hp. simpl.
    eexists. split; [reflexivity|]. split; [eexists; reflexivity|reflexivity].
  - unfold SetValue, bind at 1, get.
    rewrite (bind_eq _ _ _ _ _ (liftRt_Ret _ s)), Hex, Hp. simpl.
    eexists. split; [reflexivity|]. split; [eexists; reflexivity|reflexivity].
Qed.

Lemma out_of_memory_noeviction_witness :
  exists s1,
    CreateKeyAndLock 1 Background "k" (Ex.pressed Utils.NoEviction)
      = Ret (false, Some "max memory reached, key not created") s1
    /\ only_runtime (Ex.pressed Utils.NoEviction) s1.
Proof.
  destruct (out_of_memory_noeviction 1 Background "k" (VString "w")
              (Ex.pressed Utils.NoEviction)) as [(s1 & H & Ho & _) _].
  - reflexivity.
  - vm_compute. discriminate.
  - vm_compute. discriminate.
  - reflexivity.
  - exists s1. split; assumption.
Defined.

(** ** C6: memory adjustment under [volatile-ttl] *)

(** C6, as the code has it.  [adjustMemoryUsage] has no case for
    [volatile-ttl]: whatever the heap reads, it returns [nil] and evicts
    nothing; the store, the locks, the expiry map and the caches are as
    before. *)
Theorem volatile_ttl_evicts_nothing fuel ctx s :
  Strings.ToLower (EvictionPolicy (config s)) = Utils.VolatileTTL ->
  exists s', adjustMemoryUsage fuel ctx s = Ret None s' /\ only_runtime s s'.
Proof.
  intros Hp. unfold adjustMemoryUsage, bind at 1, get.
  destruct (MaxMemory (config s) =? 0)%N.
  { exists s. split; [reflexivity|]. exists (rt s). destruct s; reflexivity. }
  rewrite (bind_eq _ _ _ _ _ (liftRt_Ret ReadMemStats s)).
  match goal with |- context [if ?c then _ else _] => destruct c end.
  { eexists. split; [reflexivity|]. eexists; reflexivity. }
  unfold bind at 1, modify.
  rewrite (bind_eq _ _ _ _ _ (liftRt_Ret ReadMemStats _)).
  match goal with |- context [if ?c then _ else _] => destruct c end.
  { eexists. split; [reflexivity|]. eexists; reflexivity. }
  rewrite Hp. simpl.
  eexists. split; [reflexivity|]. eexists; reflexivity.
Qed.

Lemma volatile_ttl_evicts_nothing_witness :
  exists s', adjustMemoryUsage 5 Background (Ex.pressed Utils.VolatileTTL) = Ret None s'
             /\ only_runtime (Ex.pressed Utils.VolatileTTL) s'.
Proof. apply (volatile_ttl_evicts_nothing 5 Background (Ex.pressed Utils.VolatileTTL)). reflexivity. Defined.

(** C6 as stated fails: under [volatile-ttl], with the heap at twice the
    limit after the collection and a key that carries a TTL and a free lock,
    [adjustMemoryUsage] returns and the key is still there, with its value,
    its lock and its expiry. *)
Lemma volatile_ttl_key_survives :
  exists s',
    adjustMemoryUsage 5 Background (Ex.pressed Utils.VolatileTTL) = Ret None s'
    /\ keyExpiry (Ex.pressed Utils.VolatileTTL) !! "k" = Some 5%Z
    /\ (MaxMemory (config s') <= heapInuse (rt s') (memReads (rt s')))%N
    /\ store s' !! "k" = Some (VString "v")
    /\ KeyExists "k" s' = true
    /\ keyExpiry s' !! "k" = Some 5%Z.
Proof.
  eexists. split; [vm_compute; reflexivity|].
  repeat split; try reflexivity. vm_compute. discriminate.
Qed.

(** ** C8: read your writes *)

Lemma updateKeyInCache_no_limit fuel ctx key s :
  MaxMemory (config s) = 0%N -> updateKeyInCache fuel ctx key s = Ret None s.
Proof. intros H. unfold updateKeyInCache, bind, get. rewrite H. reflexivity. Qed.

Lemma GetValue_no_limit fuel ctx key s :
  MaxMemory (config s) = 0%N -> GetValue fuel ctx key s = Ret (store s !! key) s.
Proof.
  intros H. unfold GetValue.
  rewrite (bind_eq _ _ _ _ _ (updateKeyInCache_no_limit fuel ctx key s H)).
  reflexivity.
Qed.

Lemma evolves_locked key s s' :
  evolves s s' -> locked key s -> untouched key s s'.
Proof.
  intros [_ H] (m & Hm & Hheld). destruct (H key) as [Hu|((m' & Hm' & Hfree) & _)].
  - exact Hu.
  - rewrite Hm in Hm'. injection Hm' as <-. congruence.
Qed.

(** A key that is locked, or any key of a server without memory limit, keeps
    its value through [GetValue]. *)
Lemma GetValue_returns_stored fuel ctx key s r s' :
  locked key s \/ MaxMemory (config s) = 0%N ->
  GetValue fuel ctx key s = Ret r s' -> r = store s !! key.
Proof.
  intros [Hl|Hm] H.
  - unfold GetValue in H. apply bind_Ret in H as (e & s1 & Hu & H).
    unfold bind, get, ret in H. injection H as <- <-.
    apply updateKeyInCache_evolves in Hu.
    destruct (evolves_locked _ _ _ Hu Hl) as (Hs & _). exact Hs.
  - rewrite GetValue_no_limit in H by assumption. injection H as <- _. reflexivity.
Qed.





(** Under [allkeys-lfu] with the heap at the limit after the collection,
    [updateKeyInCache] never returns: it holds the cache mutex when it calls
    [adjustMemoryUsage], which locks the same mutex. *)
Lemma updateKeyInCache_lfu_blocks fuel ctx key s :
  EvictionPolicy (config s) = Utils.AllKeysLFU ->
  (0 < MaxMemory (config s))%N ->
  (MaxMemory (config s) <= heapInuse (rt s) (memReads (rt s)))%N ->
  (MaxMemory (config s) <= heapInuse (rt s) (S (memReads (rt s))))%N ->
  lfuMutex (mutexes s) = false ->
  updateKeyInCache fuel ctx key s = OutOfFuel.
Proof.
  intros Hp H0 H1 H2 Hfree.
  assert (Hnz : (MaxMemory (config s) =? 0)%N = false) by (apply N.eqb_neq; lia).
  apply N.ltb_ge in H1, H2.
  unfold updateKeyInCache, bind at 1, get. rewrite Hnz, Hp.
  change (String.eqb (Strings.ToLower Utils.AllKeysLFU) Utils.AllKeysLFU) with true.
  cbv iota.
  unfold Mutex.locked, Mutex.Lock at 1. unfold bind at 1. unfold bind at 1, get.
  change (Mutex.held Mutex.LFU (mutexes s)) with (lfuMutex (mutexes s)).
  rewrite Hfree. unfold modify at 1. unfold bind at 1. unfold bind at 1. unfold modify at 1.
  unfold bind at 1. unfold adjustMemoryUsage. unfold bind at 1, get.
  cbn [config set_lfuCache set_mutexes]. rewrite Hnz.
  rewrite (bind_eq _ _ _ _ _ (liftRt_Ret ReadMemStats _)).
  cbn [rt set_lfuCache set_mutexes fst snd ReadMemStats].
  rewrite H1. unfold bind at 1, modify at 1.
  rewrite (bind_eq _ _ _ _ _ (liftRt_Ret ReadMemStats _)).
  cbn [rt set_rt set_lfuCache set_mutexes config fst snd ReadMemStats GC memReads heapInuse].
  rewrite H2, Hp.
  change (Strings.Contains [Utils.AllKeysLFU; Utils.VolatileLFU]
            (Strings.ToLower Utils.AllKeysLFU)) with true.
  cbv iota. unfold Mutex.locked, Mutex.Lock, bind, get. reflexivity.
Qed.

(** ** C2: keys whose expiry has passed *)

(** C2 as stated fails: the key ["k"] expired at time 5, it is now 10, and
    [GetValue] still returns its value and [KeyExists] still reports it. *)
Lemma expired_key_is_served :
  keyExpiry Ex.expired !! "k" = Some 5%Z /\ (5 < 10)%Z
  /\ GetValue 1 Background "k" Ex.expired = Ret (Some (VString "v")) Ex.expired
  /\ KeyExists "k" Ex.expired = true.
Proof. repeat split. Qed.

Lemma evolves_gone key s s' :
  evolves s s' -> store s !! key = None -> keyLocks s !! key = None ->
  store s' !! key = None /\ keyLocks s' !! key = None.
Proof.
  intros [_ H] Hs Hl. destruct (H key) as [(a & b & _)|(_ & a & b & _)].
  - split; congruence.
  - split; assumption.
Qed.

(** C2, as the code has it.  [KeyExists] and [GetValue] do not look at the
    expiry: for a key whose expiry is in the past, [KeyExists] reports whether
    the lock map has the key, and [GetValue], called with the key locked (or
    on a server without memory limit), returns what the store holds.  The key
    is observed absent once an eviction round has deleted it: [KeyExists] is
    then false and [GetValue] returns nil. *)
Theorem expiry_not_checked_on_access (now : Time) (key : string) (t : Time) (s : Server) :
  keyExpiry s !! key = Some t -> (t < now)%Z ->
  KeyExists key s = is_Some_b (keyLocks s !! key)
  /\ (locked key s \/ MaxMemory (config s) = 0%N ->
      forall fuel ctx r s', GetValue fuel ctx key s = Ret r s' -> r = store s !! key)
  /\ (MaxMemory (config s) = 0%N ->
      forall fuel ctx, GetValue fuel ctx key s = Ret (store s !! key) s)
  /\ (forall fuel ctx wrap r s1,
        evictVictim fuel ctx wrap key s = Ret r s1 -> (forall e, r <> Some (Some e)) ->
        KeyExists key s1 = false
        /\ forall fuel' ctx' r' s2, GetValue fuel' ctx' key s1 = Ret r' s2 -> r' = None).
Proof.
  intros _ _. split; [|split; [|split]].
  - unfold KeyExists, is_Some_b. destruct (keyLocks s !! key); reflexivity.
  - intros Hpre fuel ctx r s' H. eapply GetValue_returns_stored; eassumption.
  - intros Hm fuel ctx. apply GetValue_no_limit, Hm.
  - intros fuel ctx wrap r s1 H Hr.
    destruct (evictVictim_deletes _ _ _ _ _ _ _ H Hr) as (He & Hs & _).
    split; [exact He|]. intros fuel' ctx' r' s2 Hg.
    unfold GetValue in Hg. apply bind_Ret in Hg as (e & s3 & Hu & Hg).
    unfold bind, get, ret in Hg. injection Hg as <- <-.
    apply updateKeyInCache_evolves in Hu.
    unfold KeyExists in He. destruct (keyLocks s1 !! key) eqn:Hl; [discriminate|].
    apply (evolves_gone key _ _ Hu Hs Hl).
Qed.

Lemma expiry_not_checked_on_access_witness :
  KeyExists "k" Ex.expired = true
  /\ GetValue 1 Background "k" Ex.expired = Ret (Some (VString "v")) Ex.expired.
Proof.
  destruct (expiry_not_checked_on_access 10%Z "k" 5%Z Ex.expired) as (He & _ & Hg & _).
  - reflexivity.
  - reflexivity.
  - split; [exact He|]. apply Hg. reflexivity.
Defined.

(** ** C1: the keyspace invariant *)

Lemma KeyRLock_inv fuel ctx key : forall s r s',
  KeyRLock fuel ctx key s = Ret r s' ->
  same_keys s s'
  \/ exists m m', keyLocks s !! key = Some m
       /\ config s' = config s /\ store s' = store s /\ keyExpiry s' = keyExpiry s
       /\ keyLocks s' = <[key := m']> (keyLocks s).
Proof.
  induction fuel as [|f IH]; intros s r s' H; simpl in H; [discriminate|].
  unfold bind, get in H. simpl in H.
  destruct (ctx_done ctx (rt s)).
  { injection H as _ <-. left. apply same_keys_refl. }
  destruct (keyLocks s !! key) as [m|] eqn:Hm.
  2:{ injection H as _ <-. left. apply same_keys_refl. }
  destruct (RWMutex.TryRLock m) as [m'|] eqn:Ht.
  - unfold modify, ret in H. injection H as _ <-. right.
    exists m, m'. repeat split.
  - unfold modify in H. apply IH in H. simpl in H.
    destruct H as [Hk|(m0 & m0' & H1 & H2 & H3 & H4 & H5)].
    + left. exact Hk.
    + right. exists m0, m0'. repeat split; first [assumption | congruence].
Qed.

Lemma same_keys_keeps s s' : same_keys s s' -> keeps_keys s s'.
Proof.
  intros (a & b & c & d). repeat split; try assumption.
  intros k. unfold KeyExists. rewrite c. trivial.
Qed.

Lemma insert_lock_keeps s s' key m :
  config s' = config s -> store s' = store s -> keyExpiry s' = keyExpiry s ->
  keyLocks s' = <[key := m]> (keyLocks s) -> keeps_keys s s'.
Proof.
  intros a b c d. repeat split; try assumption.
  intros k. unfold KeyExists. rewrite d.
  destruct (decide (key = k)) as [->|Hne].
  - rewrite lookup_insert_eq. trivial.
  - rewrite lookup_insert_ne by exact Hne. trivial.
Qed.

Lemma keeps_keys_trans s1 s2 s3 : keeps_keys s1 s2 -> keeps_keys s2 s3 -> keeps_keys s1 s3.
Proof.
  intros (a & b & c & d) (a' & b' & c' & d'). repeat split; try congruence.
  intros k Hk. apply d', d, Hk.
Qed.

Lemma keeps_keys_inv s s' : keeps_keys s s' -> keyspace_inv s -> keyspace_inv s'.
Proof.
  intros (a & b & c & d) Hinv k Hk. apply d, Hinv. rewrite <- b, <- c. exact Hk.
Qed.

Lemma evolves_inv s s' : evolves s s' -> keyspace_inv s -> keyspace_inv s'.
Proof.
  intros [_ H] Hinv k Hk. unfold KeyExists.
  destruct (H k) as [(a & b & c)|(_ & a & b & c)].
  - rewrite b. apply Hinv. rewrite <- a, <- c. exact Hk.
  - rewrite a, c in Hk. destruct Hk as [[? ?]|[? ?]]; discriminate.
Qed.

(** A key that stops existing across an eviction has lost value and expiry. *)
Lemma evolves_deleted s s' k :
  evolves s s' -> KeyExists k s = true -> KeyExists k s' = false ->
  store s' !! k = None /\ keyExpiry s' !! k = None.
Proof.
  intros [_ H] H1 H2. unfold KeyExists in *.
  destruct (H k) as [(a & b & c)|(_ & a & b & c)].
  - rewrite b in H2. rewrite H2 in H1. discriminate.
  - split; assumption.
Qed.

Lemma KeyLock_keeps fuel ctx key s r s' :
  KeyLock fuel ctx key s = Ret r s' -> keeps_keys s s'.
Proof.
  intros H. apply KeyLock_inv in H as [(e & _ & Hk)|(_ & m & Hm & _ & a & b & c & d)].
  - apply same_keys_keeps, Hk.
  - eapply insert_lock_keeps; eassumption.
Qed.

Lemma KeyRLock_keeps fuel ctx key s r s' :
  KeyRLock fuel ctx key s = Ret r s' -> keeps_keys s s'.
Proof.
  intros H. apply KeyRLock_inv in H as [Hk|(m & m' & Hm & a & b & c & d)].
  - apply same_keys_keeps, Hk.
  - eapply insert_lock_keeps; eassumption.
Qed.

Lemma KeyUnlock_keeps key s s' : KeyUnlock key s = Ret tt s' -> keeps_keys s s'.
Proof.
  unfold KeyUnlock, bind, get. simpl. intros H.
  destruct (KeyExists key s).
  - destruct (keyLocks s !! key ≫= RWMutex.Unlock); [|discriminate].
    unfold modify in H. injection H as <-. eapply insert_lock_keeps; reflexivity.
  - unfold ret in H. injection H as <-. apply same_keys_keeps, same_keys_refl.
Qed.

Lemma KeyRUnlock_keeps key s s' : KeyRUnlock key s = Ret tt s' -> keeps_keys s s'.
Proof.
  unfold KeyRUnlock, bind, get. simpl. intros H.
  destruct (KeyExists key s).
  - destruct (keyLocks s !! key ≫= RWMutex.RUnlock); [|discriminate].
    unfold modify in H. injection H as <-. eapply insert_lock_keeps; reflexivity.
  - unfold ret in H. injection H as <-. apply same_keys_keeps, same_keys_refl.
Qed.

Lemma CreateKeyAndLock_keeps fuel ctx key s r s' :
  CreateKeyAndLock fuel ctx key s = Ret r s' -> keeps_keys s s'.
Proof.
  unfold CreateKeyAndLock. intros H. unfold bind at 1, get in H.
  rewrite (bind_eq _ _ _ _ _ (liftRt_Ret _ s)) in H.
  match type of H with (if ?c then _ else _) _ = _ => destruct c end.
  { unfold ret in H. injection H as _ <-. apply same_keys_keeps. repeat split. }
  apply Mutex_locked_Ret in H as (_ & s2 & H & ->).
  unfold bind at 1, get in H.
  match type of H with (if ?c then _ else _) _ = _ => destruct c end.
  - unfold bind, modify, ret in H. injection H as _ <-.
    eapply insert_lock_keeps; reflexivity.
  - apply KeyLock_keeps in H. destruct H as (a & b & c & d).
    repeat split; assumption.
Qed.

Lemma locked_exists key s : locked key s -> KeyExists key s = true.
Proof. intros (m & Hm & _). unfold KeyExists. rewrite Hm. reflexivity. Qed.

Lemma GetValue_evolves fuel ctx key s r s' :
  GetValue fuel ctx key s = Ret r s' -> evolves s s'.
Proof.
  unfold GetValue. intros H. apply bind_Ret in H as (e & s1 & Hu & H).
  unfold bind, get, ret in H. injection H as _ <-.
  eapply updateKeyInCache_evolves, Hu.
Qed.

(** [SetValue] first writes the value, then lets memory adjustment run. *)
Lemma SetValue_evolves fuel ctx key v s r s' :
  SetValue fuel ctx key v s = Ret r s' ->
  same_keys s s' \/ evolves (set_store <[key:=v]> s) s'.
Proof.
  unfold SetValue. intros H. unfold bind at 1, get in H.
  rewrite (bind_eq _ _ _ _ _ (liftRt_Ret _ s)) in H.
  match type of H with (if ?c then _ else _) _ = _ => destruct c end.
  { unfold ret in H. injection H as _ <-. left. repeat split. }
  unfold bind at 1, modify in H.
  apply bind_Ret in H as (e & s2 & Hu & H).
  apply updateKeyInCache_evolves in Hu. right.
  destruct Hu as [Hc Hk].
  unfold bind, get in H. simpl in H.
  destruct (negb (InCluster (config s2))); unfold modify, ret in H;
    injection H as _ <-; (split; [exact Hc|exact Hk]).
Qed.

Lemma SetKeyExpiry_evolves fuel ctx key t touch s s' :
  SetKeyExpiry fuel ctx key t touch s = Ret tt s' ->
  evolves (set_keyExpiry <[key:=t]> s) s'.
Proof.
  unfold SetKeyExpiry. intros H. unfold bind at 1, modify in H.
  destruct touch.
  - apply bind_Ret in H as (e & s2 & Hu & H). unfold ret in H. injection H as <-.
    eapply updateKeyInCache_evolves, Hu.
  - unfold ret in H. injection H as <-. apply evolves_refl.
Qed.

Lemma RemoveKeyExpiry_same key s s' :
  RemoveKeyExpiry key s = Ret tt s' ->
  same_keys (set_keyExpiry <[key:=zeroTime]> s) s'.
Proof.
  unfold RemoveKeyExpiry, bind, modify, get. simpl. intros H.
  repeat match type of H with (if ?c then _ else _) _ = _ => destruct c end;
    unfold ret in H; injection H as <-; repeat split.
Qed.

Lemma inv_insert_store key v s :
  KeyExists key s = true -> keyspace_inv s -> keyspace_inv (set_store <[key:=v]> s).
Proof.
  intros He Hinv k Hk. unfold KeyExists in *. simpl in *.
  destruct (decide (key = k)) as [<-|Hne]; [exact He|].
  rewrite lookup_insert_ne in Hk by exact Hne. apply Hinv, Hk.
Qed.

Lemma inv_insert_expiry key t s :
  KeyExists key s = true -> keyspace_inv s -> keyspace_inv (set_keyExpiry <[key:=t]> s).
Proof.
  intros He Hinv k Hk. unfold KeyExists in *. simpl in *.
  destruct (decide (key = k)) as [<-|Hne]; [exact He|].
  rewrite lookup_insert_ne in Hk by exact Hne. apply Hinv, Hk.
Qed.

Lemma same_keys_inv s s' : same_keys s s' -> keyspace_inv s -> keyspace_inv s'.
Proof. intros H. apply keeps_keys_inv, same_keys_keeps, H. Qed.

Lemma step_inv s s' : step s s' -> keyspace_inv s -> keyspace_inv s'.
Proof.
  intros Hstep Hinv. destruct Hstep.
  - eapply keeps_keys_inv; [eapply KeyLock_keeps|]; eassumption.
  - eapply keeps_keys_inv; [eapply KeyUnlock_keeps|]; eassumption.
  - eapply keeps_keys_inv; [eapply KeyRLock_keeps|]; eassumption.
  - eapply keeps_keys_inv; [eapply KeyRUnlock_keeps|]; eassumption.
  - eapply keeps_keys_inv; [eapply CreateKeyAndLock_keeps|]; eassumption.
  - eapply evolves_inv; [eapply GetValue_evolves|]; eassumption.
  - match goal with H : SetValue _ _ _ _ _ = _ |- _ => apply SetValue_evolves in H as [Hk|He] end.
    + eapply same_keys_inv; eassumption.
    + eapply evolves_inv; [exact He|]. apply inv_insert_store; [|exact Hinv].
      apply locked_exists. assumption.
  - match goal with H : SetKeyExpiry _ _ _ _ _ _ = _ |- _ => apply SetKeyExpiry_evolves in H end.
    eapply evolves_inv; [eassumption|]. apply inv_insert_expiry; [|exact Hinv].
    apply locked_exists. assumption.
  - match goal with H : RemoveKeyExpiry _ _ = _ |- _ => apply RemoveKeyExpiry_same in H end.
    eapply same_keys_inv; [eassumption|]. apply inv_insert_expiry; [|exact Hinv].
    apply locked_exists. assumption.
Qed.

Lemma keeps_keys_not_deleted s s' k :
  keeps_keys s s' -> KeyExists k s = true -> KeyExists k s' = false -> False.
Proof. intros (_ & _ & _ & H) H1 H2. apply H in H1. congruence. Qed.

(** Whenever a call makes a key stop existing, the key has lost its value and
    its expiry in the same call. *)
Lemma step_deletes_together s s' k :
  step s s' -> KeyExists k s = true -> KeyExists k s' = false ->
  store s' !! k = None /\ keyExpiry s' !! k = None.
Proof.
  intros Hstep H1 H2. destruct Hstep.
  - exfalso. eapply keeps_keys_not_deleted; [eapply KeyLock_keeps|..]; eassumption.
  - exfalso. eapply keeps_keys_not_deleted; [eapply KeyUnlock_keeps|..]; eassumption.
  - exfalso. eapply keeps_keys_not_deleted; [eapply KeyRLock_keeps|..]; eassumption.
  - exfalso. eapply keeps_keys_not_deleted; [eapply KeyRUnlock_keeps|..]; eassumption.
  - exfalso. eapply keeps_keys_not_deleted; [eapply CreateKeyAndLock_keeps|..]; eassumption.
  - eapply evolves_deleted; [eapply GetValue_evolves|..]; eassumption.
  - match goal with H : SetValue _ _ _ _ _ = _ |- _ => apply SetValue_evolves in H as [Hk|He] end.
    + exfalso. eapply keeps_keys_not_deleted; [eapply same_keys_keeps|..]; eassumption.
    + eapply evolves_deleted; [exact He|exact H1|exact H2].
  - match goal with H : SetKeyExpiry _ _ _ _ _ _ = _ |- _ => apply SetKeyExpiry_evolves in H end.
    eapply evolves_deleted; [eassumption|exact H1|exact H2].
  - match goal with H : RemoveKeyExpiry _ _ = _ |- _ => apply RemoveKeyExpiry_same in H end.
    exfalso. eapply keeps_keys_not_deleted; [eapply same_keys_keeps; eassumption|exact H1|exact H2].
Qed.

Lemma reachable_inv c r s : reachable c r s -> keyspace_inv s.
Proof.
  unfold reachable. intros H.
  assert (Hinit : keyspace_inv (NewServer c r)).
  { intros k [[? Hk]|[? Hk]]; simpl in Hk; rewrite lookup_empty in Hk; discriminate. }
  induction H as [|s1 s2 s3 Hstep _ IH]; [exact Hinit|].
  apply IH. eapply step_inv; eassumption.
Qed.

(** C1, as the code has it.  In every state the keyspace reaches, [exists(k)]
    says that the lock map has an entry for [k]; every key with a value in the
    store, and every key with an expiry, exists; and whenever a call makes an
    existing key stop existing, the same call has removed its value and its
    expiry.  (A key exists before it has a value: [CreateKeyAndLock] inserts
    the lock only.) *)
Theorem keyspace_invariant (c : Config) (r : Runtime) (s : Server) :
  reachable c r s ->
  (forall k, KeyExists k s = true <-> is_Some (keyLocks s !! k))
  /\ (forall k, is_Some (store s !! k) -> KeyExists k s = true)
  /\ (forall k, is_Some (keyExpiry s !! k) -> KeyExists k s = true)
  /\ (forall s' k, step s s' -> KeyExists k s = true -> KeyExists k s' = false ->
        store s' !! k = None /\ keyExpiry s' !! k = None).
Proof.
  intros H. apply reachable_inv in H. split; [|split; [|split]].
  - intros k. unfold KeyExists. destruct (keyLocks s !! k).
    + split; [eauto | reflexivity].
    + split; [discriminate | intros [? ?]; discriminate].
  - intros k Hk. apply H. left. exact Hk.
  - intros k Hk. apply H. right. exact Hk.
  - intros s' k. apply step_deletes_together.
Qed.

(** One [CreateKeyAndLock] on a new server. *)
Lemma created_reachable :
  exists s, CreateKeyAndLock 1 Background "k" Ex.s0 = Ret (true, None) s
            /\ reachable Ex.cfg0 (Ex.rt_const 0) s
            /\ KeyExists "k" s = true /\ store s !! "k" = None.
Proof.
  eexists. split; [vm_compute; reflexivity|]. split; [|split; reflexivity].
  eapply rtc_l; [|apply rtc_refl].
  eapply (step_CreateKeyAndLock 1 Background "k"). vm_compute. reflexivity.
Qed.

Lemma keyspace_invariant_witness :
  store Ex.filled !! "k" = Some (VInt 7) /\ KeyExists "k" Ex.filled = true.
Proof.
  split; [reflexivity|].
  destruct (keyspace_invariant Ex.cfg0 (Ex.rt_const 0) Ex.filled) as (_ & H & _).
  - eapply rtc_l; [|eapply rtc_l; [|apply rtc_refl]].
    + apply (step_CreateKeyAndLock 1 Background "k" Ex.s0 (true, None) Ex.held).
      vm_compute. reflexivity.
    + apply (step_SetValue 1 Background "k" (VInt 7) Ex.held None Ex.filled).
      * exists (RWMutex.mk true 0). split; reflexivity.
      * vm_compute. reflexivity.
  - apply H. exists (VInt 7). reflexivity.
Defined.

(** C1 as stated fails: after [CreateKeyAndLock] on a new server the key
    exists, and the store has no value for it. *)
Lemma key_exists_without_value :
  ~ (forall c r s, reachable c r s ->
       forall k, KeyExists k s = true -> is_Some (store s !! k)).
Proof.
  intros H. destruct created_reachable as (s & _ & Hr & He & Hs).
  destruct (H _ _ _ Hr "k" He) as [v Hv]. rewrite Hs in Hv. discriminate.
Qed.

(** ** The keyspace functions on a server without memory limit *)

Lemma set_rt_same s : set_rt (fun _ => rt s) s = s.
Proof. destruct s; reflexivity. Qed.

Lemma IsMaxMemoryExceeded_no_limit max s :
  max = 0%N -> liftRt (Utils.IsMaxMemoryExceeded max) s = Ret false s.
Proof. intros ->. unfold liftRt. simpl. rewrite set_rt_same. reflexivity. Qed.

Lemma SetValue_no_limit fuel ctx key v s :
  MaxMemory (config s) = 0%N ->
  SetValue fuel ctx key v s = Ret None (counted (set_store <[key:=v]> s)).
Proof.
  intros H. unfold SetValue, bind, get, modify.
  rewrite (IsMaxMemoryExceeded_no_limit _ s H). simpl.
  rewrite (updateKeyInCache_no_limit fuel ctx key (set_store <[key:=v]> s) H).
  unfold counted. simpl.
  destruct (negb (InCluster (config s))); reflexivity.
Qed.

Lemma unlock_creation_mutex s :
  keyCreationLock (mutexes s) = false ->
  set_mutexes (Mutex.put Mutex.KeyCreation false) s = s.
Proof. destruct s as [? ? ? ? ? ? [? ? ?] ? ?]; simpl. intros ->. reflexivity. Qed.

Lemma Mutex_locked_eq {A} n (body : M A) s a s2 :
  Mutex.held n (mutexes s) = false ->
  body (set_mutexes (Mutex.put n true) s) = Ret a s2 ->
  Mutex.held n (mutexes s2) = true ->
  Mutex.locked n body s = Ret a (set_mutexes (Mutex.put n false) s2).
Proof.
  intros Hf Hb Hh. unfold Mutex.locked, Mutex.Lock, Mutex.Unlock, bind, get, modify, ret.
  rewrite Hf, Hb, Hh. reflexivity.
Qed.

Lemma KeyLock_free fuel ctx key s m :
  ctx_done ctx (rt s) = false -> keyLocks s !! key = Some m -> RWMutex.held m = false ->
  KeyLock (S fuel) ctx key s = Ret (true, None) (set_keyLocks <[key := RWMutex.mk true 0]> s).
Proof.
  intros Hc Hk Hf. simpl. unfold bind, get. rewrite Hc, Hk.
  destruct m as [w r]. unfold RWMutex.held in Hf. simpl in Hf.
  destruct w; [discriminate|]. destruct r; [|discriminate]. reflexivity.
Qed.

Lemma CreateKeyAndLock_new fuel ctx key s :
  MaxMemory (config s) = 0%N -> keyCreationLock (mutexes s) = false ->
  keyLocks s !! key = None ->
  CreateKeyAndLock fuel ctx key s
  = Ret (true, None) (set_keyLocks <[key := RWMutex.mk true 0]> s).
Proof.
  intros H Hm Hk. unfold CreateKeyAndLock, bind at 1, get.
  rewrite (bind_eq _ _ _ _ _ (IsMaxMemoryExceeded_no_limit _ s H)). simpl.
  erewrite Mutex_locked_eq; cycle 1.
  - exact Hm.
  - unfold bind at 1, get, KeyExists. simpl. rewrite Hk. reflexivity.
  - reflexivity.
  - f_equal. destruct s as [? ? ? ? ? ? [? ? ?] ? ?]; simpl in *. subst. reflexivity.
Qed.

Lemma CreateKeyAndLock_free fuel ctx key s m :
  MaxMemory (config s) = 0%N -> keyCreationLock (mutexes s) = false ->
  ctx_done ctx (rt s) = false -> keyLocks s !! key = Some m -> RWMutex.held m = false ->
  CreateKeyAndLock (S fuel) ctx key s
  = Ret (true, None) (set_keyLocks <[key := RWMutex.mk true 0]> s).
Proof.
  intros H Hm Hc Hk Hf. unfold CreateKeyAndLock, bind at 1, get.
  rewrite (bind_eq _ _ _ _ _ (IsMaxMemoryExceeded_no_limit _ s H)). cbn beta iota delta [andb].
  erewrite Mutex_locked_eq; cycle 1.
  - exact Hm.
  - unfold bind at 1, get, KeyExists. cbn [keyLocks set_mutexes]. rewrite Hk. cbn [negb].
    apply (KeyLock_free fuel ctx key _ m); assumption.
  - reflexivity.
  - f_equal. destruct s as [? ? ? ? ? ? [? ? ?] ? ?]; simpl in *. subst. reflexivity.
Qed.

Lemma KeyRLock_free fuel ctx key s m :
  ctx_done ctx (rt s) = false -> keyLocks s !! key = Some m -> RWMutex.writer m = false ->
  KeyRLock (S fuel) ctx key s
  = Ret (true, None) (set_keyLocks <[key := RWMutex.mk false (S (RWMutex.readers m))]> s).
Proof.
  intros Hc Hk Hf. simpl. unfold bind, get. rewrite Hc, Hk.
  unfold RWMutex.TryRLock. rewrite Hf. reflexivity.
Qed.

Lemma KeyUnlock_held key s r :
  keyLocks s !! key = Some (RWMutex.mk true r) ->
  KeyUnlock key s = Ret tt (set_keyLocks <[key := RWMutex.mk false r]> s).
Proof.
  intros Hk. unfold KeyUnlock, bind, get, KeyExists. rewrite Hk. reflexivity.
Qed.

Lemma KeyRUnlock_held key s w n :
  keyLocks s !! key = Some (RWMutex.mk w (S n)) ->
  KeyRUnlock key s = Ret tt (set_keyLocks <[key := RWMutex.mk w n]> s).
Proof.
  intros Hk. unfold KeyRUnlock, bind, get, KeyExists. rewrite Hk. reflexivity.
Qed.

(** ** C9: the reply of SADD on a new key *)

Import SetModule.

Lemma handleSADD_new fuel ctx cmd s :
  (3 <= length cmd)%nat -> KeyExists (arg cmd 1) s = false ->
  handleSADD fuel ctx cmd s =
  (let* r := CreateKeyAndLock fuel ctx (arg cmd 1) in
   if negb (fst r) && is_Some_b (snd r) then ret (Err (default "" (snd r)))
   else
     let* _ := SetValue fuel ctx (arg cmd 1) (VSet (NewSet (drop 2 cmd))) in
     let* _ := KeyUnlock (arg cmd 1) in
     ret (Reply (":" ++ Fmt.d (length (drop 2 cmd)) ++ CRLF ++ CRLF))) s.
Proof.
  intros Hlen He. unfold handleSADD.
  destruct (Nat.ltb_spec (length cmd) 3) as [?|_]; [lia|].
  unfold bind at 1, get. rewrite He. reflexivity.
Qed.

(** C9.  SADD on a key that does not exist: whenever the handler replies, the
    reply is the integer [len(cmd) - 2], the number of member arguments; on a
    server without memory limit it does reply, and the key then holds the set
    of the distinct members.  With a member given twice the reply exceeds the
    cardinality of the set: [SADD k a a b] replies 3 and stores a set of 2. *)
Theorem sadd_new_key_counts_arguments fuel ctx cmd s :
  (3 <= length cmd)%nat -> KeyExists (arg cmd 1) s = false ->
  (forall b s', handleSADD fuel ctx cmd s = Ret (Reply b) s' ->
     b = ":" ++ Fmt.d (length cmd - 2) ++ CRLF ++ CRLF)
  /\ (MaxMemory (config s) = 0%N -> keyCreationLock (mutexes s) = false ->
      exists s', handleSADD fuel ctx cmd s
                 = Ret (Reply (":" ++ Fmt.d (length cmd - 2) ++ CRLF ++ CRLF)) s'
                 /\ store s' !! arg cmd 1 = Some (VSet (NewSet (drop 2 cmd))))
  /\ (exists s' set,
        handleSADD 1 Background ["SADD"; "k"; "a"; "a"; "b"] Ex.s0
        = Ret (Reply (":3" ++ CRLF ++ CRLF)) s'
        /\ store s' !! "k" = Some (VSet set) /\ Cardinality set = 2%nat).
Proof.
  intros Hlen He. rewrite <- length_drop. split; [|split].
  - intros b s' H. rewrite handleSADD_new in H by assumption.
    apply bind_Ret in H as (r & s1 & _ & H).
    destruct (negb (fst r) && is_Some_b (snd r)); [unfold ret in H; discriminate|].
    apply bind_Ret in H as (e & s2 & _ & H).
    apply bind_Ret in H as ([] & s3 & _ & H).
    unfold ret in H. injection H as <- _. reflexivity.
  - intros Hm Hc. rewrite handleSADD_new by assumption.
    assert (Hk : keyLocks s !! arg cmd 1 = None).
    { unfold KeyExists in He. destruct (keyLocks s !! arg cmd 1); [discriminate|reflexivity]. }
    rewrite (bind_eq _ _ _ _ _ (CreateKeyAndLock_new fuel ctx _ s Hm Hc Hk)).
    cbn beta iota delta [fst snd negb andb is_Some_b].
    match goal with |- context [bind (SetValue ?f ?c ?k ?v) _ ?st] =>
      rewrite (bind_eq _ _ _ _ _ (SetValue_no_limit f c k v st Hm)) end.
    assert (Hl : forall st, keyLocks (counted st) = keyLocks st /\ store (counted st) = store st).
    { intros st. unfold counted. destruct (negb (InCluster (config st))); split; reflexivity. }
    match goal with |- context [bind (KeyUnlock ?k) _ ?st] =>
      assert (Hheld : keyLocks st !! k = Some (RWMutex.mk true 0))
        by (rewrite (proj1 (Hl _)); apply lookup_insert_eq);
      rewrite (bind_eq _ _ _ _ _ (KeyUnlock_held k st 0 Hheld)) end.
    eexists. split; [reflexivity|].
    cbn [store set_keyLocks]. rewrite (proj2 (Hl _)). apply lookup_insert_eq.
  - eexists. exists (NewSet ["a"; "b"]). split; [vm_compute; reflexivity|].
    split; [vm_compute; reflexivity|]. vm_compute. reflexivity.
Qed.

Lemma sadd_new_key_counts_arguments_witness :
  exists s', handleSADD 1 Background ["SADD"; "key1"; "one"; "two"; "three"; "four"] Ex.s0
             = Ret (Reply (":4" ++ CRLF ++ CRLF)) s'.
Proof.
  destruct (sadd_new_key_counts_arguments 1 Background
              ["SADD"; "key1"; "one"; "two"; "three"; "four"] Ex.s0) as (_ & H & _).
  - simpl. lia.
  - reflexivity.
  - destruct H as (s' & H & _); [reflexivity|reflexivity|]. exists s'. exact H.
Defined.

(** ** C5: SINTERSTORE, then SMEMBERS *)

Lemma collectSets_no_limit fuel ctx s :
  MaxMemory (config s) = 0%N ->
  forall keys sets acc,
    Forall2 (fun k set => store s !! k = Some (VSet set)) keys sets ->
    collectSets fuel ctx keys acc s = Ret (inl (acc ++ sets)%list) s.
Proof.
  intros Hm keys sets acc H. revert acc.
  induction H as [|k set keys sets Hk _ IH]; intros acc; simpl.
  - rewrite app_nil_r. reflexivity.
  - rewrite (bind_eq _ _ _ _ _ (GetValue_no_limit fuel ctx k s Hm)).
    rewrite Hk. simpl. rewrite IH, <- app_assoc. reflexivity.
Qed.

Lemma elements_two (k1 k2 : string) (l : list string) :
  k1 <> k2 -> l ≡ₚ elements ({[k2]} ∪ ({[k1]} ∪ ∅) : gset string) ->
  l = [k1; k2] \/ l = [k2; k1].
Proof.
  intros Hne Hl. apply Permutation_length_2_inv. rewrite Hl.
  rewrite (right_id_L ∅ (∪)).
  rewrite elements_union_singleton by set_solver.
  rewrite elements_singleton. apply perm_swap.
Qed.

Lemma scenario_sets :
  Scenario.set1 ∩ Scenario.set2 = Scenario.common
  /\ Scenario.set2 ∩ Scenario.set1 = Scenario.common
  /\ Cardinality Scenario.common = 3%nat.
Proof. repeat split; vm_compute; reflexivity. Qed.

Opaque KeyLock KeyRLock KeyUnlock KeyRUnlock CreateKeyAndLock SetValue GetValue collectSets.

Lemma handleSINTERSTORE_two fuel ctx c1 d k1 k2 s m1 m2 :
  MaxMemory (config s) = 0%N -> keyCreationLock (mutexes s) = false ->
  (forall l, rangeOrder (rt s) l ≡ₚ l) ->
  ctx_done ctx (rt s) = false ->
  k1 <> k2 -> d <> k1 -> d <> k2 ->
  keyLocks s !! k1 = Some m1 -> RWMutex.writer m1 = false ->
  keyLocks s !! k2 = Some m2 -> RWMutex.writer m2 = false ->
  store s !! k1 = Some (VSet Scenario.set1) ->
  store s !! k2 = Some (VSet Scenario.set2) ->
  (keyLocks s !! d = None
   \/ exists md, keyLocks s !! d = Some md /\ RWMutex.held md = false) ->
  exists s', handleSINTERSTORE (S fuel) ctx [c1; d; k1; k2] s
             = Ret (Reply (":3" ++ CRLF ++ CRLF)) s'
             /\ stored_at d Scenario.common s s'.
Proof.
  intros Hm Hc Hperm Hctx H12 Hd1 Hd2 Hl1 Hw1 Hl2 Hw2 Hs1 Hs2 Hd.
  destruct scenario_sets as (I12 & I21 & Hcard).
  unfold handleSINTERSTORE, arg. simpl. unfold bind, get, KeyExists. rewrite Hl1. simpl.
  rewrite (KeyRLock_free fuel ctx k1 s m1 Hctx Hl1 Hw1). simpl.
  rewrite lookup_insert_ne by congruence. rewrite Hl2. simpl.
  set (s1 := set_keyLocks _ s).
  assert (Hl2' : keyLocks s1 !! k2 = Some m2)
    by (unfold s1; simpl; rewrite lookup_insert_ne by congruence; exact Hl2).
  rewrite (KeyRLock_free fuel ctx k2 s1 m2 Hctx Hl2' Hw2). simpl.
  set (s2 := set_keyLocks _ s1).
  assert (Hsets : forall order, order = [k1; k2] \/ order = [k2; k1] ->
            exists sets, collectSets (S fuel) ctx order [] s2 = Ret (inl sets) s2
              /\ (sets = [Scenario.set1; Scenario.set2] \/ sets = [Scenario.set2; Scenario.set1])).
  { intros order [->| ->].
    - exists [Scenario.set1; Scenario.set2]. split; [|left; reflexivity].
      apply (collectSets_no_limit (S fuel) ctx s2 Hm [k1; k2] _ []).
      repeat constructor; assumption.
    - exists [Scenario.set2; Scenario.set1]. split; [|right; reflexivity].
      apply (collectSets_no_limit (S fuel) ctx s2 Hm [k2; k1] _ []).
      repeat constructor; assumption. }
  pose proof (elements_two k1 k2 _ H12 (Hperm _)) as Horder.
  destruct (Hsets _ Horder) as (sets & Hcol & Hcase).
  unfold ret. simpl. rewrite Hcol.
  assert (Hinter : forall r base others, sets = base :: others ->
            Intersection r base others 0 = Scenario.common).
  { intros r base others E. unfold Intersection. simpl.
    destruct Hcase as [->| ->]; injection E as <- <-; simpl; assumption. }
  destruct sets as [|base others]; [destruct Hcase; discriminate|].
  rewrite (Hinter _ base others eq_refl). simpl.
  rewrite !lookup_insert_ne by congruence. rewrite Hcard.
  assert (Hlock : exists s3,
            (if match keyLocks s !! d with Some _ => true | None => false end
             then KeyLock (S fuel) ctx d else CreateKeyAndLock (S fuel) ctx d) s2
            = Ret (true, None) s3
            /\ s3 = set_keyLocks <[d := RWMutex.mk true 0]> s2).
  { eexists. split; [|reflexivity].
    destruct Hd as [Hd|(md & Hd & Hfree)]; rewrite Hd.
    - apply CreateKeyAndLock_new; try assumption.
      unfold s2, s1. simpl. rewrite !lookup_insert_ne by congruence. exact Hd.
    - apply (KeyLock_free fuel ctx d s2 md); try assumption.
      unfold s2, s1. simpl. rewrite !lookup_insert_ne by congruence. exact Hd. }
  destruct Hlock as (s3 & Hlock & Es3). rewrite Hlock. simpl.
  rewrite (SetValue_no_limit (S fuel) ctx d (VSet Scenario.common) s3)
    by (rewrite Es3; exact Hm).
  set (s4 := counted _).
  assert (E4 : keyLocks s4 = keyLocks s3 /\ store s4 = <[d := VSet Scenario.common]> (store s3)
               /\ config s4 = config s3 /\ rt s4 = rt s3).
  { unfold s4, counted. destruct (negb (InCluster _)); repeat split. }
  destruct E4 as (E4l & E4s & E4c & E4r).
  rewrite (KeyUnlock_held d s4 0)
    by (rewrite E4l, Es3; simpl; apply lookup_insert_eq).
  set (s5 := set_keyLocks _ s4).
  assert (Hr5 : rangeOrder (rt s5) = rangeOrder (rt s))
    by (unfold s5; simpl; rewrite E4r, Es3; reflexivity).
  rewrite Hr5.
  assert (Hk1 : keyLocks s5 !! k1 = Some (RWMutex.mk false (S (RWMutex.readers m1)))).
  { unfold s5. simpl. rewrite E4l, Es3. unfold s2, s1. simpl.
    rewrite lookup_insert_ne by congruence. rewrite lookup_insert_ne by congruence.
    rewrite lookup_insert_ne by congruence. apply lookup_insert_eq. }
  assert (Hk2 : keyLocks s5 !! k2 = Some (RWMutex.mk false (S (RWMutex.readers m2)))).
  { unfold s5. simpl. rewrite E4l, Es3. unfold s2, s1. simpl.
    rewrite lookup_insert_ne by congruence. rewrite lookup_insert_ne by congruence.
    apply lookup_insert_eq. }
  assert (Hfin : forall s', config s' = config s5 -> rt s' = rt s5 -> store s' = store s5 ->
            keyLocks s' !! d = keyLocks s5 !! d ->
            stored_at d Scenario.common s s').
  { intros s' a b c e. unfold stored_at. rewrite a, b, c, e. unfold s5. simpl.
    rewrite E4c, E4r, E4s, Es3. simpl. rewrite !lookup_insert_eq. repeat split. }
  destruct Horder as [-> | ->]; simpl; unfold bind.
  - rewrite (KeyRUnlock_held k1 s5 false _ Hk1).
    rewrite (KeyRUnlock_held k2 _ false (RWMutex.readers m2))
      by (simpl; rewrite lookup_insert_ne by congruence; exact Hk2).
    eexists. split; [reflexivity|]. apply Hfin; try reflexivity.
    simpl. rewrite !lookup_insert_ne by congruence. reflexivity.
  - rewrite (KeyRUnlock_held k2 s5 false _ Hk2).
    rewrite (KeyRUnlock_held k1 _ false (RWMutex.readers m1))
      by (simpl; rewrite lookup_insert_ne by congruence; exact Hk1).
    eexists. split; [reflexivity|]. apply Hfin; try reflexivity.
    simpl. rewrite !lookup_insert_ne by congruence. reflexivity.
Qed.

Lemma handleSMEMBERS_set fuel ctx c d s m set :
  MaxMemory (config s) = 0%N ->
  (forall l, rangeOrder (rt s) l ≡ₚ l) ->
  ctx_done ctx (rt s) = false ->
  keyLocks s !! d = Some m -> RWMutex.writer m = false ->
  store s !! d = Some (VSet set) ->
  exists elems s',
    handleSMEMBERS (S fuel) ctx [c; d] s
    = Ret (Reply (bulkStrings ("*" ++ Fmt.d (length elems)) elems)) s'
    /\ elems ≡ₚ elements set.
Proof.
  intros Hm Hperm Hctx Hl Hw Hs.
  unfold handleSMEMBERS, arg. simpl. unfold bind, get, KeyExists. rewrite Hl. simpl.
  rewrite (KeyRLock_free fuel ctx d s m Hctx Hl Hw). simpl.
  set (s1 := set_keyLocks _ s).
  rewrite (GetValue_no_limit (S fuel) ctx d s1 Hm). simpl. rewrite Hs. simpl.
  unfold ret.
  rewrite (KeyRUnlock_held d s1 false (RWMutex.readers m))
    by (unfold s1; simpl; apply lookup_insert_eq).
  exists (GetAll (rt s) set). eexists. split; [reflexivity|].
  unfold GetAll. apply Hperm.
Qed.

Transparent KeyLock KeyRLock KeyUnlock KeyRUnlock CreateKeyAndLock SetValue GetValue collectSets.

(** The lists that hold three, four and five once each. *)
Lemma three_members (elems : list string) :
  elems ≡ₚ ["three"; "four"; "five"] ->
  In elems [["three"; "four"; "five"]; ["three"; "five"; "four"];
            ["four"; "three"; "five"]; ["four"; "five"; "three"];
            ["five"; "three"; "four"]; ["five"; "four"; "three"]].
Proof.
  intros H. symmetry in H. apply permutations_Permutation in H.
  vm_compute in H. apply list_elem_of_In in H. simpl in H. simpl. tauto.
Qed.

(** C5.  On a server without memory limit where [k1] holds
    [{one,two,three,four,five}] and [k2] holds
    [{three,four,five,six,seven,eight}], both readable, and [d] is another
    key, absent or with a free lock: [SINTERSTORE d k1 k2] replies [:3] and
    stores [{three,four,five}] at [d], whatever the order in which the runtime
    ranges over the locked keys; the [SMEMBERS d] that follows replies the
    array of three bulk strings, which are the members three, four and five
    in some order, each after its length. *)
Theorem sinterstore_then_smembers fuel ctx fuel' ctx' c1 c2 d k1 k2 s m1 m2 :
  MaxMemory (config s) = 0%N -> keyCreationLock (mutexes s) = false ->
  (forall l, rangeOrder (rt s) l ≡ₚ l) ->
  ctx_done ctx (rt s) = false -> ctx_done ctx' (rt s) = false ->
  k1 <> k2 -> d <> k1 -> d <> k2 ->
  keyLocks s !! k1 = Some m1 -> RWMutex.writer m1 = false ->
  keyLocks s !! k2 = Some m2 -> RWMutex.writer m2 = false ->
  store s !! k1 = Some (VSet Scenario.set1) ->
  store s !! k2 = Some (VSet Scenario.set2) ->
  (keyLocks s !! d = None
   \/ exists md, keyLocks s !! d = Some md /\ RWMutex.held md = false) ->
  exists s' e1 e2 e3 s'',
    handleSINTERSTORE (S fuel) ctx [c1; d; k1; k2] s = Ret (Reply (":3" ++ CRLF ++ CRLF)) s'
    /\ store s' !! d = Some (VSet (NewSet ["three"; "four"; "five"]))
    /\ handleSMEMBERS (S fuel') ctx' [c2; d] s'
       = Ret (Reply ("*3" ++ CRLF ++ "$" ++ Fmt.d (String.length e1) ++ CRLF ++ e1
                          ++ CRLF ++ "$" ++ Fmt.d (String.length e2) ++ CRLF ++ e2
                          ++ CRLF ++ "$" ++ Fmt.d (String.length e3) ++ CRLF ++ e3
                          ++ CRLF ++ CRLF)) s''
    /\ [e1; e2; e3] ≡ₚ ["three"; "four"; "five"].
Proof.
  intros Hm Hc Hperm Hctx Hctx' H12 Hd1 Hd2 Hl1 Hw1 Hl2 Hw2 Hs1 Hs2 Hd.
  destruct (handleSINTERSTORE_two fuel ctx c1 d k1 k2 s m1 m2) as (s' & Hrun & Hst);
    try assumption.
  destruct Hst as (Ec & Er & Es & El).
  destruct (handleSMEMBERS_set fuel' ctx' c2 d s' (RWMutex.mk false 0) Scenario.common)
    as (elems & s'' & Hmem & Hel);
    try (rewrite ?Ec, ?Er; assumption); try reflexivity.
  assert (Hthree : elems ≡ₚ ["three"; "four"; "five"]).
  { rewrite Hel. unfold Scenario.common, NewSet. apply elements_list_to_set.
    apply (bool_decide_unpack (NoDup ["three"; "four"; "five"])). vm_compute. exact I. }
  pose proof (three_members elems Hthree) as Hin.
  assert (Hshape : exists e1 e2 e3, elems = [e1; e2; e3]
            /\ bulkStrings ("*" ++ Fmt.d (length elems)) elems
               = "*3" ++ CRLF ++ "$" ++ Fmt.d (String.length e1) ++ CRLF ++ e1
                      ++ CRLF ++ "$" ++ Fmt.d (String.length e2) ++ CRLF ++ e2
                      ++ CRLF ++ "$" ++ Fmt.d (String.length e3) ++ CRLF ++ e3
                      ++ CRLF ++ CRLF).
  { simpl in Hin.
    destruct Hin as [<-|[<-|[<-|[<-|[<-|[<-|[]]]]]]];
      do 3 eexists; (split; [reflexivity|vm_compute; reflexivity]). }
  destruct Hshape as (e1 & e2 & e3 & -> & Hreply).
  exists s', e1, e2, e3, s''. repeat split; try assumption.
  rewrite Hmem, Hreply. reflexivity.
Qed.

Lemma sinterstore_then_smembers_witness :
  exists s' e1 e2 e3 s'',
    handleSINTERSTORE 1 Background ["SINTERSTORE"; "destination1"; "key1"; "key2"]
      Scenario.preset = Ret (Reply (":3" ++ CRLF ++ CRLF)) s'
    /\ store s' !! "destination1" = Some (VSet (NewSet ["three"; "four"; "five"]))
    /\ handleSMEMBERS 1 Background ["SMEMBERS"; "destination1"] s'
       = Ret (Reply ("*3" ++ CRLF ++ "$" ++ Fmt.d (String.length e1) ++ CRLF ++ e1
                          ++ CRLF ++ "$" ++ Fmt.d (String.length e2) ++ CRLF ++ e2
                          ++ CRLF ++ "$" ++ Fmt.d (String.length e3) ++ CRLF ++ e3
                          ++ CRLF ++ CRLF)) s''
    /\ [e1; e2; e3] ≡ₚ ["three"; "four"; "five"].
Proof.
  apply (sinterstore_then_smembers 0 Background 0 Background "SINTERSTORE" "SMEMBERS"
           "destination1" "key1" "key2" Scenario.preset RWMutex.new RWMutex.new);
    try reflexivity; try discriminate.
  left. reflexivity.
Defined.

(** The two replies on the server of the test, byte for byte, where the
    runtime ranges over a map in the order of its keys. *)
Example sinterstore_then_smembers_replies :
  exists s' s'',
    handleSINTERSTORE 1 Background ["SINTERSTORE"; "destination1"; "key1"; "key2"]
      Scenario.preset = Ret (Reply (":3" ++ CRLF ++ CRLF)) s'
    /\ handleSMEMBERS 1 Background ["SMEMBERS"; "destination1"] s'
       = Ret (Reply ("*3" ++ CRLF ++ "$4" ++ CRLF ++ "four" ++ CRLF ++ "$4" ++ CRLF ++ "five"
                          ++ CRLF ++ "$5" ++ CRLF ++ "three" ++ CRLF ++ CRLF)) s''.
Proof.
  set (o := handleSINTERSTORE _ _ _ _). vm_compute in o. subst o.
  eexists. eexists. split; [reflexivity|].
  set (o := handleSMEMBERS _ _ _ _). vm_compute in o. subst o. reflexivity.
Qed.

(** ** C7: adaptive typing *)

Lemma digit_char_spec d :
  (d < 10)%N ->
  Big.is_digit (Fmt.digit_char d) = true /\ Big.digit_val (Fmt.digit_char d) = Z.of_N d.
Proof.
  intros Hd. unfold Big.is_digit, Big.digit_val, Fmt.digit_char.
  rewrite N_ascii_embedding by lia. split; [|lia].
  apply andb_true_intro. split; apply Z.leb_le; lia.
Qed.

(** Scanning the digits that [digits_go] has put in front of [tl]. *)
Lemma scan_digits_go fuel : forall n tl,
  (n < 10 ^ N.of_nat fuel)%N -> (0 < fuel)%nat ->
  exists k, (1 <= k)%nat /\ forall a c,
    Big.scan_digits (Fmt.digits_go fuel n tl) a c
    = Big.scan_digits tl (a * 10 ^ Z.of_nat k + Z.of_N n)%Z (c + k)%nat.
Proof.
  induction fuel as [|f IH]; intros n tl Hn Hf; [lia|].
  simpl Fmt.digits_go.
  destruct (digit_char_spec (n mod 10)) as [Hd Hv]; [apply N.mod_lt; lia|].
  destruct (N.eqb_spec (n / 10) 0) as [Hz|Hnz].
  - exists 1%nat. split; [lia|]. intros a c. simpl Big.scan_digits. rewrite Hd, Hv.
    assert (n mod 10 = n)%N as ->.
    { rewrite (N.div_mod n 10) at 2 by lia. rewrite Hz. lia. }
    f_equal; [f_equal; lia | lia].
  - destruct f as [|f'].
    { exfalso. apply Hnz. apply N.div_small. simpl in Hn. lia. }
    destruct (IH (n / 10)%N (Fmt.digit_char (n mod 10) :: tl)) as (k & Hk & Hscan); [|lia|].
    { apply N.Div0.div_lt_upper_bound.
      replace (N.of_nat (S (S f'))) with (N.succ (N.of_nat (S f'))) in Hn by lia.
      rewrite N.pow_succ_r' in Hn. exact Hn. }
    exists (S k). split; [lia|]. intros a c. rewrite Hscan.
    simpl Big.scan_digits. rewrite Hd, Hv.
    f_equal; [|lia].
    rewrite Nat2Z.inj_succ, Z.pow_succ_r by lia.
    generalize (10 ^ Z.of_nat k)%Z. intros p.
    pose proof (N.div_mod n 10). lia.
Qed.

Lemma digits_enough n : (n < 10 ^ N.of_nat (S (N.to_nat (N.log2 n))))%N.
Proof.
  rewrite Nat2N.inj_succ, N2Nat.id.
  destruct (N.eq_dec n 0%N) as [->|Hn]; [reflexivity|].
  eapply N.lt_le_trans; [apply N.log2_spec; lia|].
  apply N.pow_le_mono_l. lia.
Qed.

Lemma scan_digits_digits n :
  exists k, (1 <= k)%nat /\ Big.scan_digits (Fmt.digits n) 0 0 = (Z.of_N n, k, []).
Proof.
  destruct (scan_digits_go _ n [] (digits_enough n)) as (k & Hk & H); [lia|].
  exists k. split; [exact Hk|]. unfold Fmt.digits. rewrite H. simpl. f_equal.
Qed.

(** A digit is none of the characters that the scanner gives a meaning to. *)
Lemma digit_not_special c :
  Big.is_digit c = true ->
  Ascii.eqb c "-" = false /\ Ascii.eqb c "+" = false /\ Ascii.eqb c "." = false
  /\ Ascii.eqb c "I" = false /\ Ascii.eqb c "i" = false.
Proof.
  destruct c as [[] [] [] [] [] [] [] []]; vm_compute; intros H;
    first [discriminate H | repeat split].
Qed.

Lemma digits_head n :
  exists c l, Fmt.digits n = c :: l /\ Big.is_digit c = true.
Proof.
  destruct (scan_digits_digits n) as (k & Hk & H).
  destruct (Fmt.digits n) as [|c l].
  - simpl in H. injection H as _ Hk0. lia.
  - exists c, l. split; [reflexivity|]. simpl in H.
    destruct (Big.is_digit c); [reflexivity|]. injection H as _ Hk0 _. lia.
Qed.

(** The scanner reads back a rendered number of at most 64 bits, with or
    without a minus sign in front. *)
Lemma scan_rendered (neg : bool) (n : N) :
  (Z.of_N n <= 2 ^ 63)%Z ->
  Big.scan ((if neg then ["-"%char] else []) ++ Fmt.digits n) = Some (BFinite neg n 0).
Proof.
  intros Hn.
  destruct (digits_head n) as (c & l & Hcl & Hc).
  destruct (digit_not_special c Hc) as (Hm & Hp & Hdot & _).
  destruct (scan_digits_digits n) as (k & Hk & Hscan).
  assert (Hsign : Big.scanSign ((if neg then ["-"%char] else []) ++ Fmt.digits n)
                  = (neg, Fmt.digits n)).
  { destruct neg; simpl; [reflexivity|]. rewrite Hcl. simpl. rewrite Hm, Hp. reflexivity. }
  unfold Big.scan. rewrite Hsign. rewrite Hcl at 1.
  unfold Big.scanMantissa. rewrite Hscan.
  destruct (Nat.eqb_spec k 0) as [?|_]; [lia|].
  unfold Big.scanExponent.
  destruct (Z.eqb_spec (Z.of_N n) 0) as [Hz|Hnz].
  { f_equal. f_equal. lia. }
  assert (Hlog : (0 <= Z.log2 (Z.of_N n) < 64)%Z).
  { split; [apply Z.log2_nonneg|].
    apply Z.log2_lt_pow2; [lia|]. change (2 ^ 64)%Z with (2 * 2 ^ 63)%Z. lia. }
  assert (Hbit : Big.bitlen (Z.of_N n) = (Z.log2 (Z.of_N n) + 1)%Z).
  { unfold Big.bitlen. destruct (Z.eqb_spec (Z.of_N n) 0); [contradiction|reflexivity]. }
  change (- Z.of_nat 0 + 0)%Z with 0%Z.
  change (0 <=? 0)%Z with true. cbv iota.
  assert (Hround : Big.round (Z.of_N n * 5 ^ 0) 1 0 = (Z.of_N n, 0%Z)).
  { unfold Big.round. change (1 =? 1)%Z with true. cbv iota.
    change (5 ^ 0)%Z with 1%Z. change (2 ^ 0)%Z with 1%Z.
    rewrite !Z.mul_1_r, Z.div_1_r, Hbit. unfold Big.prec.
    destruct (Z.leb_spec (Z.log2 (Z.of_N n) + 1) 256) as [_|?]; [|lia].
    reflexivity. }
  rewrite Hround, Z.add_0_r, Hbit. unfold Big.MinExp, Big.MaxExp.
  destruct (Z.leb_spec (-2147483648) (Z.log2 (Z.of_N n) + 1)) as [_|?]; [|lia].
  destruct (Z.leb_spec (Z.log2 (Z.of_N n) + 1) 2147483647) as [_|?]; [|lia].
  destruct (Z.ltb_spec 2147483647 (Z.log2 (Z.of_N n) + 1)) as [?|_]; [lia|].
  destruct (Z.ltb_spec (Z.log2 (Z.of_N n) + 1) (-2147483648)) as [?|_]; [lia|].
  simpl. rewrite N2Z.id. reflexivity.
Qed.

Lemma not_inf_word (c : ascii) (r : string) :
  Big.is_digit c = true ->
  Big.ParseFloat (String c r) = Big.scan (list_ascii_of_string (String c r))
  /\ Big.ParseFloat (String "-" (String c r))
     = Big.scan (list_ascii_of_string (String "-" (String c r))).
Proof.
  intros Hc. destruct (digit_not_special c Hc) as (Hm & Hp & _ & HI & Hi).
  unfold Big.ParseFloat. simpl String.eqb.
  rewrite HI, Hi, Hp, Hm. simpl. split; reflexivity.
Qed.

Lemma AdaptType_rendered (z : Z) :
  (Big.MinInt64 <= z <= Big.MaxInt64)%Z -> Utils.AdaptType (Fmt.FormatInt z) = VInt z.
Proof.
  unfold Big.MinInt64, Big.MaxInt64. intros Hz.
  assert (Hgen : forall (neg : bool) (n : N),
            (Z.of_N n <= 2 ^ 63)%Z ->
            z = (if neg then - Z.of_N n else Z.of_N n)%Z ->
            Utils.AdaptType
              (string_of_list_ascii ((if neg then ["-"%char] else []) ++ Fmt.digits n))
            = VInt z).
  { intros neg n Hn Ez.
    destruct (digits_head n) as (c & l & Hcl & Hc).
    pose proof (scan_rendered neg n Hn) as Hs.
    assert (Hparse : Big.ParseFloat
              (string_of_list_ascii ((if neg then ["-"%char] else []) ++ Fmt.digits n))
              = Some (BFinite neg n 0)).
    { rewrite <- Hs. rewrite Hcl.
      destruct (not_inf_word c (string_of_list_ascii l) Hc) as [H1 H2].
      destruct neg; simpl app; simpl string_of_list_ascii.
      - rewrite H2. simpl list_ascii_of_string.
        rewrite list_ascii_of_string_of_list_ascii. reflexivity.
      - rewrite H1. simpl list_ascii_of_string.
        rewrite list_ascii_of_string_of_list_ascii. reflexivity. }
    unfold Utils.AdaptType. rewrite Hparse. simpl Big.IsInt. cbn [orb].
    unfold Big.Int64, Big.trunc, Big.MinInt64, Big.MaxInt64. cbn [Z.leb Z.compare].
    change (2 ^ 0)%Z with 1%Z. rewrite Z.mul_1_r.
    f_equal. destruct neg; lia. }
  destruct z as [|p|p]; simpl Fmt.FormatInt; unfold Fmt.FormatUint.
  - apply (Hgen false 0%N); [simpl; lia | reflexivity].
  - apply (Hgen false (Npos p)); [simpl; lia | reflexivity].
  - change (String "-" (string_of_list_ascii (Fmt.digits (N.pos p))))
      with (string_of_list_ascii (["-"%char] ++ Fmt.digits (N.pos p))).
    apply (Hgen true (Npos p)); [simpl; lia | reflexivity].
Qed.

(** C7, as the code has it.  A base-10 integer within the signed 64-bit
    range, rendered in decimal, is stored as that integer.  Beyond the
    literals, a token is an integer whenever [math/big] parses it to an
    integral value ([1.0] and [1e3] are integers), and it is then stored as
    that value when the value fits 64 bits; it is a float when it parses to
    another value, infinities included, and a string when it does not parse. *)
Theorem adapt_type_typing (z : Z) :
  (Big.MinInt64 <= z <= Big.MaxInt64)%Z ->
  Utils.AdaptType (Fmt.FormatInt z) = VInt z
  /\ Utils.AdaptType "1.0" = VInt 1 /\ Utils.AdaptType "1e3" = VInt 1000
  /\ (forall s neg m e,
        Big.ParseFloat s = Some (BFinite neg m e) -> Big.IsInt (BFinite neg m e) = true ->
        (Big.MinInt64 <= Big.trunc neg m e <= Big.MaxInt64)%Z ->
        Utils.AdaptType s = VInt (Big.trunc neg m e))
  /\ (forall s x, Big.ParseFloat s = Some x -> Big.IsInt x = false ->
        Utils.AdaptType s = VFloat x)
  /\ Utils.AdaptType "Inf" = VFloat (BInf false)
  /\ (forall s, Big.ParseFloat s = None -> Utils.AdaptType s = VString s).
Proof.
  intros Hz. split; [apply AdaptType_rendered, Hz|].
  split; [vm_compute; reflexivity|]. split; [vm_compute; reflexivity|].
  split; [|split; [|split]].
  - intros s neg m e Hp Hi Hr. unfold Utils.AdaptType. rewrite Hp, Hi.
    unfold Big.Int64. f_equal. lia.
  - intros s x Hp Hi. unfold Utils.AdaptType. rewrite Hp, Hi. reflexivity.
  - vm_compute. reflexivity.
  - intros s Hp. unfold Utils.AdaptType. rewrite Hp. reflexivity.
Qed.

Lemma adapt_type_typing_witness :
  Utils.AdaptType "-9223372036854775808" = VInt (-9223372036854775808).
Proof.
  apply (adapt_type_typing (-9223372036854775808)). vm_compute. split; discriminate.
Defined.

(** C7 as stated fails.  [1e3] is no base-10 integer and is stored as the
    integer 1000; [Inf] is no finite double and is stored as a float; and the
    base-10 integer 9223372036854775808, which overflows 64 bits, is stored as
    the integer 9223372036854775807, not as a float. *)
Lemma adapt_type_not_as_claimed :
  (SpecTyping.is_base10_integer "1e3" = false /\ Utils.AdaptType "1e3" = VInt 1000)
  /\ Utils.AdaptType "Inf" = VFloat (BInf false)
  /\ (SpecTyping.is_base10_integer "9223372036854775808" = true
      /\ Utils.AdaptType "9223372036854775808" = VInt 9223372036854775807).
Proof. vm_compute. repeat split. Qed.

(** ** C4: authorisation *)

(** C4.  The implemented [AuthorizeConnection] authorises commands that the
    conditions of the claim refuse.  GET carries the categories read and
    slow and the user is allowed read only; MGET touches the keys [a] and
    [b] and the user is allowed [a] only: [slices.ContainsFunc] over the
    categories and over the keys is satisfied by one of them, where the
    comments of the code say all, and both commands are authorised.  The
    placeholder of the first ACL authorises a connection that has not
    authenticated although a password is required. *)
Lemma authorize_connection_too_lenient :
  (SpecAcl.spec_allows false (Acl.mkConnection true (Some ExAcl.reader)) ExAcl.reader
     "get" ["read"; "slow"] ["k"] [] = false
   /\ Acl.AuthorizeConnection (ExAcl.acl ExAcl.reader) 1 ["GET"; "k"] ExAcl.get ExAcl.noSub
      = Acl.Authorized)
  /\ (SpecAcl.spec_allows false (Acl.mkConnection true (Some ExAcl.keyed)) ExAcl.keyed
        "mget" ["read"] ["a"; "b"] [] = false
      /\ Acl.AuthorizeConnection (ExAcl.acl ExAcl.keyed) 1 ["MGET"; "a"; "b"] ExAcl.mget
           ExAcl.noSub = Acl.Authorized)
  /\ (AclStub.RequirePass ExAcl.stub = true
      /\ AclStub.Connections ExAcl.stub !! 7%nat = None
      /\ AclStub.AuthorizeConnection ExAcl.stub 7 ["GET"; "k"] = None).
Proof. vm_compute. repeat split. Qed.

(** ** The per-key locks *)

Lemma set_keyLocks_id key m s :
  keyLocks s !! key = Some m -> set_keyLocks <[key := m]> s = s.
Proof.
  intros H. destruct s; unfold set_keyLocks; simpl in *. f_equal. apply insert_id, H.
Qed.

Lemma set_keyLocks_twice key m m' s :
  set_keyLocks <[key := m']> (set_keyLocks <[key := m]> s) = set_keyLocks <[key := m']> s.
Proof. destruct s; unfold set_keyLocks; simpl. f_equal. apply insert_insert_eq. Qed.

(** In a state where the lock is taken an attempt does not change that, so
    a [KeyLock] that succeeds has succeeded at its first attempt. *)
Lemma KeyLock_taken fuel ctx key : forall s s1,
  KeyLock fuel ctx key s = Ret (true, None) s1 ->
  keyLocks s !! key = Some RWMutex.new /\ s1 = set_keyLocks <[key := RWMutex.mk true 0]> s.
Proof.
  induction fuel as [|f IH]; intros s s1 H; simpl in H; [discriminate|].
  unfold bind, get in H. simpl in H.
  destruct (ctx_done ctx (rt s)); [discriminate|].
  destruct (keyLocks s !! key) as [m|] eqn:Hm; [|discriminate].
  destruct (RWMutex.TryLock m) as [m'|] eqn:Ht.
  - apply TryLock_Some in Ht as [Hfree ->].
    unfold modify, ret in H. injection H as <-. split; [|reflexivity].
    destruct m as [[] []]; try discriminate. reflexivity.
  - unfold modify in H. apply IH in H as [H _]. simpl in H.
    rewrite Hm in H. injection H as ->. discriminate.
Qed.

Lemma KeyRLock_taken fuel ctx key : forall s s1,
  KeyRLock fuel ctx key s = Ret (true, None) s1 ->
  exists n, keyLocks s !! key = Some (RWMutex.mk false n)
            /\ s1 = set_keyLocks <[key := RWMutex.mk false (S n)]> s.
Proof.
  induction fuel as [|f IH]; intros s s1 H; simpl in H; [discriminate|].
  unfold bind, get in H. simpl in H.
  destruct (ctx_done ctx (rt s)); [discriminate|].
  destruct (keyLocks s !! key) as [[w n]|] eqn:Hm; [|discriminate].
  unfold RWMutex.TryRLock in H. simpl in H. destruct w.
  - unfold modify in H. apply IH in H as (n' & H & _). simpl in H.
    rewrite Hm in H. discriminate.
  - unfold modify, ret in H. injection H as <-. exists n. split; reflexivity.
Qed.

(** X1.  A write lock taken by [KeyLock] is given back by [KeyUnlock], which
    leaves the server exactly as it was before the lock was taken; a second
    [KeyUnlock], or a [KeyRUnlock] of the write-locked key, aborts the
    process.  In the same way [KeyRUnlock] undoes [KeyRLock], and a
    [KeyUnlock] of a key that is only read-locked aborts the process. *)
Theorem key_lock_unlock_round_trip (fuel : nat) (ctx : Context) (key : string) (s s1 : Server) :
  (KeyLock fuel ctx key s = Ret (true, None) s1 ->
   KeyUnlock key s1 = Ret tt s /\ KeyUnlock key s = Fatal /\ KeyRUnlock key s1 = Fatal)
  /\ (KeyRLock fuel ctx key s = Ret (true, None) s1 ->
      KeyRUnlock key s1 = Ret tt s /\ KeyUnlock key s1 = Fatal).
Proof.
  split; intros H.
  - apply KeyLock_taken in H as [Hk ->].
    repeat split.
    + erewrite KeyUnlock_held by (simpl; apply lookup_insert_eq).
      rewrite set_keyLocks_twice. f_equal. apply set_keyLocks_id, Hk.
    + unfold KeyUnlock, bind, get, KeyExists. rewrite Hk. reflexivity.
    + unfold KeyRUnlock, bind, get, KeyExists. simpl. rewrite lookup_insert_eq. reflexivity.
  - apply KeyRLock_taken in H as (n & Hk & ->). split.
    + erewrite KeyRUnlock_held by (simpl; apply lookup_insert_eq).
      rewrite set_keyLocks_twice. f_equal. apply set_keyLocks_id, Hk.
    + unfold KeyUnlock, bind, get, KeyExists. simpl. rewrite lookup_insert_eq. reflexivity.
Qed.

Lemma key_lock_unlock_round_trip_witness :
  KeyUnlock "k" (set_keyLocks <["k" := RWMutex.mk true 0]> Ex.expired) = Ret tt Ex.expired
  /\ KeyRUnlock "k" (set_keyLocks <["k" := RWMutex.mk false 1]> Ex.expired) = Ret tt Ex.expired.
Proof.
  split.
  - apply (proj1 (key_lock_unlock_round_trip 1 Background "k" Ex.expired
                    (set_keyLocks <["k" := RWMutex.mk true 0]> Ex.expired))).
    reflexivity.
  - apply (proj2 (key_lock_unlock_round_trip 1 Background "k" Ex.expired
                    (set_keyLocks <["k" := RWMutex.mk false 1]> Ex.expired))).
    reflexivity.
Defined.

(** *** Exclusion *)

(** A lock attempt on a key that stays locked against it only lets time pass. *)
Lemma KeyLock_blocked key m ctx : forall fuel s res s',
  keyLocks s !! key = Some m -> RWMutex.TryLock m = None ->
  KeyLock fuel ctx key s = Ret res s' ->
  res = (false, Some (cause ctx)) /\ only_runtime s s' /\ ctx_done ctx (rt s') = true.
Proof.
  induction fuel as [|f IH]; intros s res s' Hm Ht H; simpl in H; [discriminate|].
  unfold bind, get in H. simpl in H.
  destruct (ctx_done ctx (rt s)) eqn:Hd.
  { injection H as <- <-. repeat split; [|exact Hd]. exists (rt s). symmetry. apply set_rt_same. }
  rewrite Hm, Ht in H. unfold modify in H.
  apply IH in H as (-> & [r ->] & Hd'); [|exact Hm|exact Ht].
  repeat split; [|exact Hd']. exists r. destruct s; reflexivity.
Qed.

Lemma KeyRLock_blocked key m ctx : forall fuel s res s',
  keyLocks s !! key = Some m -> RWMutex.TryRLock m = None ->
  KeyRLock fuel ctx key s = Ret res s' ->
  res = (false, Some (cause ctx)) /\ only_runtime s s' /\ ctx_done ctx (rt s') = true.
Proof.
  induction fuel as [|f IH]; intros s res s' Hm Ht H; simpl in H; [discriminate|].
  unfold bind, get in H. simpl in H.
  destruct (ctx_done ctx (rt s)) eqn:Hd.
  { injection H as <- <-. repeat split; [|exact Hd]. exists (rt s). symmetry. apply set_rt_same. }
  rewrite Hm, Ht in H. unfold modify in H.
  apply IH in H as (-> & [r ->] & Hd'); [|exact Hm|exact Ht].
  repeat split; [|exact Hd']. exists r. destruct s; reflexivity.
Qed.

(** With a deadline the attempt gives up when the deadline is reached. *)
Lemma KeyLock_gives_up key m ctx t : deadline ctx = Some t -> forall n s,
  keyLocks s !! key = Some m -> RWMutex.TryLock m = None ->
  (t - pollClock (rt s) <= n)%nat ->
  exists s', KeyLock (S n) ctx key s = Ret (false, Some (cause ctx)) s'.
Proof.
  intros Hdl. induction n as [|n IH]; intros s Hm Ht Hn.
  - simpl. unfold bind, get, ctx_done. rewrite Hdl.
    destruct (Nat.leb_spec t (pollClock (rt s))); [eauto|lia].
  - change (KeyLock (S (S n)) ctx key s) with
      ((let* s := get in
        if ctx_done ctx (rt s) then ret (false, Some (cause ctx))
        else match keyLocks s !! key with
             | None => ret (false, Some ("key " ++ key ++ " not found"))
             | Some m => match RWMutex.TryLock m with
                         | Some m' => let* _ := modify (set_keyLocks (insert key m')) in
                                      ret (true, None)
                         | None => let* _ := modify (set_rt tick) in KeyLock (S n) ctx key
                         end
             end) s).
    unfold bind at 1, get. destruct (ctx_done ctx (rt s)); [eauto|].
    rewrite Hm, Ht. unfold bind, modify. apply IH; simpl; [exact Hm|exact Ht|lia].
Qed.

Lemma KeyRLock_gives_up key m ctx t : deadline ctx = Some t -> forall n s,
  keyLocks s !! key = Some m -> RWMutex.TryRLock m = None ->
  (t - pollClock (rt s) <= n)%nat ->
  exists s', KeyRLock (S n) ctx key s = Ret (false, Some (cause ctx)) s'.
Proof.
  intros Hdl. induction n as [|n IH]; intros s Hm Ht Hn.
  - simpl. unfold bind, get, ctx_done. rewrite Hdl.
    destruct (Nat.leb_spec t (pollClock (rt s))); [eauto|lia].
  - change (KeyRLock (S (S n)) ctx key s) with
      ((let* s := get in
        if ctx_done ctx (rt s) then ret (false, Some (cause ctx))
        else match keyLocks s !! key with
             | None => ret (false, Some ("key " ++ key ++ " not found"))
             | Some m => match RWMutex.TryRLock m with
                         | Some m' => let* _ := modify (set_keyLocks (insert key m')) in
                                      ret (true, None)
                         | None => let* _ := modify (set_rt tick) in KeyRLock (S n) ctx key
                         end
             end) s).
    unfold bind at 1, get. destruct (ctx_done ctx (rt s)); [eauto|].
    rewrite Hm, Ht. unfold bind, modify. apply IH; simpl; [exact Hm|exact Ht|lia].
Qed.

(** Without a deadline it goes on for ever. *)
Lemma KeyLock_spins key m ctx : deadline ctx = None -> forall fuel s,
  keyLocks s !! key = Some m -> RWMutex.TryLock m = None ->
  KeyLock fuel ctx key s = OutOfFuel.
Proof.
  intros Hdl. induction fuel as [|f IH]; intros s Hm Ht; [reflexivity|].
  simpl. unfold bind, get, ctx_done. rewrite Hdl, Hm, Ht. unfold modify.
  apply IH; [exact Hm|exact Ht].
Qed.

Lemma KeyRLock_spins key m ctx : deadline ctx = None -> forall fuel s,
  keyLocks s !! key = Some m -> RWMutex.TryRLock m = None ->
  KeyRLock fuel ctx key s = OutOfFuel.
Proof.
  intros Hdl. induction fuel as [|f IH]; intros s Hm Ht; [reflexivity|].
  simpl. unfold bind, get, ctx_done. rewrite Hdl, Hm, Ht. unfold modify.
  apply IH; [exact Hm|exact Ht].
Qed.

(** X2.  While a key is write-locked no [KeyLock] and no [KeyRLock] on it
    succeeds: a call that returns reports the cause of its context and has
    changed nothing but the time that passed; with a deadline the call does
    return, once the deadline is reached; without a deadline it never
    returns. *)
Theorem write_lock_excludes (key : string) (readers : nat) (s : Server) :
  keyLocks s !! key = Some (RWMutex.mk true readers) ->
  (forall fuel ctx res s',
      KeyLock fuel ctx key s = Ret res s' \/ KeyRLock fuel ctx key s = Ret res s' ->
      res = (false, Some (cause ctx)) /\ only_runtime s s')
  /\ (forall ctx t, deadline ctx = Some t ->
      (exists s', KeyLock (S (t - pollClock (rt s))) ctx key s
                  = Ret (false, Some (cause ctx)) s')
      /\ (exists s', KeyRLock (S (t - pollClock (rt s))) ctx key s
                     = Ret (false, Some (cause ctx)) s'))
  /\ (forall fuel ctx, deadline ctx = None ->
      KeyLock fuel ctx key s = OutOfFuel /\ KeyRLock fuel ctx key s = OutOfFuel).
Proof.
  intros Hk. repeat split.
  - destruct H as [H|H];
      [eapply KeyLock_blocked in H as (? & ? & ?)|eapply KeyRLock_blocked in H as (? & ? & ?)];
      eauto.
  - destruct H as [H|H];
      [eapply KeyLock_blocked in H as (? & ? & ?)|eapply KeyRLock_blocked in H as (? & ? & ?)];
      eauto.
  - eapply KeyLock_gives_up; eauto.
  - eapply KeyRLock_gives_up; eauto.
  - eapply KeyLock_spins; eauto.
  - eapply KeyRLock_spins; eauto.
Qed.

Lemma write_lock_excludes_witness :
  exists s', KeyRLock 4 (mkContext (Some 3) "context deadline exceeded") "k" Ex.held
             = Ret (false, Some "context deadline exceeded") s'.
Proof.
  apply (proj1 (proj2 (write_lock_excludes "k" 0 Ex.held eq_refl))
           (mkContext (Some 3) "context deadline exceeded") 3 eq_refl).
Defined.

(** X3.  A read lock admits further readers and keeps writers out: on a key
    that is read-locked and not write-locked, [KeyRLock] succeeds at once and
    counts one more reader, while a [KeyLock] that returns has failed with
    the cause of its context. *)
Theorem read_lock_is_shared (fuel : nat) (ctx : Context) (key : string) (n : nat) (s : Server) :
  keyLocks s !! key = Some (RWMutex.mk false (S n)) ->
  ctx_done ctx (rt s) = false ->
  KeyRLock (S fuel) ctx key s
  = Ret (true, None) (set_keyLocks <[key := RWMutex.mk false (S (S n))]> s)
  /\ (forall res s', KeyLock fuel ctx key s = Ret res s' ->
      res = (false, Some (cause ctx)) /\ only_runtime s s')
  /\ (deadline ctx = None -> KeyLock fuel ctx key s = OutOfFuel).
Proof.
  intros Hk Hd. repeat split.
  - apply (KeyRLock_free fuel ctx key s _ Hd Hk). reflexivity.
  - eapply KeyLock_blocked in H as (? & ? & ?); eauto.
  - eapply KeyLock_blocked in H as (? & ? & ?); eauto.
  - intros Hdl. eapply KeyLock_spins; eauto.
Qed.

Lemma read_lock_is_shared_witness :
  KeyRLock 1 Background "k" (set_keyLocks <["k" := RWMutex.mk false 1]> Ex.expired)
  = Ret (true, None)
      (set_keyLocks <["k" := RWMutex.mk false 2]>
         (set_keyLocks <["k" := RWMutex.mk false 1]> Ex.expired)).
Proof.
  apply (read_lock_is_shared 0 Background "k" 0
           (set_keyLocks <["k" := RWMutex.mk false 1]> Ex.expired)); reflexivity.
Defined.

(** ** The server mutexes *)

Lemma keeps_ret {A} (a : A) : keeps_mutexes (ret a).
Proof. intros s a' s' [= _ <-]. reflexivity. Qed.

Lemma keeps_get : keeps_mutexes get.
Proof. intros s a' s' [= _ <-]. reflexivity. Qed.

Lemma keeps_spin {A} : keeps_mutexes (@spin A).
Proof. intros s a s' [=]. Qed.

Lemma keeps_fatal {A} : keeps_mutexes (@fatal A).
Proof. intros s a s' [=]. Qed.

Lemma keeps_modify f : (forall s, mutexes (f s) = mutexes s) -> keeps_mutexes (modify f).
Proof. intros Hf s a s' H. unfold modify in H. injection H as H. subst s'. apply Hf. Qed.

Lemma keeps_liftRt {A} (f : Runtime -> A * Runtime) : keeps_mutexes (liftRt f).
Proof. intros s a s' H. rewrite liftRt_Ret in H. injection H as _ <-. reflexivity. Qed.

Lemma keeps_bind {A B} (m : M A) (k : A -> M B) :
  keeps_mutexes m -> (forall a, keeps_mutexes (k a)) -> keeps_mutexes (bind m k).
Proof.
  intros Hm Hk s b s' H. apply bind_Ret in H as (a & s1 & H1 & H2).
  apply Hm in H1. apply Hk in H2. congruence.
Qed.

(** [mu.Lock(); defer mu.Unlock()]: the mutex is free again when the
    function has returned. *)
Lemma keeps_locked {A} n (body : M A) : keeps_mutexes body -> keeps_mutexes (Mutex.locked n body).
Proof.
  intros Hb s a s' H. apply Mutex_locked_Ret in H as (Hfree & s2 & H & ->).
  apply Hb in H. simpl in *. rewrite H.
  destruct n, (mutexes s) as [a1 a2 a3]; simpl in *; subst; reflexivity.
Qed.

Ltac keeps :=
  repeat first
    [ assumption
    | apply keeps_ret | apply keeps_get | apply keeps_spin | apply keeps_fatal
    | apply keeps_liftRt
    | apply keeps_modify; intros ?; reflexivity
    | apply keeps_locked
    | apply keeps_bind; [|intros ?]
    | match goal with |- keeps_mutexes (if ?c then _ else _) => destruct c end
    | match goal with |- keeps_mutexes (match ?x with _ => _ end) => destruct x end ].

Lemma KeyLock_mutexes fuel ctx key : keeps_mutexes (KeyLock fuel ctx key).
Proof. induction fuel as [|f IH]; simpl; keeps. Qed.

Lemma KeyRLock_mutexes fuel ctx key : keeps_mutexes (KeyRLock fuel ctx key).
Proof. induction fuel as [|f IH]; simpl; keeps. Qed.

Lemma KeyUnlock_mutexes key : keeps_mutexes (KeyUnlock key).
Proof. unfold KeyUnlock. keeps. Qed.

Lemma KeyRUnlock_mutexes key : keeps_mutexes (KeyRUnlock key).
Proof. unfold KeyRUnlock. keeps. Qed.

Lemma CreateKeyAndLock_mutexes fuel ctx key : keeps_mutexes (CreateKeyAndLock fuel ctx key).
Proof. pose proof (KeyLock_mutexes fuel ctx key). unfold CreateKeyAndLock. keeps. Qed.

Lemma evictVictim_mutexes fuel ctx wrap key : keeps_mutexes (evictVictim fuel ctx wrap key).
Proof. pose proof (KeyLock_mutexes fuel ctx key). unfold evictVictim. keeps. Qed.

Lemma evictLoop_mutexes ctx pick wrap :
  keeps_mutexes pick -> forall fuel, keeps_mutexes (evictLoop fuel ctx pick wrap).
Proof.
  intros Hp. induction fuel as [|f IH]; simpl; [keeps|].
  apply keeps_bind; [exact Hp|]. intros [e|k]; [keeps|].
  apply keeps_bind; [apply evictVictim_mutexes|]. intros [r|]; keeps.
Qed.

Lemma pickLFU_mutexes : keeps_mutexes pickLFU.
Proof. unfold pickLFU. keeps. Qed.

Lemma pickLRU_mutexes : keeps_mutexes pickLRU.
Proof. unfold pickLRU. keeps. Qed.

Lemma pickRandom_mutexes {V} (m : Server -> gmap string V) msg : keeps_mutexes (pickRandom m msg).
Proof. unfold pickRandom. keeps. Qed.

Lemma adjustMemoryUsage_mutexes fuel ctx : keeps_mutexes (adjustMemoryUsage fuel ctx).
Proof.
  pose proof (evictLoop_mutexes ctx _ (fun e => "adjustMemoryUsage -> LFU cache eviction: " ++ e)
                pickLFU_mutexes fuel).
  pose proof (evictLoop_mutexes ctx _ (fun e => "adjustMemoryUsage -> LRU cache eviction: " ++ e)
                pickLRU_mutexes fuel).
  pose proof (evictLoop_mutexes ctx _ (fun e => "adjustMemoryUsage -> all keys random: " ++ e)
                (pickRandom_mutexes keyLocks
                   "adjustMemoryUsage -> all keys random: no keys to evict") fuel).
  pose proof (evictLoop_mutexes ctx _ (fun e => "adjustMemoryUsage -> volatile keys random: " ++ e)
                (pickRandom_mutexes keyExpiry
                   "adjustMemoryUsage -> volatile keys random: no volatile keys to evict") fuel).
  unfold adjustMemoryUsage. keeps.
Qed.

Lemma updateKeyInCache_mutexes fuel ctx key : keeps_mutexes (updateKeyInCache fuel ctx key).
Proof. pose proof (adjustMemoryUsage_mutexes fuel ctx). unfold updateKeyInCache. keeps. Qed.

Lemma GetValue_mutexes fuel ctx key : keeps_mutexes (GetValue fuel ctx key).
Proof. pose proof (updateKeyInCache_mutexes fuel ctx key). unfold GetValue. keeps. Qed.

Lemma SetValue_mutexes fuel ctx key v : keeps_mutexes (SetValue fuel ctx key v).
Proof. pose proof (updateKeyInCache_mutexes fuel ctx key). unfold SetValue. keeps. Qed.

Lemma SetKeyExpiry_mutexes fuel ctx key t touch : keeps_mutexes (SetKeyExpiry fuel ctx key t touch).
Proof. pose proof (updateKeyInCache_mutexes fuel ctx key). unfold SetKeyExpiry. keeps. Qed.

Lemma RemoveKeyExpiry_mutexes key : keeps_mutexes (RemoveKeyExpiry key).
Proof. unfold RemoveKeyExpiry. keeps. Qed.

Lemma step_mutexes s s' : step s s' -> mutexes s' = mutexes s.
Proof.
  intros H. destruct H as [? ? ? ? ? ? H|? ? ? H|? ? ? ? ? ? H|? ? ? H|? ? ? ? ? ? H
                          |? ? ? ? ? ? H|? ? ? ? ? ? ? _ H|? ? ? ? ? ? ? _ H|? ? ? _ H].
  - eapply KeyLock_mutexes, H.
  - eapply KeyUnlock_mutexes, H.
  - eapply KeyRLock_mutexes, H.
  - eapply KeyRUnlock_mutexes, H.
  - eapply CreateKeyAndLock_mutexes, H.
  - eapply GetValue_mutexes, H.
  - eapply SetValue_mutexes, H.
  - eapply SetKeyExpiry_mutexes, H.
  - eapply RemoveKeyExpiry_mutexes, H.
Qed.

(** X4.  No keyspace function returns with a server mutex in its hands: a
    call that returns leaves the key-creation mutex and the two cache mutexes
    as it found them, so in every state the keyspace reaches from a new
    server the three mutexes are free. *)
Theorem server_mutexes_released (c : Config) (r : Runtime) (s : Server) :
  reachable c r s ->
  mutexes s = mkMutexes false false false
  /\ forall s', step s s' -> mutexes s' = mkMutexes false false false.
Proof.
  intros H.
  assert (Hs : mutexes s = mkMutexes false false false).
  { unfold reachable in H.
    assert (Hinit : mutexes (NewServer c r) = mkMutexes false false false) by reflexivity.
    induction H as [|s1 s2 s3 H12 _ IH]; [exact Hinit|].
    apply IH. rewrite (step_mutexes _ _ H12). exact Hinit. }
  split; [exact Hs|]. intros s' H'. rewrite (step_mutexes _ _ H'). exact Hs.
Qed.

Lemma server_mutexes_released_witness : mutexes Ex.held = mkMutexes false false false.
Proof.
  apply (proj1 (server_mutexes_released Ex.cfg0 (Ex.rt_const 0) Ex.held
    (rtc_l _ _ _ _
       (step_CreateKeyAndLock 1 Background "k" Ex.s0 (true, None) Ex.held eq_refl)
       (rtc_refl _ _)))).
Defined.

(** ** Memory adjustment *)

Lemma read_below_after_read s :
  (heapInuse (rt s) (memReads (rt s)) <? MaxMemory (config s))%N = true ->
  read_below (set_rt (fun _ => snd (ReadMemStats (rt s))) s).
Proof. intros H. exists (memReads (rt s)). split; [reflexivity|]. simpl. apply N.ltb_lt, H. Qed.

Lemma evictVictim_below fuel ctx wrap key s s' :
  evictVictim fuel ctx wrap key s = Ret (Some None) s' -> read_below s' /\ config s' = config s.
Proof.
  unfold evictVictim. intros H.
  apply bind_Ret in H as ([b e] & s1 & Hlock & H). simpl in H.
  destruct e as [e|]; [discriminate|].
  apply KeyLock_inv in Hlock as [(e0 & [=] & _)|(_ & m & _ & _ & Hc & _)].
  unfold bind, modify, get in H. rewrite liftRt_Ret in H. simpl in H.
  match type of H with (if ?c then _ else _) _ = _ => destruct c eqn:Hlt end;
    [|discriminate].
  unfold ret in H. injection H as <-. split; [|exact Hc].
  eexists. split; [reflexivity|]. simpl. apply N.ltb_lt. exact Hlt.
Qed.

Lemma evictLoop_below ctx pick wrap :
  picks_only pick ->
  forall fuel s s', evictLoop fuel ctx pick wrap s = Ret None s' ->
                    read_below s' /\ config s' = config s.
Proof.
  intros Hp. induction fuel as [|f IH]; intros s s' H; simpl in H; [discriminate|].
  apply bind_Ret in H as (v & s1 & Hv & H). apply Hp in Hv as (Hc1 & _).
  destruct v as [e|key]; [discriminate|].
  apply bind_Ret in H as (o & s2 & Ho & H).
  destruct o as [[e|]|].
  - discriminate.
  - unfold ret in H. injection H as <-.
    apply evictVictim_below in Ho as [Hb Hc]. split; [exact Hb|congruence].
  - apply evictVictim_evolves in Ho as [Hc2 _].
    apply IH in H as [Hb Hc]. split; [exact Hb|congruence].
Qed.

Lemma locked_below {A} n (body : M A) s a s' :
  (forall s0 s1, body s0 = Ret a s1 -> read_below s1 /\ config s1 = config s0) ->
  Mutex.locked n body s = Ret a s' -> read_below s' /\ config s' = config s.
Proof.
  intros Hb H. apply Mutex_locked_Ret in H as (_ & s2 & H & ->).
  apply Hb in H as [(k & H1 & H2) Hc]. split; [exists k; split; assumption|exact Hc].
Qed.

(** X5.  Under an evicting policy and a memory limit, [adjustMemoryUsage]
    returns [nil] only after a heap reading below the limit: the last reading
    it took was below [MaxMemory].  (When memory cannot be brought below the
    limit it returns an error, or goes on evicting.) *)
Theorem adjust_nil_means_below_limit (fuel : nat) (ctx : Context) (s s' : Server) :
  (0 < MaxMemory (config s))%N ->
  Strings.Contains
    [Utils.AllKeysLFU; Utils.VolatileLFU; Utils.AllKeysLRU; Utils.VolatileLRU;
     Utils.AllKeysRandom; Utils.VolatileRandom]
    (Strings.ToLower (EvictionPolicy (config s))) = true ->
  adjustMemoryUsage fuel ctx s = Ret None s' ->
  config s' = config s
  /\ exists n, memReads (rt s') = S n /\ (heapInuse (rt s') n < MaxMemory (config s))%N.
Proof.
  intros Hmax Hpol H.
  cut (read_below s' /\ config s' = config s).
  { intros [(n & H1 & H2) Hc]. split; [exact Hc|]. exists n. rewrite <- Hc. split; assumption. }
  unfold adjustMemoryUsage in H. unfold bind at 1, get in H.
  destruct (N.eqb_spec (MaxMemory (config s)) 0); [lia|].
  rewrite (bind_eq _ _ _ _ _ (liftRt_Ret ReadMemStats s)) in H.
  unfold ReadMemStats at 1 in H. cbn [fst] in H.
  destruct (heapInuse (rt s) (memReads (rt s)) <? MaxMemory (config s))%N eqn:H1.
  { unfold ret in H. injection H as <-. split; [|reflexivity]. apply read_below_after_read, H1. }
  unfold bind at 1, modify in H.
  rewrite (bind_eq _ _ _ _ _ (liftRt_Ret ReadMemStats _)) in H.
  unfold ReadMemStats at 1 in H. cbn [fst] in H.
  match type of H with (if ?c then _ else _) _ = _ => destruct c eqn:H2 end.
  { unfold ret in H. injection H as <-. split; [|reflexivity].
    eexists. split; [reflexivity|]. simpl. apply N.ltb_lt. exact H2. }
  set (s2 := set_rt _ _) in H.
  assert (Hc2 : config s2 = config s) by reflexivity.
  assert (Hloop : forall pick wrap s0 s1, picks_only pick ->
            evictLoop fuel ctx pick wrap s0 = Ret None s1 ->
            read_below s1 /\ config s1 = config s0).
  { intros pick wrap s0 s1 Hp. apply evictLoop_below, Hp. }
  repeat match type of H with (if ?c then _ else _) _ = _ => destruct c eqn:? end.
  - eapply locked_below in H; [exact H|]. intros s0 s1. apply Hloop, pickLFU_only.
  - eapply locked_below in H; [exact H|]. intros s0 s1. apply Hloop, pickLRU_only.
  - eapply Hloop in H; [exact H|]. apply pickRandom_only.
  - eapply Hloop in H; [exact H|]. apply pickRandom_only.
  - exfalso. unfold Strings.Contains in *. simpl in *.
    repeat match goal with
           | E : (_ || _)%bool = false |- _ => apply orb_false_iff in E as [? ?]
           end.
    repeat match goal with E : String.eqb _ _ = false |- _ => rewrite E in Hpol end.
    discriminate.
Qed.

Lemma adjust_nil_means_below_limit_witness :
  exists n,
    memReads (rt (state_after (adjustMemoryUsage 3 Background
                                 (Samples.relieved Utils.AllKeysRandom))
                              Ex.s0)) = S n
    /\ (heapInuse Samples.rt_relieved n < 100)%N.
Proof.
  apply (adjust_nil_means_below_limit 3 Background (Samples.relieved Utils.AllKeysRandom)
           (state_after (adjustMemoryUsage 3 Background (Samples.relieved Utils.AllKeysRandom))
                        Ex.s0)).
  - reflexivity.
  - reflexivity.
  - vm_compute. reflexivity.
Defined.

Lemma not_cache_policy p :
  Strings.ToLower p = Utils.VolatileRandom ->
  Strings.Contains [Utils.AllKeysLFU; Utils.VolatileLFU] p = false
  /\ Strings.Contains [Utils.AllKeysLRU; Utils.VolatileLRU] p = false.
Proof.
  intros H. unfold Strings.Contains. simpl.
  split; repeat match goal with
         | |- context [String.eqb p ?x] =>
             destruct (String.eqb_spec p x) as [->|_]; [vm_compute in H; discriminate|]
         end; reflexivity.
Qed.

Lemma evictVictim_free fuel ctx wrap key s m :
  ctx_done ctx (rt s) = false -> keyLocks s !! key = Some m -> RWMutex.held m = false ->
  evictVictim (S fuel) ctx wrap key s
  = Ret (if (heapInuse (rt s) (memReads (rt s)) <? MaxMemory (config s))%N
         then Some None else None)
        (evictedState key s).
Proof.
  intros Hd Hk Hf. unfold evictVictim.
  rewrite (bind_eq _ _ _ _ _ (KeyLock_free fuel ctx key s m Hd Hk Hf)).
  cbn [snd]. unfold bind, modify, get. rewrite liftRt_Ret.
  unfold evictedState. destruct s as [c st kl ke lf lr mu cc r].
  unfold set_rt, set_keyLocks, set_keyExpiry, set_store, ReadMemStats, GC. simpl.
  rewrite delete_insert_eq.
  destruct (heapInuse r (memReads r) <? MaxMemory c)%N; reflexivity.
Qed.

Lemma pickRandom_single {V} (m : Server -> gmap string V) msg key (v : V) s :
  m s = {[key := v]} -> rangeOrder (rt s) [key] = [key] ->
  pickRandom m msg s = Ret (inr key) (set_rt (fun r => snd (Intn 1 r)) s).
Proof.
  intros Hm Hr. unfold pickRandom, bind, get. rewrite Hm.
  rewrite map_size_singleton. cbn [Nat.eqb]. rewrite liftRt_Ret.
  unfold Intn at 1. cbn [fst rt set_rt].
  rewrite dom_singleton_L, elements_singleton, Hr. rewrite Nat.mod_1_r. reflexivity.
Qed.
(** X6.  [RemoveKeyExpiry] does not take the key out of the expiry map: it
    stores the zero time for it.  So the key still counts as volatile, and
    under [volatile-random], when memory is at the limit, a key whose expiry
    was removed is the one that gets evicted: value, lock and expiry entry are
    deleted. *)
Theorem removed_expiry_stays_volatile (fuel : nat) (ctx : Context) (key : string) (t : Time)
  (s : Server) :
  keyExpiry s = {[key := t]} ->
  keyLocks s !! key = Some RWMutex.new ->
  Strings.ToLower (EvictionPolicy (config s)) = Utils.VolatileRandom ->
  (0 < MaxMemory (config s))%N ->
  (MaxMemory (config s) <= heapInuse (rt s) (memReads (rt s)))%N ->
  (MaxMemory (config s) <= heapInuse (rt s) (S (memReads (rt s))))%N ->
  (heapInuse (rt s) (S (S (memReads (rt s)))) < MaxMemory (config s))%N ->
  ctx_done ctx (rt s) = false ->
  rangeOrder (rt s) [key] = [key] ->
  exists s1 s2,
    RemoveKeyExpiry key s = Ret tt s1
    /\ keyExpiry s1 = {[key := zeroTime]}
    /\ adjustMemoryUsage (S (S fuel)) ctx s1 = Ret None s2
    /\ KeyExists key s2 = false /\ store s2 !! key = None
    /\ keyExpiry s2 !! key = None.
Proof.
  intros He Hl Hp Hmax H1 H2 H3 Hd Hr.
  destruct (not_cache_policy _ Hp) as [Hn1 Hn2].
  exists (set_keyExpiry <[key := zeroTime]> s). eexists.
  split.
  { unfold RemoveKeyExpiry, bind, modify, get. cbn [config set_keyExpiry]. rewrite Hn1, Hn2. reflexivity. }
  split.
  { simpl. rewrite He. apply insert_singleton_eq. }
  unfold adjustMemoryUsage, bind at 1, get.
  cbn [config set_keyExpiry].
  destruct (N.eqb_spec (MaxMemory (config s)) 0); [lia|].
  rewrite (bind_eq _ _ _ _ _ (liftRt_Ret ReadMemStats _)).
  unfold ReadMemStats at 1. cbn [fst rt set_keyExpiry].
  destruct (N.ltb_spec (heapInuse (rt s) (memReads (rt s))) (MaxMemory (config s))); [lia|].
  unfold bind at 1, modify.
  rewrite (bind_eq _ _ _ _ _ (liftRt_Ret ReadMemStats _)).
  unfold ReadMemStats at 1. cbn [fst snd rt set_rt set_keyExpiry GC ReadMemStats memReads heapInuse].
  destruct (N.ltb_spec (heapInuse (rt s) (S (memReads (rt s)))) (MaxMemory (config s))); [lia|].
  rewrite Hp. cbn [Strings.Contains existsb].
  repeat match goal with
         | |- context [String.eqb ?a ?b] =>
             let v := eval vm_compute in (String.eqb a b) in change (String.eqb a b) with v
         end.
  cbv beta iota delta [orb].
  match goal with |- evictLoop _ _ _ _ ?st = _ /\ _ => set (s1 := st) end.
  assert (He1 : keyExpiry s1 = {[key := zeroTime]}).
  { subst s1. simpl. rewrite He. apply insert_singleton_eq. }
  assert (Hr1 : rangeOrder (rt s1) [key] = [key]) by exact Hr.
  cbn [evictLoop].
  rewrite (bind_eq _ _ _ _ _ (pickRandom_single keyExpiry _ key zeroTime s1 He1 Hr1)).
  rewrite (bind_eq _ _ _ _ _ (evictVictim_free fuel ctx _ key
             (set_rt (fun r => snd (Intn 1 r)) s1) RWMutex.new Hd Hl eq_refl)).
  replace (heapInuse (rt (set_rt (fun r : Runtime => snd (Intn 1 r)) s1))
             (memReads (rt (set_rt (fun r : Runtime => snd (Intn 1 r)) s1)))
           <? MaxMemory (config (set_rt (fun r : Runtime => snd (Intn 1 r)) s1)))%N
    with true by (symmetry; apply N.ltb_lt; exact H3).
  split; [reflexivity|].
  unfold KeyExists, evictedState. simpl. rewrite !lookup_delete_eq. repeat split; reflexivity.
Qed.

Lemma removed_expiry_stays_volatile_witness :
  exists s1 s2,
    RemoveKeyExpiry "k" (Samples.relieved Utils.VolatileRandom) = Ret tt s1
    /\ keyExpiry s1 = {["k" := zeroTime]}
    /\ adjustMemoryUsage 2 Background s1 = Ret None s2
    /\ KeyExists "k" s2 = false /\ store s2 !! "k" = None
    /\ keyExpiry s2 !! "k" = None.
Proof.
  apply (removed_expiry_stays_volatile 0 Background "k" 5%Z
           (Samples.relieved Utils.VolatileRandom)); try reflexivity.
  - vm_compute. discriminate.
  - vm_compute. discriminate.
Defined.

Import Strconv Internal.

(** ** Reading back a rendered number *)

Lemma digitOf_digit_char d : (d < 10)%N -> digitOf (Fmt.digit_char d) = Some d.
Proof.
  intros Hd. unfold digitOf, Fmt.digit_char. rewrite N_ascii_embedding by lia.
  destruct (N.leb_spec 48 (48 + d)); [|lia].
  destruct (N.leb_spec (48 + d) 57); [|lia]. simpl. f_equal. lia.
Qed.

Lemma parseUintLoop_step d tl a :
  (d < 10)%N -> (a * 10 + d <= maxUint64)%N ->
  parseUintLoop (Fmt.digit_char d :: tl) a = parseUintLoop tl (a * 10 + d).
Proof.
  intros Hd Hmax. simpl. rewrite digitOf_digit_char by exact Hd.
  destruct (N.leb_spec 10 d); [lia|].
  unfold maxUint64, cutoff10 in *.
  destruct (N.leb_spec 1844674407370955162 a); [lia|].
  rewrite N.mod_small by lia.
  destruct (N.ltb_spec (a * 10 + d) (a * 10)); [lia|].
  destruct (N.ltb_spec 18446744073709551615 (a * 10 + d)); [lia|]. reflexivity.
Qed.

(** Reading the digits that [digits_go] has put in front of [tl]. *)
Lemma parseUintLoop_digits_go fuel : forall n tl,
  (n < 10 ^ N.of_nat fuel)%N -> (0 < fuel)%nat ->
  exists k, forall a,
    (a * 10 ^ k + n <= maxUint64)%N ->
    parseUintLoop (Fmt.digits_go fuel n tl) a = parseUintLoop tl (a * 10 ^ k + n).
Proof.
  induction fuel as [|f IH]; intros n tl Hn Hf; [lia|].
  simpl Fmt.digits_go.
  assert (Hd : (n mod 10 < 10)%N) by (apply N.mod_lt; lia).
  destruct (N.eqb_spec (n / 10) 0) as [Hz|Hnz].
  - exists 1%N. intros a Ha.
    assert (n mod 10 = n)%N as Hm.
    { rewrite (N.div_mod n 10) at 2 by lia. rewrite Hz. lia. }
    rewrite Hm in *. rewrite N.pow_1_r in *. apply parseUintLoop_step; assumption.
  - destruct f as [|f'].
    { exfalso. apply Hnz. apply N.div_small. simpl in Hn. lia. }
    destruct (IH (n / 10)%N (Fmt.digit_char (n mod 10) :: tl)) as (k & Hscan); [|lia|].
    { apply N.Div0.div_lt_upper_bound.
      replace (N.of_nat (S (S f'))) with (N.succ (N.of_nat (S f'))) in Hn by lia.
      rewrite N.pow_succ_r' in Hn. exact Hn. }
    exists (N.succ k). intros a Ha.
    rewrite N.pow_succ_r' in *.
    replace (a * (10 * 10 ^ k))%N with (10 * (a * 10 ^ k))%N in * by ring.
    assert (Hdm : (n = 10 * (n / 10) + n mod 10)%N) by (apply N.div_mod; lia).
    specialize (Hscan a). generalize dependent (a * 10 ^ k)%N. intros q Hscan Ha.
    assert (Hq : (q + n / 10 <= maxUint64)%N /\ ((q + n / 10) * 10 + n mod 10 = 10 * q + n)%N).
    { clear - Ha Hdm. generalize dependent (n / 10)%N. generalize (n mod 10)%N. intros. lia. }
    destruct Hq as [Hq1 Hq2].
    rewrite Hscan by exact Hq1.
    rewrite parseUintLoop_step; [rewrite Hq2; reflexivity|exact Hd|rewrite Hq2; exact Ha].
Qed.

Lemma parseUintLoop_digits n :
  (n <= maxUint64)%N -> parseUintLoop (Fmt.digits n) 0 = inl n.
Proof.
  intros Hn. unfold Fmt.digits.
  destruct (parseUintLoop_digits_go _ n [] (digits_enough n)) as (k & H); [lia|].
  rewrite H by (simpl; exact Hn). reflexivity.
Qed.

Lemma wrap64_small z : (- 2 ^ 63 <= z < 2 ^ 63)%Z -> wrap64 z = z.
Proof. intros H. unfold wrap64. rewrite Z.mod_small by lia. lia. Qed.

Lemma ParseUint_digits n : (n <= maxUint64)%N -> ParseUint (Fmt.digits n) = inl n.
Proof.
  intros Hn. unfold ParseUint. destruct (digits_head n) as (c & l & E & _).
  rewrite <- (parseUintLoop_digits n Hn). rewrite E. reflexivity.
Qed.

(** [strconv.ParseInt] reads back what [strconv.FormatInt] has written. *)
Lemma ParseInt_FormatInt z :
  (Big.MinInt64 <= z <= Big.MaxInt64)%Z ->
  ParseInt (list_ascii_of_string (Fmt.FormatInt z)) = inl z.
Proof.
  unfold Big.MinInt64, Big.MaxInt64. intros Hz.
  assert (Hpos : forall n, (Z.of_N n < 2 ^ 63)%Z ->
            ParseInt (Fmt.digits n) = inl (Z.of_N n)).
  { intros n Hn. unfold ParseInt.
    destruct (digits_head n) as (c & l & E & Hc).
    destruct (digit_not_special c Hc) as (Hm & Hp & _).
    rewrite E, Hp, Hm, <- E.
    rewrite ParseUint_digits by (unfold maxUint64; lia).
    destruct (N.leb_spec (2 ^ 63) n); [lia|]. simpl.
    f_equal. apply wrap64_small. lia. }
  destruct z as [|p|p]; unfold Fmt.FormatInt, Fmt.FormatUint.
  - rewrite list_ascii_of_string_of_list_ascii. apply (Hpos 0%N). lia.
  - rewrite list_ascii_of_string_of_list_ascii. simpl Z.to_N. rewrite (Hpos (N.pos p)); [reflexivity|lia].
  - simpl list_ascii_of_string. rewrite list_ascii_of_string_of_list_ascii.
    unfold ParseInt. simpl Ascii.eqb. cbv iota.
    rewrite ParseUint_digits by (unfold maxUint64; lia).
    simpl negb. cbv iota beta. simpl andb.
    destruct (N.ltb_spec (2 ^ 63) (N.pos p)); [lia|].
    f_equal.
    destruct (Z.eq_dec (Z.pos p) (2 ^ 63)%Z) as [E|E].
    + change (Z.of_N (N.pos p)) with (Z.pos p). rewrite E. vm_compute.
      assert (Z.neg p = - Z.pos p)%Z as -> by reflexivity. rewrite E. reflexivity.
    + rewrite (wrap64_small (Z.of_N (N.pos p))) by lia.
      rewrite wrap64_small by lia. reflexivity.
Qed.

(** ** Strings as byte sequences *)

Lemma list_ascii_app s t :
  list_ascii_of_string (s ++ t) = (list_ascii_of_string s ++ list_ascii_of_string t)%list.
Proof. induction s as [|c s IH]; simpl; [reflexivity|]. rewrite IH. reflexivity. Qed.

Lemma list_ascii_length s : length (list_ascii_of_string s) = String.length s.
Proof. induction s as [|c s IH]; simpl; [reflexivity|]. rewrite IH. reflexivity. Qed.

Lemma ToLower_length s : String.length (Strings.ToLower s) = String.length s.
Proof. induction s as [|c s IH]; simpl; [reflexivity|]. rewrite IH. reflexivity. Qed.

Lemma wrap64_mod z : (wrap64 z mod 2 ^ 64 = z mod 2 ^ 64)%Z.
Proof.
  unfold wrap64. rewrite Zminus_mod_idemp_l. f_equal. lia.
Qed.

(** ** [ParseMemory] *)

(** X7.  [ParseMemory] reads an amount written in decimal followed by one of
    the units kb, mb, gb, tb, pb in any mix of cases, and returns the amount
    times the unit's power of 1024 as a [uint64], that is modulo [2^64]: a
    product that does not fit wraps around, and a negative amount becomes a
    large limit. *)
Theorem parse_memory_scales (z : Z) (unit : string) (factor : Z) :
  (Big.MinInt64 <= z <= Big.MaxInt64)%Z ->
  In (Strings.ToLower unit, factor)
     [("kb", 2 ^ 10); ("mb", 2 ^ 20); ("gb", 2 ^ 30); ("tb", 2 ^ 40); ("pb", 2 ^ 50)]%Z ->
  ParseMemory (Fmt.FormatInt z ++ unit) = Some (inl (Z.to_N ((z * factor) mod 2 ^ 64))).
Proof.
  intros Hz Hu.
  assert (Hlen : String.length unit = 2%nat).
  { rewrite <- ToLower_length.
    simpl in Hu. destruct Hu as [E|[E|[E|[E|[E|[]]]]]]; injection E as <- _; reflexivity. }
  unfold ParseMemory. rewrite list_ascii_app, length_app, (list_ascii_length unit), Hlen.
  destruct (Nat.ltb_spec (length (list_ascii_of_string (Fmt.FormatInt z)) + 2) 2); [lia|].
  replace (length (list_ascii_of_string (Fmt.FormatInt z)) + 2 - 2)%nat
    with (length (list_ascii_of_string (Fmt.FormatInt z))) by lia.
  rewrite take_app_length, drop_app_length, string_of_list_ascii_of_string.
  rewrite (ParseInt_FormatInt z Hz).
  simpl in Hu.
  destruct Hu as [E|[E|[E|[E|[E|[]]]]]]; injection E as <- <-; cbn [String.eqb Ascii.eqb Bool.eqb];
    cbv iota beta; rewrite wrap64_mod; reflexivity.
Qed.

Lemma parse_memory_scales_witness :
  ParseMemory "-1Kb" = Some (inl 18446744073709550592%N)
  /\ ParseMemory "100mb" = Some (inl 104857600%N).
Proof.
  split.
  - apply (parse_memory_scales (-1) "Kb" (2 ^ 10)); [vm_compute; split; discriminate|].
    left. reflexivity.
  - apply (parse_memory_scales 100 "mb" (2 ^ 20)); [vm_compute; split; discriminate|].
    right. left. reflexivity.
Defined.

Lemma digits_go_all fuel : forall n acc,
  Forall (fun c => Big.is_digit c = true) acc ->
  Forall (fun c => Big.is_digit c = true) (Fmt.digits_go fuel n acc).
Proof.
  induction fuel as [|f IH]; intros n acc Hacc; simpl; [exact Hacc|].
  assert (Hc : Forall (fun c => Big.is_digit c = true) (Fmt.digit_char (n mod 10) :: acc)).
  { constructor; [|exact Hacc]. apply digit_char_spec. apply N.mod_lt. lia. }
  destruct (n / 10 =? 0)%N; [exact Hc|]. apply IH, Hc.
Qed.

Lemma digits_all n : Forall (fun c => Big.is_digit c = true) (Fmt.digits n).
Proof. apply digits_go_all. constructor. Qed.

(** Two digits are not a unit. *)
Lemma digits_no_unit c1 c2 :
  Big.is_digit c1 = true ->
  let u := Strings.ToLower (String c1 (String c2 EmptyString)) in
  String.eqb u "kb" = false /\ String.eqb u "mb" = false /\ String.eqb u "gb" = false
  /\ String.eqb u "tb" = false /\ String.eqb u "pb" = false.
Proof.
  destruct c1 as [[] [] [] [] [] [] [] []]; vm_compute; intros H;
    first [discriminate H | repeat split].
Qed.

(** X8.  [ParseMemory] panics on a string of fewer than two bytes, and it
    never accepts a number without a unit: the last two bytes are always
    taken for the unit, so a bare decimal number is refused (or panics, when
    it has one digit). *)
Theorem parse_memory_needs_unit :
  (forall memory, (String.length memory < 2)%nat -> ParseMemory memory = None)
  /\ (forall n bytes, ParseMemory (Fmt.FormatUint n) <> Some (inl bytes)).
Proof.
  split.
  - intros memory H. unfold ParseMemory. rewrite list_ascii_length.
    destruct (Nat.ltb_spec (String.length memory) 2); [reflexivity|lia].
  - intros n bytes. unfold ParseMemory, Fmt.FormatUint.
    rewrite list_ascii_of_string_of_list_ascii.
    destruct (Nat.ltb_spec (length (Fmt.digits n)) 2) as [|Hlen]; [discriminate|].
    destruct (ParseInt (take (length (Fmt.digits n) - 2) (Fmt.digits n))); [|discriminate].
    pose proof (Forall_drop _ (length (Fmt.digits n) - 2) _ (digits_all n)) as Hall.
    assert (Hl : length (drop (length (Fmt.digits n) - 2) (Fmt.digits n)) = 2%nat)
      by (rewrite length_drop; lia).
    destruct (drop (length (Fmt.digits n) - 2) (Fmt.digits n)) as [|c1 [|c2 [|c3 l]]];
      try discriminate Hl.
    apply Forall_cons in Hall as [H1 _].
    destruct (digits_no_unit c1 c2 H1) as (E1 & E2 & E3 & E4 & E5).
    cbn [string_of_list_ascii]. cbv zeta in E1, E2, E3, E4, E5.
    rewrite E1, E2, E3, E4, E5. discriminate.
Qed.

Lemma parse_memory_needs_unit_witness : ParseMemory "5" = None.
Proof. apply (proj1 parse_memory_needs_unit "5"). simpl. lia. Defined.

(** ** [EncodeCommand] *)

Lemma digits_go_app fuel : forall n acc,
  Fmt.digits_go fuel n acc = (Fmt.digits_go fuel n [] ++ acc)%list.
Proof.
  induction fuel as [|f IH]; intros n acc; simpl; [reflexivity|].
  destruct (n / 10 =? 0)%N; [reflexivity|].
  rewrite (IH _ (_ :: acc)), (IH _ [_]). rewrite <- app_assoc. reflexivity.
Qed.

(** A rendered number is read back when something that is no digit follows. *)
Lemma digits_delimited a b c c' r r' :
  Big.is_digit c = false -> Big.is_digit c' = false ->
  (Fmt.digits a ++ c :: r = Fmt.digits b ++ c' :: r')%list ->
  a = b /\ c :: r = c' :: r'.
Proof.
  intros Hc Hc' E.
  assert (Hscan : forall n x tl, Big.is_digit x = false ->
            exists k, Big.scan_digits (Fmt.digits n ++ x :: tl) 0 0 = (Z.of_N n, k, x :: tl)).
  { intros n x tl Hx. unfold Fmt.digits. rewrite <- digits_go_app.
    destruct (scan_digits_go _ n (x :: tl) (digits_enough n)) as (k & _ & H); [lia|].
    exists k. rewrite H. simpl. rewrite Hx. reflexivity. }
  destruct (Hscan a c r Hc) as (k & Ha). destruct (Hscan b c' r' Hc') as (k' & Hb).
  rewrite E in Ha. rewrite Ha in Hb. injection Hb as H1 _ H3 H4.
  split; [lia|congruence].
Qed.

Lemma bulkBytes_spec token :
  list_ascii_of_string
    ("$" ++ Fmt.d (String.length token) ++ SetModule.CRLF ++ token ++ SetModule.CRLF)
  = bulkBytes token.
Proof.
  unfold bulkBytes, Fmt.d, Fmt.FormatUint. rewrite !list_ascii_app.
  rewrite list_ascii_of_string_of_list_ascii. reflexivity.
Qed.

Lemma EncodeCommand_fold cmd : forall acc,
  list_ascii_of_string
    (fold_left
       (fun res token =>
          res ++ "$" ++ Fmt.d (String.length token) ++ SetModule.CRLF ++ token ++ SetModule.CRLF)
       cmd acc)
  = (list_ascii_of_string acc ++ flat_map bulkBytes cmd)%list.
Proof.
  induction cmd as [|t cmd IH]; intros acc; simpl fold_left.
  - simpl. rewrite app_nil_r. reflexivity.
  - rewrite IH. rewrite list_ascii_app, bulkBytes_spec. simpl flat_map.
    rewrite <- app_assoc. reflexivity.
Qed.

Lemma bulkBytes_injective : forall cmd1 cmd2,
  flat_map bulkBytes cmd1 = flat_map bulkBytes cmd2 -> cmd1 = cmd2.
Proof.
  induction cmd1 as [|t1 cmd1 IH]; intros [|t2 cmd2] E;
    [reflexivity|discriminate|discriminate|].
  cbn [flat_map] in E. unfold bulkBytes at 1 3 in E.
  rewrite <- !app_comm_cons in E. injection E as E.
  rewrite <- !app_assoc in E. simpl in E.
  apply digits_delimited in E as [Hlen E]; [|reflexivity|reflexivity].
  injection E as E. rewrite <- !app_assoc in E.
  apply app_inj_1 in E as [Ht E].
  2:{ rewrite !list_ascii_length. lia. }
  injection E as E. f_equal.
  - rewrite <- (string_of_list_ascii_of_string t1), Ht. apply string_of_list_ascii_of_string.
  - apply IH, E.
Qed.

(** X9.  [EncodeCommand] loses nothing: two commands with the same encoding
    are the same list of tokens, whatever bytes the tokens hold (line ends
    and dollar signs included), because every token is written after its
    length. *)
Theorem encode_command_injective (cmd1 cmd2 : list string) :
  EncodeCommand cmd1 = EncodeCommand cmd2 -> cmd1 = cmd2.
Proof.
  intros E. apply (f_equal list_ascii_of_string) in E.
  unfold EncodeCommand in E. rewrite !EncodeCommand_fold in E.
  rewrite !list_ascii_app in E. unfold Fmt.d, Fmt.FormatUint in E.
  rewrite !list_ascii_of_string_of_list_ascii in E. simpl in E. injection E as E.
  rewrite <- !app_assoc in E. simpl in E.
  apply digits_delimited in E as [_ E]; [|reflexivity|reflexivity].
  injection E as E. apply bulkBytes_injective, E.
Qed.

Lemma encode_command_injective_witness :
  ["SET"; "k"; "a" ++ SetModule.CRLF ++ "$1"] = "SET" :: drop 1 ["GET"; "k"; "a" ++ SetModule.CRLF ++ "$1"].
Proof.
  apply (encode_command_injective
           ["SET"; "k"; "a" ++ SetModule.CRLF ++ "$1"]
           ("SET" :: drop 1 ["GET"; "k"; "a" ++ SetModule.CRLF ++ "$1"])).
  reflexivity.
Defined.

(** ** [AbsInt] *)

(** X10.  [AbsInt] returns the absolute value of every [int] but the smallest
    one: negating [-2^63] wraps around, and [AbsInt] returns that negative
    number itself. *)
Theorem abs_int_but_smallest (n : Z) :
  (Big.MinInt64 <= n <= Big.MaxInt64)%Z ->
  (n <> Big.MinInt64 -> AbsInt n = Z.abs n /\ (0 <= AbsInt n)%Z)
  /\ AbsInt Big.MinInt64 = Big.MinInt64.
Proof.
  unfold Big.MinInt64, Big.MaxInt64, AbsInt. intros Hn. split; [|reflexivity].
  intros Hne. destruct (Z.ltb_spec n 0).
  - rewrite wrap64_small by lia. lia.
  - lia.
Qed.

Lemma abs_int_but_smallest_witness : AbsInt (-42) = 42%Z.
Proof.
  apply (proj1 (abs_int_but_smallest (-42) ltac:(vm_compute; split; discriminate))).
  discriminate.
Defined.

(** ** [FilterExpiredKeys] *)

Lemma fold_delete_lookup (keys : list string) : forall (state : gmap string KeyData) k,
  fold_left (fun st key => delete key st) keys state !! k
  = if bool_decide (k ∈ keys) then None else state !! k.
Proof.
  induction keys as [|x keys IH]; intros state k; simpl; [reflexivity|].
  rewrite IH. destruct (decide (k = x)) as [->|Hne].
  - rewrite lookup_delete_eq. rewrite (bool_decide_eq_true_2 (x ∈ x :: keys)) by left.
    destruct (bool_decide (x ∈ keys)); reflexivity.
  - rewrite lookup_delete_ne by congruence.
    destruct (decide (k ∈ keys)) as [Hin|Hnin].
    + rewrite !bool_decide_eq_true_2; [reflexivity|right; exact Hin|exact Hin].
    + rewrite !bool_decide_eq_false_2; [reflexivity| |exact Hnin].
      intros [->|H]%elem_of_cons; contradiction.
Qed.

(** Which keys the first loop marks. *)
Lemma expiredKeys_sound now state keys : forall reads acc k,
  k ∈ expiredKeys now state keys reads acc ->
  k ∈ acc \/ exists v i, state !! k = Some v /\ ExpireAt v <> zeroTime
                         /\ (ExpireAt v < now i)%Z.
Proof.
  induction keys as [|x keys IH]; intros reads acc k H; simpl in H; [left; exact H|].
  destruct (state !! x) as [v|] eqn:Hx; [|apply IH in H; exact H].
  destruct (Z.eqb_spec (ExpireAt v) zeroTime); [apply IH in H; exact H|].
  destruct (Z.ltb_spec (ExpireAt v) (now reads)).
  - apply IH in H as [H|H]; [|right; exact H].
    apply elem_of_app in H as [H|H]; [left; exact H|].
    apply list_elem_of_singleton in H as ->. right. eauto.
  - apply IH in H. exact H.
Qed.

Lemma expiredKeys_keeps now state keys : forall reads acc k,
  k ∈ acc -> k ∈ expiredKeys now state keys reads acc.
Proof.
  induction keys as [|x keys IH]; intros reads acc k H; simpl; [exact H|].
  destruct (state !! x) as [v|]; [|apply IH, H].
  destruct (ExpireAt v =? zeroTime)%Z; [apply IH, H|].
  destruct (ExpireAt v <? now reads)%Z; apply IH; [|exact H].
  apply elem_of_app. left. exact H.
Qed.

Lemma expiredKeys_complete now state keys : forall reads acc k v,
  k ∈ keys -> state !! k = Some v -> ExpireAt v <> zeroTime ->
  (forall i, (ExpireAt v < now i)%Z) ->
  k ∈ expiredKeys now state keys reads acc.
Proof.
  induction keys as [|x keys IH]; intros reads acc k v Hin Hk Hz Hexp; [inversion Hin|].
  simpl. apply elem_of_cons in Hin as [<-|Hin].
  - rewrite Hk. destruct (Z.eqb_spec (ExpireAt v) zeroTime); [contradiction|].
    destruct (Z.ltb_spec (ExpireAt v) (now reads)); [|specialize (Hexp reads); lia].
    apply expiredKeys_keeps, elem_of_app. right. apply list_elem_of_singleton. reflexivity.
  - destruct (state !! x) as [w|]; [|eapply IH; eassumption].
    destruct (ExpireAt w =? zeroTime)%Z; [eapply IH; eassumption|].
    destruct (ExpireAt w <? now reads)%Z; eapply IH; eassumption.
Qed.

(** X11.  [FilterExpiredKeys] only removes keys that have expired: when
    every reading of the clock lies between [t0] and [t1], a key without
    expiry and a key that expires at [t1] or later keep their data, a key
    whose expiry lies before [t0] is removed, and no key gets other data
    than it had. *)
Theorem filter_expired_keys_keeps_live (order : list string -> list string) (now : nat -> Time)
  (t0 t1 : Time) (state : gmap string KeyData) (k : string) :
  (forall l, order l ≡ₚ l) ->
  (forall i, (t0 <= now i <= t1)%Z) ->
  let filtered := FilterExpiredKeys order now state in
  (filtered !! k = None \/ filtered !! k = state !! k)
  /\ forall v, state !! k = Some v ->
       (ExpireAt v = zeroTime \/ (t1 <= ExpireAt v)%Z -> filtered !! k = Some v)
       /\ (ExpireAt v <> zeroTime -> (ExpireAt v < t0)%Z -> filtered !! k = None).
Proof.
  intros Hperm Hnow filtered. subst filtered. unfold FilterExpiredKeys.
  rewrite fold_delete_lookup. split.
  { destruct (bool_decide _); [left|right]; reflexivity. }
  intros v Hk. split.
  - intros Hlive. rewrite bool_decide_eq_false_2; [exact Hk|].
    intros Hin. apply expiredKeys_sound in Hin as [Hin|(w & i & Hw & Hz & Hlt)].
    + inversion Hin.
    + rewrite Hk in Hw. injection Hw as <-. specialize (Hnow i).
      destruct Hlive as [Hlive|Hlive]; [contradiction|lia].
  - intros Hz Hlt. rewrite bool_decide_eq_true_2; [reflexivity|].
    eapply expiredKeys_complete; [|exact Hk|exact Hz|].
    + rewrite Hperm. apply elem_of_elements, elem_of_dom. eauto.
    + intros i. specialize (Hnow i). lia.
Qed.

Lemma filter_expired_keys_keeps_live_witness :
  FilterExpiredKeys (fun l => l) (fun _ => 10%Z)
    {["a" := mkKeyData (VInt 1) zeroTime; "b" := mkKeyData (VInt 2) 5%Z]} !! "b" = None.
Proof.
  destruct (filter_expired_keys_keeps_live (fun l => l) (fun _ => 10%Z) 10%Z 10%Z
              {["a" := mkKeyData (VInt 1) zeroTime; "b" := mkKeyData (VInt 2) 5%Z]} "b")
    as [_ H].
  - reflexivity.
  - intros i. lia.
  - apply (H (mkKeyData (VInt 2) 5%Z)); [reflexivity|discriminate|reflexivity].
Defined.

(** ** Key extraction *)

Import Slices.

(** X12.  The key functions of the list commands never panic: the length
    test guards every index.  On a command of the wrong length they return
    the wrong-arguments error, and otherwise the keys, which are the words
    that follow the command name: one key, or two for LMOVE. *)
Theorem list_key_funcs_safe (f : ListKeys.KeyFunc) (cmd : list string) :
  In f ListKeys.all ->
  f cmd = Some (inr Utils.WRONG_ARGS_RESPONSE)
  \/ exists keys, f cmd = Some (inl keys) /\ keys <> []
                  /\ keys = take (length keys) (drop 1 cmd).
Proof.
  intros Hf. unfold ListKeys.all in Hf. simpl in Hf.
  repeat destruct Hf as [<-|Hf]; try contradiction;
    destruct cmd as [|c [|k1 [|k2 [|k3 [|k4 [|k5 rest]]]]]];
    first [ left; reflexivity
          | right; eexists; split; [reflexivity|]; split; [discriminate|reflexivity] ].
Qed.

Lemma list_key_funcs_safe_witness :
  ListKeys.lmoveKeyFunc ["LMOVE"; "src"; "dst"; "LEFT"; "RIGHT"] = Some (inl ["src"; "dst"]).
Proof.
  destruct (list_key_funcs_safe ListKeys.lmoveKeyFunc ["LMOVE"; "src"; "dst"; "LEFT"; "RIGHT"])
    as [H|(keys & H & _)].
  - unfold ListKeys.all. simpl. tauto.
  - discriminate H.
  - reflexivity.
Defined.

Lemma evens_pairs (pairs : list (string * string)) :
  evens (flat_map (fun kv => [fst kv; snd kv]) pairs) = map fst pairs.
Proof. induction pairs as [|[k v] pairs IH]; simpl; [reflexivity|]. rewrite IH. reflexivity. Qed.

Lemma length_pairs (pairs : list (string * string)) :
  length (flat_map (fun kv => [fst kv; snd kv]) pairs) = (length pairs * 2)%nat.
Proof. induction pairs as [|[k v] pairs IH]; simpl; [reflexivity|]. rewrite IH. lia. Qed.

(** X13.  For an MSET command made of key-value pairs, [msetKeyFunc] returns
    exactly the keys of the pairs, in order (as write keys, in the later
    version); with a value missing it returns the pairing error; and on the
    empty command it panics, because it slices before it looks at the
    length. *)
Theorem mset_key_func_pairs (name : string) (pairs : list (string * string)) (extra : string) :
  let cmd := name :: flat_map (fun kv => [fst kv; snd kv]) pairs in
  EtcKeys.msetKeyFunc cmd = Some (inl (map fst pairs))
  /\ GenericKeys.msetKeyFunc cmd
     = Some (inl (GenericKeys.mkAccessKeys [] [] (map fst pairs)))
  /\ EtcKeys.msetKeyFunc (cmd ++ [extra])%list = Some (inr "each key must be paired with a value")
  /\ GenericKeys.msetKeyFunc (cmd ++ [extra])%list
     = Some (inr "each key must be paired with a value")
  /\ EtcKeys.msetKeyFunc [] = None /\ GenericKeys.msetKeyFunc [] = None.
Proof.
  intros cmd. subst cmd.
  unfold EtcKeys.msetKeyFunc, GenericKeys.msetKeyFunc, from. cbn -[Nat.modulo].
  rewrite !drop_0, !length_app, !length_pairs, evens_pairs.
  rewrite Nat.Div0.mod_mul. change (length [extra]) with 1%nat.
  rewrite (Nat.add_comm _ 1), Nat.Div0.mod_add. repeat split.
Qed.

Lemma evens_subset n : forall l k, (length l <= n)%nat -> k ∈ evens l -> k ∈ l.
Proof.
  induction n as [|n IH]; intros l k Hn H.
  - destruct l; simpl in *; [exact H|lia].
  - destruct l as [|x [|y l]]; simpl in *; [exact H|exact H|].
    apply elem_of_cons in H as [->|H]; [left|]. right. right. apply IH; [lia|exact H].
Qed.

(** X14.  The key functions of the generic commands do not panic on a command
    that has its name, report no channel, report read keys or write keys but
    never both, and report only words of the command that follow its name. *)
Theorem generic_key_funcs_safe (f : GenericKeys.KeyFunc) (cmd : list string) :
  In f GenericKeys.all -> cmd <> [] ->
  exists res, f cmd = Some res
    /\ forall keys, res = inl keys ->
         GenericKeys.Channels keys = []
         /\ (GenericKeys.ReadKeys keys = [] \/ GenericKeys.WriteKeys keys = [])
         /\ forall k, k ∈ (GenericKeys.ReadKeys keys ++ GenericKeys.WriteKeys keys)%list ->
                      k ∈ drop 1 cmd.
Proof.
  intros Hf Hcmd. destruct cmd as [|c args]; [contradiction|]. clear Hcmd.
  unfold GenericKeys.all in Hf. simpl in Hf.
  assert (Hev : forall k, k ∈ evens args -> k ∈ args).
  { intros k. apply (evens_subset (length args)). lia. }
  repeat destruct Hf as [<-|Hf]; try contradiction;
    unfold GenericKeys.setKeyFunc, GenericKeys.msetKeyFunc, GenericKeys.getKeyFunc,
      GenericKeys.mgetKeyFunc, GenericKeys.delKeyFunc, GenericKeys.persistKeyFunc,
      GenericKeys.expireTimeKeyFunc, GenericKeys.ttlKeyFunc,
      GenericKeys.expireKeyFunc, GenericKeys.expireAtKeyFunc, from, between;
    (destruct args as [|x rest];
     [ eexists; split; [reflexivity|]; intros keys E; inversion E; subst; simpl;
       repeat split; auto; intros k Hk; inversion Hk
     | cbn -[Nat.modulo evens]; rewrite ?drop_0;
       repeat match goal with |- context [if ?b then _ else _] => destruct b end;
       (eexists; split; [reflexivity|]); intros keys E; inversion E; subst; simpl;
       repeat split; auto; intros k Hk; rewrite ?app_nil_r, ?take_0 in Hk; simpl in Hk;
       auto ]).
  all: apply list_elem_of_singleton in Hk as ->; left.
Qed.

Lemma generic_key_funcs_safe_witness :
  exists res, GenericKeys.delKeyFunc ["DEL"; "a"; "b"] = Some res
    /\ forall keys, res = inl keys ->
         GenericKeys.Channels keys = []
         /\ (GenericKeys.ReadKeys keys = [] \/ GenericKeys.WriteKeys keys = [])
         /\ forall k, k ∈ (GenericKeys.ReadKeys keys ++ GenericKeys.WriteKeys keys)%list ->
                      k ∈ ["a"; "b"].
Proof.
  apply (generic_key_funcs_safe GenericKeys.delKeyFunc ["DEL"; "a"; "b"]).
  - unfold GenericKeys.all. simpl. tauto.
  - discriminate.
Defined.

Import SetModule StrCmd.

(** ** The string commands *)

Lemma counted_config s : config (counted s) = config s.
Proof. unfold counted. destruct (negb _); reflexivity. Qed.

Lemma counted_keyLocks s : keyLocks (counted s) = keyLocks s.
Proof. unfold counted. destruct (negb _); reflexivity. Qed.

Lemma counted_store s : store (counted s) = store s.
Proof. unfold counted. destruct (negb _); reflexivity. Qed.

Lemma counted_rt s : rt (counted s) = rt s.
Proof. unfold counted. destruct (negb _); reflexivity. Qed.

(** A read lock taken and given back on a server without memory limit: the
    value is read and the server is as before. *)
Lemma read_locked_get fuel ctx key s n :
  MaxMemory (config s) = 0%N -> ctx_done ctx (rt s) = false ->
  keyLocks s !! key = Some (RWMutex.mk false n) ->
  (let* _ := KeyRLock (S fuel) ctx key in
   let* value := GetValue (S fuel) ctx key in
   let* _ := KeyRUnlock key in
   ret value) s = Ret (store s !! key) s.
Proof.
  intros Hmax Hd Hk.
  set (s1 := set_keyLocks <[key := RWMutex.mk false (S n)]> s).
  rewrite (bind_eq _ _ _ _ _ (KeyRLock_free fuel ctx key s _ Hd Hk eq_refl)).
  cbn [RWMutex.readers]. fold s1.
  rewrite (bind_eq _ _ _ _ _ (GetValue_no_limit (S fuel) ctx key s1 Hmax)).
  rewrite (bind_eq _ _ _ _ _ (KeyRUnlock_held key s1 false n (lookup_insert_eq _ _ _))).
  unfold ret. subst s1. simpl. f_equal. rewrite set_keyLocks_twice. apply set_keyLocks_id, Hk.
Qed.

Lemma KeyRUnlock_absent key s : keyLocks s !! key = None -> KeyRUnlock key s = Ret tt s.
Proof. intros H. unfold KeyRUnlock, bind, get, KeyExists. rewrite H. reflexivity. Qed.

Section StringProperties.

Variable sprintFloat : BigFloat -> string.
Variable sprintSet : SetT -> string.

Lemma handleGet_unlocked fuel ctx c key s n :
  MaxMemory (config s) = 0%N -> ctx_done ctx (rt s) = false ->
  keyLocks s !! key = Some (RWMutex.mk false n) ->
  handleGet sprintFloat sprintSet (S fuel) ctx [c; key] s
  = Ret (Reply ("+" ++ render sprintFloat sprintSet (store s !! key) ++ CRLF ++ LF)) s.
Proof.
  intros Hmax Hd Hk. unfold StrCmd.handleGet. cbn [length Nat.eqb negb arg nth].
  pose proof (read_locked_get fuel ctx key s n Hmax Hd Hk) as H.
  unfold bind in *. 
  destruct (KeyRLock (S fuel) ctx key s) as [r1 s1| |]; try discriminate.
  destruct (GetValue (S fuel) ctx key s1) as [v s2| |]; try discriminate.
  destruct (KeyRUnlock key s2) as [[] s3| |]; try discriminate.
  unfold ret in *. injection H as -> ->. reflexivity.
Qed.

(** X15.  Read your writes at the protocol: on a server without memory limit
    and a key that is absent or unlocked, SET answers OK and stores the value
    as [AdaptType] types it, and the GET that follows answers that value as
    [%v] prints it, leaving the server as SET left it; a decimal integer that
    fits in 64 bits comes back as it was written. *)
Theorem set_then_get (fuel fuel' : nat) (ctx ctx' : Context) (c c' key value : string)
  (s : Server) :
  MaxMemory (config s) = 0%N ->
  keyCreationLock (mutexes s) = false ->
  ctx_done ctx (rt s) = false -> ctx_done ctx' (rt s) = false ->
  keyLocks s !! key = None \/ keyLocks s !! key = Some RWMutex.new ->
  exists s1,
    handleSet (S fuel) ctx [c; key; value] s = Ret (Reply OK) s1
    /\ store s1 !! key = Some (Utils.AdaptType value)
    /\ handleGet sprintFloat sprintSet (S fuel') ctx' [c'; key] s1
       = Ret (Reply ("+" ++ Sprint sprintFloat sprintSet (Utils.AdaptType value)
                         ++ CRLF ++ LF)) s1
    /\ forall z, (Big.MinInt64 <= z <= Big.MaxInt64)%Z -> value = Fmt.FormatInt z ->
                 Sprint sprintFloat sprintSet (Utils.AdaptType value) = value.
Proof.
  intros Hmax Hmu Hd Hd' Hk.
  set (v := Utils.AdaptType value).
  set (sA := set_keyLocks <[key := RWMutex.mk true 0]> s).
  set (sB := counted (set_store <[key := v]> sA)).
  exists (set_keyLocks <[key := RWMutex.mk false 0]> sB).
  assert (Htail : (let* _ := SetValue (S fuel) ctx key v in
                   let* _ := KeyUnlock key in ret (Reply OK)) sA
                  = Ret (Reply OK) (set_keyLocks <[key := RWMutex.mk false 0]> sB)).
  { rewrite (bind_eq _ _ _ _ _ (SetValue_no_limit (S fuel) ctx key v sA Hmax)).
    fold sB.
    rewrite (bind_eq _ _ _ _ _ (KeyUnlock_held key sB 0 ltac:(
      subst sB sA; rewrite counted_keyLocks; simpl; apply lookup_insert_eq))).
    reflexivity. }
  split; [|split; [|split]].
  - unfold handleSet. cbn [length Nat.eqb negb arg nth]. unfold bind at 1, get, KeyExists.
    destruct Hk as [Hk|Hk]; rewrite Hk; cbn [negb].
    + rewrite (bind_eq _ _ _ _ _ (CreateKeyAndLock_new (S fuel) ctx key s Hmax Hmu Hk)).
      exact Htail.
    + rewrite (bind_eq _ _ _ _ _ (KeyLock_free fuel ctx key s _ Hd Hk eq_refl)).
      cbn [snd]. exact Htail.
  - simpl. subst sB. rewrite counted_store. simpl. apply lookup_insert_eq.
  - rewrite (handleGet_unlocked fuel' ctx' c' key _ 0).
    + simpl. subst sB. rewrite counted_store. simpl. rewrite lookup_insert_eq. reflexivity.
    + simpl. subst sB. rewrite counted_config. exact Hmax.
    + simpl. subst sB. rewrite counted_rt. exact Hd'.
    + simpl. apply lookup_insert_eq.
  - intros z Hz ->. subst v. rewrite (AdaptType_rendered z Hz). reflexivity.
Qed.

(** X17.  GET does not look at what [KeyRLock] returns.  On a key that is
    write-locked until the deadline of the context is reached, GET gives up
    the lock attempt, reads the value without a lock and then read-unlocks a
    lock it does not hold, which aborts the process; with a context that has
    no deadline the command never returns. *)
Theorem get_on_write_locked_key (n : nat) (ctx : Context) (c key : string) (s : Server) :
  keyLocks s !! key = Some (RWMutex.mk true 0) ->
  MaxMemory (config s) = 0%N ->
  (forall t, deadline ctx = Some t -> (t - pollClock (rt s) <= n)%nat ->
             handleGet sprintFloat sprintSet (S n) ctx [c; key] s = Fatal)
  /\ (deadline ctx = None ->
      forall fuel, handleGet sprintFloat sprintSet fuel ctx [c; key] s = OutOfFuel).
Proof.
  intros Hk Hmax. split.
  - intros t Hdl Hn.
    destruct (KeyRLock_gives_up key _ ctx t Hdl n s Hk eq_refl Hn) as [s' Hr].
    pose proof (KeyRLock_blocked key _ ctx _ _ _ _ Hk eq_refl Hr) as (_ & [r ->] & _).
    unfold StrCmd.handleGet. cbn [length Nat.eqb negb arg nth].
    rewrite (bind_eq _ _ _ _ _ Hr).
    rewrite (bind_eq _ _ _ _ _ (GetValue_no_limit (S n) ctx key (set_rt (fun _ => r) s) Hmax)).
    assert (Hu : KeyRUnlock key (set_rt (fun _ => r) s) = Fatal).
    { unfold KeyRUnlock, bind, get, KeyExists. cbn [keyLocks set_rt]. rewrite Hk. reflexivity. }
    unfold bind at 1. rewrite Hu. reflexivity.
  - intros Hdl fuel. unfold StrCmd.handleGet. cbn [length Nat.eqb negb arg nth].
    unfold bind. rewrite (KeyRLock_spins key _ ctx Hdl fuel s Hk eq_refl). reflexivity.
Qed.

Lemma mgetValues_unlocked fuel ctx s :
  MaxMemory (config s) = 0%N -> ctx_done ctx (rt s) = false ->
  forall keys vals,
  (forall k m, k ∈ keys -> keyLocks s !! k = Some m -> RWMutex.writer m = false) ->
  mgetValues sprintFloat sprintSet (S fuel) ctx keys vals s
  = Ret (vals ++ map (fun k => render sprintFloat sprintSet (store s !! k)) keys)%list s.
Proof.
  intros Hmax Hd. induction keys as [|k keys IH]; intros vals Hfree.
  - simpl. rewrite app_nil_r. reflexivity.
  - assert (Hrest : forall k0 m, k0 ∈ keys -> keyLocks s !! k0 = Some m ->
                                 RWMutex.writer m = false).
    { intros k0 m Hin. apply Hfree. right. exact Hin. }
    cbn [mgetValues].
    assert (Hstep : forall s1 r,
              KeyRLock (S fuel) ctx k s = Ret r s1 ->
              MaxMemory (config s1) = 0%N -> store s1 = store s ->
              KeyRUnlock k s1 = Ret tt s ->
              (let* _ := KeyRLock (S fuel) ctx k in
               let* value := GetValue (S fuel) ctx k in
               let* vals' :=
                 match value with
                 | None => ret (vals ++ ["nil"])%list
                 | Some _ =>
                     let* again := GetValue (S fuel) ctx k in
                     ret (vals ++ [match again with
                                   | Some v => Sprint sprintFloat sprintSet v
                                   | None => "<nil>"
                                   end])%list
                 end in
               let* _ := KeyRUnlock k in
               mgetValues sprintFloat sprintSet (S fuel) ctx keys vals') s
              = Ret (vals ++ map (fun k => render sprintFloat sprintSet (store s !! k))
                                 (k :: keys))%list s).
    { intros s1 r Hr Hm1 Hst Hu.
      rewrite (bind_eq _ _ _ _ _ Hr).
      rewrite (bind_eq _ _ _ _ _ (GetValue_no_limit (S fuel) ctx k s1 Hm1)).
      rewrite Hst. destruct (store s !! k) as [v|] eqn:Hv.
      - assert (Hin : (let* again := GetValue (S fuel) ctx k in
                       ret (vals ++ [match again with
                                     | Some v => Sprint sprintFloat sprintSet v
                                     | None => "<nil>"
                                     end])%list) s1
                      = Ret (vals ++ [Sprint sprintFloat sprintSet v])%list s1).
        { rewrite (bind_eq _ _ _ _ _ (GetValue_no_limit (S fuel) ctx k s1 Hm1)).
          rewrite Hst, Hv. reflexivity. }
        rewrite (bind_eq _ _ _ _ _ Hin).
        rewrite (bind_eq _ _ _ _ _ Hu). rewrite (IH _ Hrest).
        simpl. rewrite Hv, <- app_assoc. reflexivity.
      - unfold ret at 1. unfold bind at 1.
        rewrite (bind_eq _ _ _ _ _ Hu). rewrite (IH _ Hrest).
        simpl. rewrite Hv, <- app_assoc. reflexivity. }
    destruct (keyLocks s !! k) as [[w n]|] eqn:Hk.
    + assert (w = false) as -> by (apply (Hfree k _ ltac:(left) Hk)).
      eapply Hstep.
      * apply (KeyRLock_free fuel ctx k s _ Hd Hk eq_refl).
      * exact Hmax.
      * reflexivity.
      * rewrite (KeyRUnlock_held k _ false n (lookup_insert_eq _ _ _)).
        f_equal. rewrite set_keyLocks_twice. apply set_keyLocks_id, Hk.
    + eapply Hstep.
      * simpl. unfold bind, get. rewrite Hd, Hk. reflexivity.
      * exact Hmax.
      * reflexivity.
      * apply KeyRUnlock_absent, Hk.
Qed.

(** X18.  On a server without memory limit, MGET over keys of which none is
    write-locked answers one bulk string per key, in the order asked: the
    value as [%v] prints it, or nil for a key that holds nothing.  Every read
    lock it takes is given back: the server is left as it was. *)
Theorem mget_answers_every_key (fuel : nat) (ctx : Context) (c key : string)
  (keys : list string) (s : Server) :
  MaxMemory (config s) = 0%N -> ctx_done ctx (rt s) = false ->
  (forall k m, k ∈ key :: keys -> keyLocks s !! k = Some m -> RWMutex.writer m = false) ->
  handleMGet sprintFloat sprintSet (S fuel) ctx (c :: key :: keys) s
  = Ret (Reply (mgetReply (map (fun k => render sprintFloat sprintSet (store s !! k))
                               (key :: keys)))) s.
Proof.
  intros Hmax Hd Hfree. unfold StrCmd.handleMGet.
  cbn [length Nat.ltb Nat.leb drop].
  rewrite (bind_eq _ _ _ _ _ (mgetValues_unlocked fuel ctx s Hmax Hd (key :: keys) [] Hfree)).
  reflexivity.
Qed.

End StringProperties.

Lemma set_then_get_witness :
  exists s1,
    handleSet 1 Background ["SET"; "k"; "42"] Ex.s0 = Ret (Reply OK) s1
    /\ store s1 !! "k" = Some (Utils.AdaptType "42")
    /\ handleGet Samples2.noFloat Samples2.noSet 1 Background ["GET"; "k"] s1
       = Ret (Reply ("+" ++ Sprint Samples2.noFloat Samples2.noSet (Utils.AdaptType "42")
                         ++ CRLF ++ LF)) s1
    /\ forall z, (Big.MinInt64 <= z <= Big.MaxInt64)%Z -> "42" = Fmt.FormatInt z ->
                 Sprint Samples2.noFloat Samples2.noSet (Utils.AdaptType "42") = "42".
Proof.
  apply (set_then_get Samples2.noFloat Samples2.noSet 0 0 Background Background
           "SET" "GET" "k" "42" Ex.s0); try reflexivity.
  left. reflexivity.
Defined.

Lemma get_on_write_locked_key_witness :
  handleGet Samples2.noFloat Samples2.noSet 4
    (mkContext (Some 3) "context deadline exceeded") ["GET"; "k"] Ex.held = Fatal.
Proof.
  apply (proj1 (get_on_write_locked_key Samples2.noFloat Samples2.noSet 3
                  (mkContext (Some 3) "context deadline exceeded") "GET" "k" Ex.held
                  eq_refl eq_refl) 3 eq_refl).
  simpl. lia.
Defined.

Lemma mget_answers_every_key_witness :
  handleMGet Samples2.noFloat Samples2.noSet 1 Background ["MGET"; "k"; "missing"] Ex.expired
  = Ret (Reply (mgetReply ["v"; "nil"])) Ex.expired.
Proof.
  apply (mget_answers_every_key Samples2.noFloat Samples2.noSet 0 Background "MGET" "k"
           ["missing"] Ex.expired); try reflexivity.
  intros k m Hin Hk.
  apply elem_of_cons in Hin as [->|Hin].
  - vm_compute in Hk. injection Hk as <-. reflexivity.
  - apply list_elem_of_singleton in Hin as ->. vm_compute in Hk. discriminate Hk.
Defined.

Import SetModule SetMore.

(** ** The set commands that read one key *)

(** What is done under the read lock of [key], when it leaves the server
    alone. *)
Lemma under_read_lock fuel ctx key s n (body : M reply) (r : reply) :
  ctx_done ctx (rt s) = false -> keyLocks s !! key = Some (RWMutex.mk false n) ->
  body (set_keyLocks <[key := RWMutex.mk false (S n)]> s)
  = Ret r (set_keyLocks <[key := RWMutex.mk false (S n)]> s) ->
  (let* r0 := KeyRLock (S fuel) ctx key in
   match snd r0 with
   | Some e => ret (Err e)
   | None => let* res := body in let* _ := KeyRUnlock key in ret res
   end) s = Ret r s.
Proof.
  intros Hd Hk Hb.
  rewrite (bind_eq _ _ _ _ _ (KeyRLock_free fuel ctx key s _ Hd Hk eq_refl)).
  cbn [snd RWMutex.readers]. rewrite (bind_eq _ _ _ _ _ Hb).
  rewrite (bind_eq _ _ _ _ _ (KeyRUnlock_held key _ false n (lookup_insert_eq _ _ _))).
  unfold ret. f_equal. rewrite set_keyLocks_twice. apply set_keyLocks_id, Hk.
Qed.

(** X19.  SCARD, SISMEMBER, SMISMEMBER and SMEMBERS leave the server as they
    found it, on a server without memory limit and a key that is not
    write-locked: the read lock they take is given back on every path.  For a
    key that does not exist they answer 0 (an empty array for SMEMBERS), and
    for a key that holds something else than a set they answer the
    wrong-type error. *)
Theorem set_reads_leave_server_unchanged (fuel : nat) (ctx : Context)
  (c key member : string) (members : list string) (s : Server) (run : M reply) :
  MaxMemory (config s) = 0%N -> ctx_done ctx (rt s) = false ->
  (forall m, keyLocks s !! key = Some m -> RWMutex.writer m = false) ->
  In run [handleSCARD (S fuel) ctx [c; key];
          handleSISMEMBER (S fuel) ctx [c; key; member];
          handleSMISMEMBER (S fuel) ctx (c :: key :: member :: members);
          handleSMEMBERS (S fuel) ctx [c; key]] ->
  exists answer,
    run s = Ret answer s
    /\ (KeyExists key s = false -> exists bytes, answer = Reply bytes)
    /\ (KeyExists key s = true -> asSet (store s !! key) = None ->
        answer = Err (notASet key)).
Proof.
  intros Hmax Hd Hw Hrun. unfold KeyExists.
  destruct (keyLocks s !! key) as [[w n]|] eqn:Hk.
  - assert (w = false) as -> by (apply (Hw _ eq_refl)).
    set (s1 := set_keyLocks <[key := RWMutex.mk false (S n)]> s).
    assert (Hg : GetValue (S fuel) ctx key s1 = Ret (store s !! key) s1)
      by (apply (GetValue_no_limit (S fuel) ctx key s1 Hmax)).
    simpl in Hrun.
    destruct Hrun as [<-|[<-|[<-|[<-|[]]]]].
    + unfold handleSCARD. cbn [length Nat.eqb negb arg nth].
      unfold bind at 1, get, KeyExists. rewrite Hk. cbn [negb].
      destruct (asSet (store s !! key)) as [set|] eqn:Hv;
        (eexists; split;
         [ apply (under_read_lock fuel ctx key s n); [exact Hd|exact Hk|];
           fold s1; rewrite (bind_eq _ _ _ _ _ Hg), Hv; reflexivity
         | split; [discriminate|]; intros _ H; first [discriminate H | reflexivity] ]).
    + unfold handleSISMEMBER. cbn [length Nat.eqb negb arg nth].
      unfold bind at 1, get, KeyExists. rewrite Hk. cbn [negb].
      destruct (asSet (store s !! key)) as [set|] eqn:Hv;
        [destruct (Contains set member) eqn:Hc|];
        (eexists; split;
         [ apply (under_read_lock fuel ctx key s n); [exact Hd|exact Hk|];
           fold s1; rewrite (bind_eq _ _ _ _ _ Hg), Hv; rewrite ?Hc; reflexivity
         | split; [discriminate|]; intros _ H; first [discriminate H | reflexivity] ]).
    + unfold handleSMISMEMBER. cbn [length Nat.ltb Nat.leb arg nth drop].
      unfold bind at 1, get, KeyExists. rewrite Hk. cbn [negb].
      destruct (asSet (store s !! key)) as [set|] eqn:Hv;
        (eexists; split;
         [ apply (under_read_lock fuel ctx key s n); [exact Hd|exact Hk|];
           fold s1; rewrite (bind_eq _ _ _ _ _ Hg), Hv; reflexivity
         | split; [discriminate|]; intros _ H; first [discriminate H | reflexivity] ]).
    + unfold handleSMEMBERS. cbn [length Nat.eqb negb arg nth].
      unfold bind at 1, get, KeyExists. rewrite Hk. cbn [negb].
      destruct (asSet (store s !! key)) as [set|] eqn:Hv;
        (eexists; split;
         [ apply (under_read_lock fuel ctx key s n); [exact Hd|exact Hk|];
           fold s1; rewrite (bind_eq _ _ _ _ _ Hg), Hv; reflexivity
         | split; [discriminate|]; intros _ H; first [discriminate H | reflexivity] ]).
  - simpl in Hrun. destruct Hrun as [<-|[<-|[<-|[<-|[]]]]];
      [unfold handleSCARD|unfold handleSISMEMBER|unfold handleSMISMEMBER|unfold handleSMEMBERS];
      cbn [length Nat.eqb Nat.ltb Nat.leb negb arg nth drop];
      unfold bind at 1, get, KeyExists; rewrite Hk; cbn [negb];
      (eexists; split; [reflexivity|]; split; [eauto|discriminate]).
Qed.

Lemma set_reads_leave_server_unchanged_witness :
  exists answer,
    handleSCARD 1 Background ["SCARD"; "k"] Ex.expired = Ret answer Ex.expired
    /\ (KeyExists "k" Ex.expired = false -> exists bytes, answer = Reply bytes)
    /\ (KeyExists "k" Ex.expired = true -> asSet (store Ex.expired !! "k") = None ->
        answer = Err (notASet "k")).
Proof.
  apply (set_reads_leave_server_unchanged 0 Background "SCARD" "k" "" [] Ex.expired
           (handleSCARD 1 Background ["SCARD"; "k"])); try reflexivity.
  - intros m Hm. vm_compute in Hm. injection Hm as <-. reflexivity.
  - left. reflexivity.
Defined.

(** ** The set commands that read several keys *)

Lemma set_keyLocks_const L s : keyLocks s = L -> set_keyLocks (fun _ => L) s = s.
Proof. intros <-. destruct s; reflexivity. Qed.

Lemma moreReaders_0 (o : option RWMutex.t) : moreReaders 0 <$> o = o.
Proof. destruct o as [[w r]|]; simpl; [|reflexivity]. unfold moreReaders. simpl.
       rewrite Nat.add_0_r. reflexivity. Qed.

Lemma occurrences_cons_eq k keys : occurrences k (k :: keys) = S (occurrences k keys).
Proof. unfold occurrences. simpl. rewrite String.eqb_refl. reflexivity. Qed.

Lemma occurrences_cons_ne k k' keys : k <> k' -> occurrences k (k' :: keys) = occurrences k keys.
Proof.
  intros Hne. unfold occurrences. simpl.
  destruct (String.eqb_spec k k'); [contradiction|reflexivity].
Qed.

Lemma occurrences_pos k keys : k ∈ keys -> (1 <= occurrences k keys)%nat.
Proof.
  induction keys as [|x keys IH]; intros H; [inversion H|].
  destruct (decide (k = x)) as [->|Hne].
  - rewrite occurrences_cons_eq. lia.
  - rewrite occurrences_cons_ne by exact Hne. apply IH.
    apply elem_of_cons in H as [?|?]; [contradiction|assumption].
Qed.

Lemma occurrences_0 k keys : k ∉ keys -> occurrences k keys = 0%nat.
Proof.
  induction keys as [|x keys IH]; intros H; [reflexivity|].
  rewrite occurrences_cons_ne.
  - apply IH. intros Hin. apply H. right. exact Hin.
  - intros ->. apply H. left.
Qed.

(** The first loop of SINTER over keys that exist and are not write-locked:
    one more reader for every time a key is named. *)
Lemma rlockKeys_all fuel ctx : forall keys locks s,
  ctx_done ctx (rt s) = false ->
  (forall k, k ∈ keys -> exists m, keyLocks s !! k = Some m /\ RWMutex.writer m = false) ->
  exists L,
    rlockKeys (S fuel) ctx keys locks s
    = Ret (list_to_set keys ∪ locks, None) (set_keyLocks (fun _ => L) s)
    /\ forall k, L !! k = moreReaders (occurrences k keys) <$> keyLocks s !! k.
Proof.
  induction keys as [|key keys IH]; intros locks s Hd Hall.
  - exists (keyLocks s). split.
    + simpl. unfold ret. rewrite (left_id_L ∅ (∪)).
      rewrite (set_keyLocks_const (keyLocks s) s eq_refl). reflexivity.
    + intros k. symmetry. apply moreReaders_0.
  - destruct (Hall key ltac:(left)) as ([w r] & Hk & Hw). simpl in Hw. subst w.
    set (s' := set_keyLocks <[key := RWMutex.mk false (S r)]> s).
    destruct (IH ({[key]} ∪ locks) s') as (L & Hrun & HL).
    { exact Hd. }
    { intros k Hin. destruct (decide (k = key)) as [->|Hne].
      - exists (RWMutex.mk false (S r)). split; [apply lookup_insert_eq|reflexivity].
      - destruct (Hall k ltac:(right; exact Hin)) as (m & Hm & Hmw).
        exists m. split; [|exact Hmw]. simpl. rewrite lookup_insert_ne by congruence. exact Hm. }
    exists L. split.
    + cbn [rlockKeys]. unfold bind at 1, get, KeyExists. rewrite Hk. cbn [negb].
      rewrite (bind_eq _ _ _ _ _ (KeyRLock_free fuel ctx key s _ Hd Hk eq_refl)).
      cbn [snd RWMutex.readers]. fold s'. rewrite Hrun.
      assert (E : list_to_set keys ∪ ({[key]} ∪ locks) = list_to_set (key :: keys) ∪ locks)
        by (apply set_eq; intros x; rewrite list_to_set_cons, !elem_of_union; tauto).
      rewrite E. f_equal.
    + intros k. rewrite HL. simpl. destruct (decide (k = key)) as [->|Hne].
      * rewrite lookup_insert_eq, Hk, occurrences_cons_eq. simpl. unfold moreReaders. simpl.
        do 2 f_equal. lia.
      * rewrite lookup_insert_ne by congruence.
        rewrite (occurrences_cons_ne k key) by exact Hne. reflexivity.
Qed.

(** The deferred loop: one reader less for every key of the lock map. *)
Lemma runlockKeys_all : forall l s,
  NoDup l ->
  (forall k, k ∈ l -> exists w n, keyLocks s !! k = Some (RWMutex.mk w (S n))) ->
  exists L,
    runlockKeys l s = Ret tt (set_keyLocks (fun _ => L) s)
    /\ forall k, L !! k = if bool_decide (k ∈ l) then oneReaderLess <$> keyLocks s !! k
                          else keyLocks s !! k.
Proof.
  induction l as [|key l IH]; intros s Hnd Hall.
  - exists (keyLocks s). split.
    + simpl. unfold ret. f_equal. symmetry. apply set_keyLocks_const. reflexivity.
    + intros k. rewrite bool_decide_eq_false_2; [reflexivity|]. intros H. inversion H.
  - apply NoDup_cons in Hnd as [Hnin Hnd].
    destruct (Hall key ltac:(left)) as (w & n & Hk).
    set (s' := set_keyLocks <[key := RWMutex.mk w n]> s).
    destruct (IH s' Hnd) as (L & Hrun & HL).
    { intros k Hin. destruct (Hall k ltac:(right; exact Hin)) as (w' & n' & Hk').
      exists w', n'. simpl. rewrite lookup_insert_ne; [exact Hk'|].
      intros <-. contradiction. }
    exists L. split.
    + cbn [runlockKeys]. rewrite (bind_eq _ _ _ _ _ (KeyRUnlock_held key s w n Hk)).
      fold s'. rewrite Hrun. reflexivity.
    + intros k. rewrite HL. simpl. destruct (decide (k = key)) as [->|Hne].
      * rewrite (bool_decide_eq_false_2 (key ∈ l)) by exact Hnin.
        rewrite (bool_decide_eq_true_2 (key ∈ key :: l)) by left.
        rewrite lookup_insert_eq, Hk. simpl. unfold oneReaderLess. simpl.
        do 2 f_equal. lia.
      * rewrite lookup_insert_ne by congruence.
        destruct (decide (k ∈ l)) as [Hin|Hnin'].
        -- rewrite !bool_decide_eq_true_2; [reflexivity|right; exact Hin|exact Hin].
        -- rewrite !bool_decide_eq_false_2; [reflexivity| |exact Hnin'].
           intros [?|?]%elem_of_cons; contradiction.
Qed.

Lemma sets_of (s : Server) (l : list string) :
  (forall k, k ∈ l -> exists set, store s !! k = Some (VSet set)) ->
  exists sets, Forall2 (fun k set => store s !! k = Some (VSet set)) l sets.
Proof.
  induction l as [|k l IH]; intros H; [exists []; constructor|].
  destruct (H k ltac:(left)) as [set Hset].
  destruct IH as [sets Hsets]; [intros k' Hin; apply H; right; exact Hin|].
  exists (set :: sets). constructor; assumption.
Qed.

(** The keys of SINTER, read-locked, in the order of the [range], with the
    sets they hold. *)
Lemma locked_sets fuel ctx keys s L :
  MaxMemory (config s) = 0%N ->
  (forall l, rangeOrder (rt s) l ≡ₚ l) ->
  keys <> [] ->
  (forall k, k ∈ keys -> exists set, store s !! k = Some (VSet set)) ->
  let s1 := set_keyLocks (fun _ => L) s in
  let order := rangeOrder (rt s) (elements (list_to_set keys ∪ ∅ : gset string)) in
  NoDup order /\ (forall k, k ∈ order <-> k ∈ keys)
  /\ exists base others,
       collectSets fuel ctx order [] s1 = Ret (inl (base :: others)) s1.
Proof.
  intros Hmax Hperm Hne Hsets s1 order.
  assert (Hin : forall k, k ∈ order <-> k ∈ keys).
  { intros k. subst order. rewrite Hperm, elem_of_elements, elem_of_union,
      elem_of_list_to_set. rewrite elem_of_empty. tauto. }
  split; [|split; [exact Hin|]].
  { subst order. rewrite Hperm. apply NoDup_elements. }
  destruct (sets_of s1 order) as [sets Hf].
  { intros k Hk. apply Hsets, Hin, Hk. }
  pose proof (collectSets_no_limit fuel ctx s1 Hmax order sets [] Hf) as Hc.
  destruct sets as [|base others].
  - apply Forall2_length in Hf. destruct keys as [|k keys]; [contradiction|].
    assert (Hk : k ∈ order) by (apply Hin; left).
    destruct order; [inversion Hk|discriminate Hf].
  - exists base, others. exact Hc.
Qed.

(** X20.  SINTER read-locks a key once for every time it is named, and gives
    the lock back once for every key: its deferred loop runs over the map of
    the keys it locked.  On a server without memory limit, over keys that
    hold sets and are not write-locked, SINTER answers, leaves the store as
    it was, and leaves every key with [n - 1] more readers, where [n] is how
    often the command names it: a key named twice stays read-locked, and no
    writer gets it any more. *)
Theorem sinter_keeps_read_locks (fuel : nat) (ctx : Context) (c key : string)
  (keys : list string) (s : Server) :
  MaxMemory (config s) = 0%N -> ctx_done ctx (rt s) = false ->
  (forall l, rangeOrder (rt s) l ≡ₚ l) ->
  (forall k, k ∈ key :: keys ->
     (exists m, keyLocks s !! k = Some m /\ RWMutex.writer m = false)
     /\ exists set, store s !! k = Some (VSet set)) ->
  exists bytes s',
    handleSINTER (S fuel) ctx (c :: key :: keys) s = Ret (Reply bytes) s'
    /\ store s' = store s
    /\ forall k m, keyLocks s !! k = Some m ->
         keyLocks s' !! k
         = Some (if bool_decide (k ∈ key :: keys)
                 then RWMutex.mk false (RWMutex.readers m + occurrences k (key :: keys) - 1)
                 else m).
Proof.
  intros Hmax Hd Hperm Hall.
  destruct (rlockKeys_all fuel ctx (key :: keys) ∅ s Hd) as (L & Hlock & HL).
  { intros k Hk. apply Hall, Hk. }
  set (s1 := set_keyLocks (fun _ => L) s) in *.
  destruct (locked_sets (S fuel) ctx (key :: keys) s L Hmax Hperm) as (Hnd & Hin & base & others & Hc).
  { discriminate. }
  { intros k Hk. apply Hall, Hk. }
  fold s1 in Hc.
  set (order := rangeOrder (rt s) (elements (list_to_set (key :: keys) ∪ ∅ : gset string))) in *.
  destruct (runlockKeys_all order s1 Hnd) as (L2 & Hun & HL2).
  { intros k Hk. apply Hin in Hk. destruct (Hall k Hk) as [([w r] & Hm & Hw) _].
    simpl in Hw. subst w. pose proof (occurrences_pos k _ Hk) as Hpos.
    exists false, (r + occurrences k (key :: keys) - 1)%nat.
    change (keyLocks s1) with L. rewrite HL, Hm. simpl. unfold moreReaders. simpl.
    do 2 f_equal. lia. }
  assert (Hrange : rangeKeys (list_to_set (key :: keys) ∪ ∅) s1 = Ret order s1) by reflexivity.
  set (elems := GetAll (rt s1) (Intersection (rt s1) base others 0)).
  assert (Hres :
    (let* order := rangeKeys (list_to_set (key :: keys) ∪ ∅) in
     let* c := collectSets (S fuel) ctx order [] in
     match c with
     | inr e => ret (Err e)
     | inl [] => ret (Err "not enough sets in the keys provided")
     | inl (base :: others) =>
         let* s := get in
         let intersect := Intersection (rt s) base others 0 in
         let elems := GetAll (rt s) intersect in
         ret (Reply (bulkStrings ("*" ++ Fmt.d (length elems)) elems))
     end) s1 = Ret (Reply (bulkStrings ("*" ++ Fmt.d (length elems)) elems)) s1).
  { rewrite (bind_eq _ _ _ _ _ Hrange), (bind_eq _ _ _ _ _ Hc). reflexivity. }
  exists (bulkStrings ("*" ++ Fmt.d (length elems)) elems), (set_keyLocks (fun _ => L2) s1).
  split; [|split].
  - unfold handleSINTER. cbn [length Nat.ltb Nat.leb drop].
    rewrite (bind_eq _ _ _ _ _ Hlock). cbn [fst snd].
    rewrite (bind_eq _ _ _ _ _ Hres), (bind_eq _ _ _ _ _ Hrange), (bind_eq _ _ _ _ _ Hun).
    reflexivity.
  - reflexivity.
  - intros k m Hm. change (keyLocks (set_keyLocks (fun _ => L2) s1)) with L2.
    rewrite HL2. change (keyLocks s1) with L. rewrite HL, Hm. simpl.
    destruct (decide (k ∈ key :: keys)) as [Hk|Hk].
    + rewrite (bool_decide_eq_true_2 (k ∈ order)) by (apply Hin, Hk).
      rewrite (bool_decide_eq_true_2 _ Hk).
      destruct (Hall k Hk) as [(m' & Hm' & Hw) _]. rewrite Hm in Hm'. injection Hm' as <-.
      unfold oneReaderLess, moreReaders. simpl. rewrite Hw. reflexivity.
    + rewrite (bool_decide_eq_false_2 (k ∈ order)) by (intros H; apply Hk, Hin, H).
      rewrite (bool_decide_eq_false_2 _ Hk).
      rewrite (occurrences_0 _ _ Hk). destruct m as [w r]. unfold moreReaders. simpl.
      rewrite Nat.add_0_r. reflexivity.
Qed.

Lemma sinter_keeps_read_locks_witness :
  exists bytes s',
    handleSINTER 1 Background ["SINTER"; "key1"; "key1"] Scenario.preset = Ret (Reply bytes) s'
    /\ store s' = store Scenario.preset
    /\ forall k m, keyLocks Scenario.preset !! k = Some m ->
         keyLocks s' !! k
         = Some (if bool_decide (k ∈ ["key1"; "key1"])
                 then RWMutex.mk false (RWMutex.readers m + occurrences k ["key1"; "key1"] - 1)
                 else m).
Proof.
  apply (sinter_keeps_read_locks 0 Background "SINTER" "key1" ["key1"] Scenario.preset);
    try reflexivity.
  intros k Hk.
  assert (k = "key1") as ->.
  { apply elem_of_cons in Hk as [->|Hk]; [reflexivity|].
    apply list_elem_of_singleton in Hk. exact Hk. }
  split; eexists; [split|]; reflexivity.
Defined.

(** A blocked [KeyLock] changes nothing but the clock. *)
Lemma KeyLock_blocked_frame key m ctx : forall fuel s res s',
  keyLocks s !! key = Some m -> RWMutex.TryLock m = None ->
  KeyLock fuel ctx key s = Ret res s' ->
  res = (false, Some (cause ctx))
  /\ config s' = config s /\ store s' = store s /\ keyLocks s' = keyLocks s
  /\ rangeOrder (rt s') = rangeOrder (rt s).
Proof.
  induction fuel as [|f IH]; intros s res s' Hm Ht H; simpl in H; [discriminate|].
  unfold bind, get in H. simpl in H.
  destruct (ctx_done ctx (rt s)) eqn:Hd.
  { injection H as <- <-. repeat split. }
  rewrite Hm, Ht in H. unfold modify in H.
  apply IH in H as (-> & ? & ? & ? & ?); [|exact Hm|exact Ht].
  repeat split; assumption.
Qed.

(** X21.  SINTERSTORE whose destination is one of the keys it intersects
    cannot finish: it holds a read lock on the destination when it asks for
    the write lock.  With a context that has no deadline the command never
    returns; with a deadline it returns the cause of the context once the
    deadline is reached, and stores nothing. *)
Theorem sinterstore_onto_a_source (ctx : Context) (c d key : string) (keys : list string)
  (s : Server) :
  MaxMemory (config s) = 0%N -> ctx_done ctx (rt s) = false ->
  (forall l, rangeOrder (rt s) l ≡ₚ l) ->
  (forall k, k ∈ key :: keys ->
     (exists m, keyLocks s !! k = Some m /\ RWMutex.writer m = false)
     /\ exists set, store s !! k = Some (VSet set)) ->
  d ∈ key :: keys ->
  (deadline ctx = None ->
   forall fuel, handleSINTERSTORE fuel ctx (c :: d :: key :: keys) s = OutOfFuel)
  /\ (forall t, deadline ctx = Some t ->
      exists s', handleSINTERSTORE (S (t - pollClock (rt s))) ctx (c :: d :: key :: keys) s
                 = Ret (Err (cause ctx)) s'
                 /\ store s' = store s).
Proof.
  intros Hmax Hd Hperm Hall Hdin.
  assert (Hstart : forall fuel, exists L base others,
    let s1 := set_keyLocks (fun _ => L) s in
    let order := rangeOrder (rt s) (elements (list_to_set (key :: keys) ∪ ∅ : gset string)) in
    rlockKeys (S fuel) ctx (key :: keys) ∅ s = Ret (list_to_set (key :: keys) ∪ ∅, None) s1
    /\ collectSets (S fuel) ctx order [] s1 = Ret (inl (base :: others)) s1
    /\ NoDup order
    /\ (forall k, k ∈ order -> exists w n, L !! k = Some (RWMutex.mk w (S n)))
    /\ exists n, L !! d = Some (RWMutex.mk false (S n))).
  { intros fuel.
    destruct (rlockKeys_all fuel ctx (key :: keys) ∅ s Hd) as (L & Hlock & HL).
    { intros k Hk. apply Hall, Hk. }
    destruct (locked_sets (S fuel) ctx (key :: keys) s L Hmax Hperm)
      as (Hnd & Hin & base & others & Hc).
    { discriminate. }
    { intros k Hk. apply Hall, Hk. }
    assert (Hheld : forall k, k ∈ key :: keys ->
              exists n, L !! k = Some (RWMutex.mk false (S n))).
    { intros k Hk. destruct (Hall k Hk) as [([w r] & Hm & Hw) _].
      simpl in Hw. subst w. pose proof (occurrences_pos k _ Hk) as Hpos.
      exists (r + occurrences k (key :: keys) - 1)%nat.
      rewrite HL, Hm. simpl. unfold moreReaders. simpl. do 2 f_equal. lia. }
    exists L, base, others. cbv zeta. repeat split; try assumption.
    - intros k Hk. destruct (Hheld k (proj1 (Hin k) Hk)) as [n Hn]. eauto.
    - apply Hheld, Hdin. }
  split.
  - intros Hdl [|fuel].
    + unfold handleSINTERSTORE. cbn [length Nat.ltb Nat.leb drop rlockKeys].
      destruct (Hall key ltac:(left)) as [(m & Hm & _) _].
      unfold bind, get, KeyExists. rewrite Hm. reflexivity.
    + destruct (Hstart fuel) as (L & base & others & Hlock & Hc & _ & _ & n & Hdl').
      cbv zeta in Hlock, Hc.
      set (s1 := set_keyLocks (fun _ => L) s) in *.
      unfold handleSINTERSTORE. cbn [length Nat.ltb Nat.leb drop].
      rewrite (bind_eq _ _ _ _ _ Hlock). cbn [fst snd].
      assert (Hrange : rangeKeys (list_to_set (key :: keys) ∪ ∅) s1
                       = Ret (rangeOrder (rt s)
                                (elements (list_to_set (key :: keys) ∪ ∅ : gset string))) s1)
        by reflexivity.
      unfold bind at 1. rewrite (bind_eq _ _ _ _ _ Hrange), (bind_eq _ _ _ _ _ Hc).
      unfold bind at 1, get. cbn [arg nth]. unfold KeyExists.
      change (keyLocks s1) with L. rewrite Hdl'.
      unfold bind at 1.
      rewrite (KeyLock_spins d _ ctx Hdl (S fuel) s1 Hdl' eq_refl). reflexivity.
  - intros t Hdl.
    set (n := (t - pollClock (rt s))%nat).
    destruct (Hstart n) as (L & base & others & Hlock & Hc & Hnd & Hheld & r & Hdl').
    cbv zeta in Hlock, Hc.
    set (s1 := set_keyLocks (fun _ => L) s) in *.
    set (order := rangeOrder (rt s) (elements (list_to_set (key :: keys) ∪ ∅ : gset string)))
      in *.
    destruct (KeyLock_gives_up d _ ctx t Hdl n s1 Hdl' eq_refl) as [s2 Hk2]; [reflexivity|].
    pose proof (KeyLock_blocked_frame d _ ctx (S n) s1 _ s2 Hdl' eq_refl Hk2)
      as (_ & Hc2 & Hst2 & Hl2 & Hr2).
    destruct (runlockKeys_all order s2 Hnd) as (L2 & Hun & _).
    { intros k Hk. rewrite Hl2. apply Hheld, Hk. }
    exists (set_keyLocks (fun _ => L2) s2). split; [|exact Hst2].
    unfold handleSINTERSTORE. cbn [length Nat.ltb Nat.leb drop].
    rewrite (bind_eq _ _ _ _ _ Hlock). cbn [fst snd].
    assert (Hrange : rangeKeys (list_to_set (key :: keys) ∪ ∅) s1 = Ret order s1)
      by reflexivity.
    assert (Hrange2 : rangeKeys (list_to_set (key :: keys) ∪ ∅) s2 = Ret order s2).
    { unfold rangeKeys, bind, get, ret. rewrite Hr2. reflexivity. }
    generalize dependent (S n). intros F Hlock Hc Hk2.
    match goal with
    | |- (let* res := ?m in ?k) s1 = _ =>
        assert (Hres : m s1 = Ret (Err (cause ctx)) s2)
    end.
    { rewrite (bind_eq _ _ _ _ _ Hrange), (bind_eq _ _ _ _ _ Hc).
      unfold bind at 1, get. cbn [arg nth]. unfold KeyExists.
      change (keyLocks s1) with L. rewrite Hdl'.
      rewrite (bind_eq _ _ _ _ _ Hk2). reflexivity. }
    rewrite (bind_eq _ _ _ _ _ Hres), (bind_eq _ _ _ _ _ Hrange2), (bind_eq _ _ _ _ _ Hun).
    reflexivity.
Qed.

Lemma sinterstore_onto_a_source_witness :
  handleSINTERSTORE 9 Background ["SINTERSTORE"; "key1"; "key1"; "key2"] Scenario.preset
  = OutOfFuel.
Proof.
  refine (proj1 (sinterstore_onto_a_source Background "SINTERSTORE" "key1" "key1" ["key2"]
                  Scenario.preset eq_refl eq_refl (fun l => reflexivity l)
                  ltac:(intros k Hk;
                        apply elem_of_cons in Hk as [->|Hk];
                        [|apply list_elem_of_singleton in Hk as ->];
                        (split; eexists; [split|]; reflexivity))
                  ltac:(left)) eq_refl 9).
Defined.

Lemma rlockExisting_none fuel ctx s : forall keys locks,
  (forall k, k ∈ keys -> KeyExists k s = false) ->
  rlockExisting fuel ctx keys locks s = Ret (locks, None) s.
Proof.
  induction keys as [|k keys IH]; intros locks Hno; [reflexivity|].
  cbn [rlockExisting]. unfold bind at 1, get. rewrite (Hno k) by left. cbn [negb].
  apply IH. intros k' Hk'. apply Hno. right. exact Hk'.
Qed.

(** X22.  SUNION and SUNIONSTORE over keys of which none exists abort: no set
    is collected, and the first of the sets is taken without a look at how
    many there are.  (SINTER answers an empty array at the first key that does not
    exist.) *)
Theorem sunion_without_sets_panics (Union : SetT -> list SetT -> SetT) (fuel : nat)
  (ctx : Context) (c d key : string) (keys : list string) (s : Server) :
  (forall l, rangeOrder (rt s) l ≡ₚ l) ->
  (forall k, k ∈ key :: keys -> KeyExists k s = false) ->
  handleSUNION Union fuel ctx (c :: key :: keys) s = Fatal
  /\ handleSUNIONSTORE Union fuel ctx (c :: d :: key :: keys) s = Fatal.
Proof.
  intros Hperm Hno.
  assert (Hrange : rangeKeys ∅ s = Ret [] s).
  { unfold rangeKeys, bind, get, ret. rewrite elements_empty.
    rewrite (proj1 (Permutation_nil_r _) (Hperm [])). reflexivity. }
  split.
  - unfold handleSUNION. cbn [length Nat.ltb Nat.leb drop].
    rewrite (bind_eq _ _ _ _ _ (rlockExisting_none fuel ctx s (key :: keys) ∅ Hno)).
    cbn [fst snd]. unfold bind at 1. rewrite (bind_eq _ _ _ _ _ Hrange). reflexivity.
  - unfold handleSUNIONSTORE. cbn [length Nat.ltb Nat.leb drop].
    rewrite (bind_eq _ _ _ _ _ (rlockExisting_none fuel ctx s (key :: keys) ∅ Hno)).
    cbn [fst snd]. unfold bind at 1. rewrite (bind_eq _ _ _ _ _ Hrange). reflexivity.
Qed.

Lemma sunion_without_sets_panics_witness :
  handleSUNION (fun base _ => base) 1 Background ["SUNION"; "a"; "b"] Ex.s0 = Fatal.
Proof.
  apply (sunion_without_sets_panics (fun base _ => base) 1 Background "SUNION" "" "a" ["b"]
           Ex.s0).
  - intros l. reflexivity.
  - intros k _. reflexivity.
Defined.

Import AclStub AclSetup.

(** ** The first ACL has no default user *)

Lemma mergeDefault_spec (d u : User) :
  Username d = "default" ->
  mergeDefault d u = if String.eqb (Username u) "default" then noUser else u.
Proof.
  intros Hd. unfold mergeDefault, MergeUser.
  destruct (String.eqb (Username u) "default") eqn:E; [|reflexivity].
  apply String.eqb_eq in E. rewrite Hd, E. reflexivity.
Qed.

(** X23.  The ACL that [NewACL] builds has no user named default.  The default
    user it creates, with the password the configuration requires, is not
    put in the list: without an ACL file there is no user at all, and a
    default user loaded from the file is replaced by the empty user, since
    [NormaliseUser] returns nothing of what [MergeUser] merged.  The other
    users are kept as loaded.  [NewACL] panics when a password is required
    and the password is empty. *)
Theorem new_acl_has_no_default_user (config : Settings) (file : option (list User)) :
  (NewACL config file = None <->
   (RequirePass config = true /\ Password config = "")
   \/ (AclConfig config <> "" /\ file = None))
  /\ forall acl, NewACL config file = Some acl ->
       (forall u, u ∈ Users acl -> Username u <> "default")
       /\ Connections acl = ∅
       /\ (AclConfig config = "" -> Users acl = [])
       /\ forall loaded, AclConfig config <> "" -> file = Some loaded ->
            Users acl
            = map (fun u => if String.eqb (Username u) "default" then noUser else u) loaded.
Proof.
  assert (Hmap : forall d users, Username d = "default" ->
            map (mergeDefault d) users
            = map (fun u => if String.eqb (Username u) "default" then noUser else u) users).
  { intros d users Hd. apply map_ext. intros u. apply mergeDefault_spec, Hd. }
  assert (Hno : forall users u,
            u ∈ map (fun u => if String.eqb (Username u) "default" then noUser else u) users ->
            Username u <> "default").
  { intros users u Hu. apply list_elem_of_fmap in Hu as (v & -> & _).
    destruct (String.eqb (Username v) "default") eqn:E; [discriminate|].
    apply String.eqb_neq, E. }
  unfold NewACL.
  destruct (RequirePass config) eqn:Hr; [destruct (Password config) as [|c p] eqn:Hp|];
    cbn [GetPasswordType mbind option_bind].
  - split; [split; [intros _; left; split; reflexivity|reflexivity]|discriminate].
  - destruct (String.eqb (AclConfig config) "") eqn:Ha;
      [apply String.eqb_eq in Ha|apply String.eqb_neq in Ha; destruct file as [loaded|]];
      cbn [mbind option_bind].
    + split; [split; [discriminate|intros [[_ [=]]|[H _]]; contradiction]|].
      intros acl [= <-]. cbn. repeat split; try reflexivity; try contradiction.
      intros u Hu. apply elem_of_nil in Hu as [].
    + split; [split; [discriminate|intros [[_ [=]]|[_ [=]]]]|].
      intros acl [= <-]. cbn [Users Connections]. rewrite Hmap by reflexivity.
      repeat split; try contradiction.
      * apply Hno.
      * intros loaded' _ [= <-]. reflexivity.
    + split; [split; [intros _; right; split; [exact Ha|reflexivity]|reflexivity]|discriminate].
  - destruct (String.eqb (AclConfig config) "") eqn:Ha;
      [apply String.eqb_eq in Ha|apply String.eqb_neq in Ha; destruct file as [loaded|]];
      cbn [mbind option_bind].
    + split; [split; [discriminate|intros [[[=] _]|[H _]]; contradiction]|].
      intros acl [= <-]. cbn. repeat split; try reflexivity; try contradiction.
      intros u Hu. apply elem_of_nil in Hu as [].
    + split; [split; [discriminate|intros [[[=] _]|[_ [=]]]]|].
      intros acl [= <-]. cbn [Users Connections]. rewrite Hmap by reflexivity.
      repeat split; try contradiction.
      * apply Hno.
      * intros loaded' _ [= <-]. reflexivity.
    + split; [split; [intros _; right; split; [exact Ha|reflexivity]|reflexivity]|discriminate].
Qed.

Lemma new_acl_has_no_default_user_witness :
  Users (mkACL [noUser; CreateUser "ann" true] ∅ true)
  = map (fun u => if String.eqb (Username u) "default" then noUser else u)
        [CreateUser "default" false; CreateUser "ann" true].
Proof.
  apply (proj2 (proj2 (proj2
           (proj2 (new_acl_has_no_default_user
                     (mkSettings true "secret" "acl.yaml")
                     (Some [CreateUser "default" false; CreateUser "ann" true]))
                  (mkACL [noUser; CreateUser "ann" true] ∅ true) eq_refl)))
           [CreateUser "default" false; CreateUser "ann" true]).
  - discriminate.
  - reflexivity.
Defined.

Import Bytes Wire.

(** ** Reading a message *)

Lemma TrimLeft_NULs n s : TrimLeft (replicate n NUL ++ s) NUL = TrimLeft s NUL.
Proof. induction n as [|n IH]; [reflexivity|]. simpl. exact IH. Qed.

Lemma TrimRight_NULs n s : TrimRight (s ++ replicate n NUL) NUL = TrimRight s NUL.
Proof.
  unfold TrimRight. rewrite reverse_app, reverse_replicate, TrimLeft_NULs. reflexivity.
Qed.

Lemma Trim_NULs n s : Trim (s ++ replicate n NUL) NUL = Trim s NUL.
Proof. unfold Trim. rewrite TrimRight_NULs. reflexivity. Qed.

Lemma TrimLeft_head s c : head s <> Some c -> TrimLeft s c = s.
Proof.
  destruct s as [|x r]; [reflexivity|]. simpl. intros H.
  destruct (Ascii.eqb x c) eqn:E; [|reflexivity].
  apply Ascii.eqb_eq in E. subst. contradiction H. reflexivity.
Qed.

Lemma Trim_clean s c : head s <> Some c -> last s <> Some c -> Trim s c = s.
Proof.
  intros Hh Hl. unfold Trim, TrimRight.
  rewrite (TrimLeft_head (reverse s)).
  - rewrite reverse_involutive. apply TrimLeft_head, Hh.
  - rewrite head_reverse. exact Hl.
Qed.

Lemma filled_full data : length data = chunkLen -> filled data = data.
Proof.
  intros H. unfold filled. rewrite take_app_length'; [reflexivity|symmetry; exact H].
Qed.

Lemma filled_short data :
  (length data < chunkLen)%nat ->
  filled data = (data ++ replicate (chunkLen - length data) NUL)%list.
Proof.
  intros H. unfold filled. rewrite take_app_ge by lia. f_equal.
  rewrite take_replicate. f_equal. lia.
Qed.

(** The data of the reads [from], ..., [from + n - 1]. *)
Lemma readLoop_full (r : Reader) (n : nat) : forall from res fuel,
  (forall i, (from <= i < from + n)%nat ->
             snd (r i) = None /\ length (fst (r i)) = chunkLen) ->
  readLoop (n + fuel) r from res
  = readLoop fuel r (from + n) (res ++ flat_map (fun i => fst (r i)) (seq from n)).
Proof.
  induction n as [|n IH]; intros from res fuel Hfull.
  - simpl. rewrite Nat.add_0_r, app_nil_r. reflexivity.
  - destruct (Hfull from ltac:(lia)) as [He Hl].
    cbn [Nat.add readLoop]. destruct (r from) as [data err] eqn:Hr. cbn [fst snd] in He, Hl.
    subst err. rewrite Hl, Nat.ltb_irrefl, (filled_full data Hl).
    rewrite IH by (intros i Hi; apply Hfull; lia).
    cbn [seq flat_map]. rewrite Hr. cbn [fst].
    rewrite <- app_assoc. f_equal. lia.
Qed.

(** X24.  [ReadMessage] returns what the connection delivered up to the first
    read that does not fill the chunk, without the zero bytes at its two
    ends: after [k] full reads and a short one, the message is the data of
    the [k + 1] reads with leading and trailing zero bytes removed (so a
    message that begins or ends with a zero byte does not arrive whole, and
    data that neither begins nor ends with one arrives as sent).  It never
    reports the end of the stream: a stream that is at its end gives the
    empty message and a nil error. *)
Theorem read_message_trims (r : Reader) (k : nat) :
  (forall i, (i < k)%nat -> snd (r i) = None /\ length (fst (r i)) = chunkLen) ->
  let data := flat_map (fun i => fst (r i)) (seq 0 (S k)) in
  (snd (r k) = None -> (length (fst (r k)) < chunkLen)%nat ->
   ReadMessage (S k) r = Some (inl (Trim data NUL))
   /\ (head data <> Some NUL -> last data <> Some NUL ->
       ReadMessage (S k) r = Some (inl data)))
  /\ (snd (r k) = Some EOF ->
      ReadMessage (S k) r
      = Some (inl (Trim (flat_map (fun i => fst (r i)) (seq 0 k)) NUL)))
  /\ (forall fuel, ReadMessage fuel r <> Some (inr EOF)).
Proof.
  intros Hfull data.
  assert (Hloop : forall res,
            readLoop (S k) r 0 res
            = readLoop 1 r k (res ++ flat_map (fun i => fst (r i)) (seq 0 k))).
  { intros res. replace (S k) with (k + 1)%nat by lia.
    rewrite (readLoop_full r k 0 res 1); [reflexivity|].
    intros i Hi. apply Hfull. lia. }
  split; [|split].
  - intros He Hl.
    assert (Hm : ReadMessage (S k) r = Some (inl (Trim data NUL))).
    { unfold ReadMessage. rewrite Hloop. cbn [readLoop app].
      destruct (r k) as [d err] eqn:Hr. cbn [fst snd] in He, Hl. subst err.
      apply Nat.ltb_lt in Hl as Hl'. rewrite Hl'.
      rewrite (filled_short d Hl), app_assoc, Trim_NULs.
      unfold data. rewrite seq_S, flat_map_app. cbn [flat_map Nat.add]. rewrite Hr.
      cbn [fst]. rewrite app_nil_r. reflexivity. }
    split; [exact Hm|].
    intros Hh Hla. rewrite Hm, (Trim_clean data NUL Hh Hla). reflexivity.
  - intros He. unfold ReadMessage. rewrite Hloop. cbn [readLoop app].
    destruct (r k) as [d err] eqn:Hr. cbn [snd] in He. subst err. reflexivity.
  - intros fuel. unfold ReadMessage.
    assert (Hnever : forall f calls res, readLoop f r calls res <> Some (inr EOF)).
    { induction f as [|f IH]; intros calls res; [discriminate|].
      cbn [readLoop]. destruct (r calls) as [d [[|msg]|]]; try discriminate.
      destruct (length d <? chunkLen)%nat; [discriminate|apply IH]. }
    specialize (Hnever fuel 0%nat []).
    destruct (readLoop fuel r 0 []) as [[res|e]|]; [discriminate|exact Hnever|discriminate].
Qed.

Lemma read_message_trims_witness :
  ReadMessage 1 (fun _ => (list_ascii_of_string "PING", None))
  = Some (inl (list_ascii_of_string "PING")).
Proof.
  apply (proj1 (read_message_trims (fun _ => (list_ascii_of_string "PING", None)) 0
                  ltac:(intros i Hi; lia))).
  - reflexivity.
  - unfold chunkLen. simpl. lia.
  - discriminate.
  - discriminate.
Defined.

(** ** Writing a response *)

Lemma sendChunks_spec (w : Writer) (res : list ascii) : forall fuel startIndex log,
  (startIndex < length res)%nat ->
  (length res - startIndex <= fuel)%nat ->
  fullWrites log ->
  flat_map passed log = take startIndex res ->
  exists init lastw rest,
    sendChunks fuel w res startIndex log = Sent (init ++ [lastw])
    /\ fullWrites init
    /\ (0 < length (passed lastw) <= chunkSize)%nat
    /\ (flat_map passed init ++ passed lastw ++ rest)%list = res
    /\ (rest <> [] -> length (passed lastw) = chunkSize /\ (taken lastw < chunkSize)%nat).
Proof.
  induction fuel as [|fuel IH]; intros startIndex log Hlt Hfuel Hfull Hlog; [lia|].
  cbn [sendChunks].
  destruct (Z.of_nat (length res) - 1 - Z.of_nat startIndex <? Z.of_nat chunkSize)%Z eqn:Hc.
  - apply Z.ltb_lt in Hc.
    replace (length res <? startIndex)%nat with false by (symmetry; apply Nat.ltb_ge; lia).
    exists log, (mkWritten (drop startIndex res) (w (length log) (drop startIndex res))), [].
    cbn [passed taken]. rewrite length_drop, app_nil_r, Hlog, take_drop.
    repeat split; try assumption; try lia; contradiction.
  - apply Z.ltb_ge in Hc.
    replace (length res <? startIndex + chunkSize)%nat with false
      by (symmetry; apply Nat.ltb_ge; lia).
    set (p := take chunkSize (drop startIndex res)).
    assert (Hp : length p = chunkSize).
    { unfold p. rewrite length_take, length_drop. lia. }
    assert (Hnext : (flat_map passed log ++ p)%list = take (startIndex + chunkSize) res).
    { rewrite Hlog. unfold p. rewrite take_take_drop. reflexivity. }
    destruct (w (length log) p <? chunkSize)%nat eqn:Hn.
    + apply Nat.ltb_lt in Hn.
      exists log, (mkWritten p (w (length log) p)), (drop (startIndex + chunkSize) res).
      cbn [passed taken]. rewrite app_assoc, Hnext, take_drop.
      repeat split; try assumption; try lia.
    + apply Nat.ltb_ge in Hn.
      apply IH.
      * lia.
      * unfold chunkSize in *. lia.
      * apply Forall_app. split; [exact Hfull|].
        constructor; [|constructor]. cbn [passed taken]. split; [exact Hp|exact Hn].
      * rewrite flat_map_app. cbn [flat_map passed]. rewrite app_nil_r. exact Hnext.
Qed.

(** X25.  A response that is not empty is written whole unless a write comes
    back short: the connection is passed the response in consecutive slices
    of 1024 bytes, the last one holding what remains (at least one byte),
    and the sending stops before the end only after a write that reported
    fewer than 1024 bytes, which is not tried again.  No slice expression of
    the loop is out of range, and the loop ends. *)
Theorem response_written_in_chunks (w : Writer) (b : ascii) (res : list ascii) :
  exists init lastw rest,
    writeResponse (length (b :: res)) w (b :: res) = Sent (init ++ [lastw])
    /\ fullWrites init
    /\ (0 < length (passed lastw) <= chunkSize)%nat
    /\ (flat_map passed init ++ passed lastw ++ rest)%list = b :: res
    /\ (rest <> [] -> length (passed lastw) = chunkSize /\ (taken lastw < chunkSize)%nat).
Proof.
  unfold writeResponse.
  destruct (length (b :: res) =? 0)%nat eqn:H0; [apply Nat.eqb_eq in H0; discriminate|].
  destruct (length (b :: res) <=? chunkSize)%nat eqn:Hle.
  - apply Nat.leb_le in Hle.
    exists [], (mkWritten (b :: res) (w 0%nat (b :: res))), [].
    cbn [passed taken flat_map app]. rewrite app_nil_r.
    repeat split; try contradiction.
    + constructor.
    + cbn [length]. lia.
    + exact Hle.
  - apply Nat.leb_gt in Hle.
    apply (sendChunks_spec w (b :: res) (length (b :: res)) 0 []).
    + cbn [length]. lia.
    + lia.
    + constructor.
    + reflexivity.
Qed.

Import Bytes Bufio Aof.

(** ** Writing to the log *)

Lemma locked_free {A} (body : Op A) (st : AppendStore) (a : A) (st' : AppendStore) :
  mut st = false ->
  body (set_mut true st) = Done a st' -> mut st' = true ->
  locked body st = Done a (set_mut false st').
Proof.
  intros Hm Hb Hm'. unfold locked, andThen, Lock, Unlock. rewrite Hm, Hb, Hm'. reflexivity.
Qed.

Lemma set_mut_back (f : ReadWriter) (st : AppendStore) :
  mut st = false -> set_mut false (set_rw f (set_mut true st)) = set_rw f st.
Proof. intros Hm. destruct st as [s m r h]. cbn in *. subst. reflexivity. Qed.

Lemma set_mut_same (st : AppendStore) :
  mut st = false -> set_mut false (set_mut true st) = st.
Proof. intros Hm. destruct st as [s m r h]. cbn in *. subst. reflexivity. Qed.

Lemma Write_returns (command : list ascii) (st : AppendStore) (f : ReadWriter) n err :
  mut st = false -> rw st = Some f ->
  onWrite f (writes f) (command ++ CRLF) = (n, err) ->
  (err = None -> Strings.EqualFold (strategy st) "always" = false) ->
  Write command st = Done err (set_rw (wrote (take n (command ++ CRLF)) f) st).
Proof.
  intros Hm Hrw Hw Hs. unfold Write.
  rewrite (locked_free _ st err
             (set_rw (wrote (take n (command ++ CRLF)) f) (set_mut true st)) Hm).
  - rewrite (set_mut_back _ st Hm). reflexivity.
  - cbn [rw set_mut strategy]. rewrite Hrw, Hw.
    destruct err as [e|]; [reflexivity|]. rewrite (Hs eq_refl). reflexivity.
  - reflexivity.
Qed.

(** X26.  [Write] with a [ReadWriter] returns the error of a write that
    fails, whatever the strategy.  When the write succeeds it never returns
    under the strategy "always": it calls [Sync] while it holds the mutex of
    the store, and [Sync] waits for that mutex; under any other strategy it
    returns nil.  In the cases in which it returns, the mutex is free again
    and nothing has changed but the [ReadWriter], which holds the bytes that
    the write took of the command and its line end.  On a store without a
    [ReadWriter], [Write] and [Sync] change nothing and [Restore] panics. *)
Theorem write_always_deadlocks (command : list ascii) (st : AppendStore) :
  mut st = false ->
  (forall f n err,
     rw st = Some f -> onWrite f (writes f) (command ++ CRLF) = (n, err) ->
     (Write command st = Blocked
      <-> err = None /\ Strings.EqualFold (strategy st) "always" = true)
     /\ (~ (err = None /\ Strings.EqualFold (strategy st) "always" = true) ->
         Write command st = Done err (set_rw (wrote (take n (command ++ CRLF)) f) st))
     /\ Sync st = Done (onSync f (syncs f)) (set_rw (synced f) st))
  /\ (rw st = None ->
      Write command st = Done None st /\ Sync st = Done None st
      /\ forall fuel, Restore fuel st = Panicked).
Proof.
  intros Hm. split.
  - intros f n err Hrw Hw.
    assert (Hblock : err = None -> Strings.EqualFold (strategy st) "always" = true ->
                     Write command st = Blocked).
    { intros -> Hs. unfold Write, locked, andThen, Lock. rewrite Hm.
      cbn [rw set_mut strategy]. rewrite Hrw, Hw, Hs. reflexivity. }
    assert (Hcases : err = None /\ Strings.EqualFold (strategy st) "always" = true
                     \/ Write command st
                        = Done err (set_rw (wrote (take n (command ++ CRLF)) f) st)).
    { destruct err as [e|].
      - right. apply (Write_returns command st f n (Some e) Hm Hrw Hw). discriminate.
      - destruct (Strings.EqualFold (strategy st) "always") eqn:Hs.
        + left. split; reflexivity.
        + right. apply (Write_returns command st f n None Hm Hrw Hw). intros _. exact Hs. }
    split; [|split].
    + split.
      * intros Hb. destruct Hcases as [H|H]; [exact H|]. rewrite H in Hb. discriminate Hb.
      * intros [He Hs]. apply Hblock; assumption.
    + intros Hn. destruct Hcases as [H|H]; [contradiction|exact H].
    + unfold Sync.
      rewrite (locked_free _ st (onSync f (syncs f)) (set_rw (synced f) (set_mut true st)) Hm).
      * rewrite (set_mut_back _ st Hm). reflexivity.
      * cbn [rw set_mut]. rewrite Hrw. reflexivity.
      * reflexivity.
  - intros Hrw. split; [|split].
    + unfold Write. rewrite (@locked_free error _ st None (set_mut true st) Hm).
      * rewrite (set_mut_same st Hm). reflexivity.
      * cbn [rw set_mut]. rewrite Hrw. reflexivity.
      * reflexivity.
    + unfold Sync. rewrite (@locked_free error _ st None (set_mut true st) Hm).
      * rewrite (set_mut_same st Hm). reflexivity.
      * cbn [rw set_mut]. rewrite Hrw. reflexivity.
      * reflexivity.
    + intros fuel. unfold Restore, locked, andThen, Lock. rewrite Hm.
      cbn [rw set_mut]. rewrite Hrw. reflexivity.
Qed.

Lemma write_always_deadlocks_witness :
  Write (list_ascii_of_string "PING")
        (mkAppendStore "Always" false (Some (Samples3.file [])) [])
  = Blocked.
Proof.
  apply (proj2 (proj1 (proj1 (write_always_deadlocks
                                (list_ascii_of_string "PING")
                                (mkAppendStore "Always" false (Some (Samples3.file [])) [])
                                eq_refl)
                             (Samples3.file []) 6%nat None eq_refl eq_refl))).
  split; reflexivity.
Defined.

(** A write that fails is reported, also under "always". *)
Example write_reports_full_disk :
  Write (list_ascii_of_string "PING")
        (mkAppendStore "always" false (Some Samples3.fullDisk) [])
  = Done (Some "no space left on device")
         (mkAppendStore "always" false (Some (wrote [] Samples3.fullDisk)) []).
Proof. reflexivity. Qed.

(** ** Reading the log back *)

Lemma splitLF_line (l rest : list ascii) : forall n,
  LF ∉ l -> (length l < n)%nat -> splitLF n (l ++ LF :: rest) = Some (l, rest).
Proof.
  induction l as [|c l IH]; intros n Hno Hlen.
  - destruct n; [simpl in Hlen; lia|]. reflexivity.
  - destruct n; [simpl in Hlen; lia|]. cbn [app splitLF].
    destruct (Ascii.eqb c LF) eqn:E.
    + apply Ascii.eqb_eq in E. subst c. contradiction Hno. left.
    + rewrite IH; [reflexivity| |simpl in Hlen; lia].
      intros Hin. apply Hno. right. exact Hin.
Qed.

Lemma dropCR_line (l : list ascii) : dropCR (l ++ [CR]) = l.
Proof.
  unfold dropCR. rewrite reverse_app, reverse_singleton. cbn [app].
  rewrite Ascii.eqb_refl. apply reverse_involutive.
Qed.

Lemma ReadLine_line (l rest : list ascii) (ending : Wire.IOError) :
  LF ∉ l -> (length l + 2 <= defaultBufSize)%nat ->
  ReadLine (l ++ CRLF ++ rest) ending = inl (l, false, rest).
Proof.
  intros Hno Hlen. unfold ReadLine.
  replace (l ++ CRLF ++ rest)%list with ((l ++ [CR]) ++ LF :: rest)%list
    by (rewrite <- app_assoc; reflexivity).
  rewrite splitLF_line.
  - rewrite dropCR_line. destruct l; reflexivity.
  - intros Hin. apply elem_of_app in Hin as [Hin|Hin]; [contradiction|].
    apply list_elem_of_singleton in Hin. discriminate Hin.
  - rewrite length_app. simpl. lia.
Qed.

Lemma addLine_nonempty (line b : list ascii) : b <> [] -> addLine line b <> [].
Proof.
  intros Hb. unfold addLine. destruct line; simpl; [exact Hb|discriminate].
Qed.

(** The loop over the lines of one command. *)
Lemma restore_lines (ending : Wire.IOError) (ls : list (list ascii)) :
  forall line commands rest fuel,
  Forall plainLine ls ->
  (length (flat_map (fun l => (l ++ CRLF)%list) ls ++ rest) < fuel)%nat ->
  exists fuel',
    (length rest < fuel')%nat
    /\ restoreLoop fuel (flat_map (fun l => (l ++ CRLF)%list) ls ++ rest) ending line commands
       = restoreLoop fuel' rest ending (fold_left addLine ls line) commands.
Proof.
  induction ls as [|l ls IH]; intros line commands rest fuel Hls Hfuel.
  - exists fuel. split; [exact Hfuel|reflexivity].
  - apply Forall_cons in Hls as [(Hne & Hno & Hnul & Hlen) Hls].
    cbn [flat_map] in *. rewrite <- !app_assoc in *.
    destruct fuel as [|fuel]; [lia|].
    rewrite !length_app in Hfuel. cbn [length CRLF] in Hfuel.
    destruct (IH (addLine line l) commands rest fuel Hls) as (fuel' & Hf' & Heq).
    { rewrite length_app. lia. }
    exists fuel'. split; [exact Hf'|].
    cbn [restoreLoop]. rewrite (ReadLine_line l _ ending Hno Hlen).
    replace (length l <=? 0)%nat with false
      by (symmetry; apply Nat.leb_gt; destruct l; [contradiction|simpl; lia]).
    rewrite (TrimLeft_head l NUL Hnul). cbn [fold_left].
    pose proof (eq_refl : addLine line l
                          = if (0 <? length line)%nat then (line ++ CRLF ++ l)%list
                            else (line ++ l)%list) as Ha.
    destruct (0 <? length line)%nat; rewrite <- Ha; exact Heq.
Qed.

Lemma fold_addLine (ls : list (list ascii)) : forall line,
  line <> [] -> Forall plainLine ls ->
  (fold_left addLine ls line ++ CRLF
   = line ++ CRLF ++ flat_map (fun l => (l ++ CRLF)%list) ls)%list.
Proof.
  induction ls as [|l ls IH]; intros line Hline Hls; [reflexivity|].
  apply Forall_cons in Hls as [(Hne & _) Hls].
  cbn [fold_left flat_map]. rewrite IH; [|apply addLine_nonempty, Hne|exact Hls].
  unfold addLine. destruct line as [|c line]; [contradiction|].
  cbn [length Nat.ltb Nat.leb]. rewrite <- !app_assoc. reflexivity.
Qed.

(** The loop over one command and the empty line after it. *)
Lemma restore_block (ending : Wire.IOError) (l : list ascii) (ls : list (list ascii))
  commands rest fuel :
  Forall plainLine (l :: ls) ->
  (length (flat_map (fun l => (l ++ CRLF)%list) (l :: ls) ++ CRLF ++ rest) < fuel)%nat ->
  exists fuel',
    (length rest < fuel')%nat
    /\ restoreLoop fuel (flat_map (fun l => (l ++ CRLF)%list) (l :: ls) ++ CRLF ++ rest)
         ending [] commands
       = restoreLoop fuel' rest ending []
           (commands ++ [flat_map (fun l => (l ++ CRLF)%list) (l :: ls) ++ CRLF])%list.
Proof.
  intros Hls Hfuel.
  destruct (restore_lines ending (l :: ls) [] commands (CRLF ++ rest) fuel Hls Hfuel)
    as (fuel1 & Hf1 & Heq).
  rewrite Heq. destruct fuel1 as [|fuel1]; [lia|].
  exists fuel1. split; [rewrite length_app in Hf1; simpl in Hf1; lia|].
  cbn [restoreLoop].
  change (ReadLine (CRLF ++ rest) ending) with (ReadLine ([] ++ CRLF ++ rest) ending).
  rewrite (ReadLine_line [] rest ending)
    by (first [apply not_elem_of_nil | unfold defaultBufSize; simpl; lia]).
  cbn [length Nat.leb]. do 2 f_equal.
  apply Forall_cons in Hls as [Hl Hls]. destruct Hl as (Hne & _).
  cbn [fold_left flat_map]. change (addLine [] l) with l.
  rewrite (app_assoc _ CRLF CRLF), (fold_addLine ls l Hne Hls), <- !app_assoc.
  reflexivity.
Qed.

(** The lines of an encoded command *)

Lemma digits_go_length fuel : forall n acc,
  (length (Fmt.digits_go fuel n acc) <= fuel + length acc)%nat.
Proof.
  induction fuel as [|f IH]; intros n acc; simpl; [lia|].
  destruct (n / 10 =? 0)%N; [simpl; lia|].
  etransitivity; [apply IH|]. simpl. lia.
Qed.

Lemma digits_line (c : ascii) (n : N) :
  c <> LF -> c <> NUL -> (n < 2 ^ 63)%N -> plainLine (c :: Fmt.digits n).
Proof.
  intros Hlf Hnul Hn. repeat split.
  - discriminate.
  - intros Hin. apply elem_of_cons in Hin as [Hin|Hin]; [exact (Hlf (eq_sym Hin))|].
    pose proof (digits_all n) as Hall. rewrite Forall_forall in Hall.
    apply Hall in Hin. discriminate Hin.
  - simpl. intros [= H]. exact (Hnul H).
  - cbn [length]. unfold Fmt.digits.
    pose proof (digits_go_length (S (N.to_nat (N.log2 n))) n []) as Hlen.
    assert (N.log2 n < 63)%N.
    { destruct (N.eq_dec n 0%N) as [->|Hpos]; [reflexivity|].
      apply N.log2_lt_pow2; [lia|exact Hn]. }
    unfold defaultBufSize. change (length (@nil ascii)) with 0%nat in Hlen. lia.
Qed.

Lemma cmdLines_plain (cmd : list string) :
  Forall plainToken cmd -> (N.of_nat (length cmd) < 2 ^ 63)%N ->
  Forall plainLine (cmdLines cmd).
Proof.
  intros Hcmd Hlen. unfold cmdLines. constructor.
  - apply digits_line; [discriminate|discriminate|exact Hlen].
  - clear Hlen. induction Hcmd as [|token cmd Htoken _ IH]; [constructor|].
    cbn [flat_map app]. constructor; [|constructor; [exact Htoken|exact IH]].
    apply digits_line; [discriminate|discriminate|].
    destruct Htoken as (_ & _ & _ & Hl). rewrite list_ascii_length in Hl.
    unfold defaultBufSize in Hl. change (2 ^ 63)%N with 9223372036854775808%N. lia.
Qed.

Lemma logged_lines (cmd : list string) :
  logged cmd = (flat_map (fun l => (l ++ CRLF)%list) (cmdLines cmd) ++ CRLF)%list.
Proof.
  assert (Htokens :
            flat_map bulkBytes cmd
            = flat_map (fun l => (l ++ CRLF)%list)
                (flat_map (fun token =>
                             ["$"%char :: Fmt.digits (N.of_nat (String.length token));
                              list_ascii_of_string token]) cmd)).
  { induction cmd as [|token cmd IH]; [reflexivity|].
    cbn [flat_map app]. rewrite <- IH. unfold bulkBytes at 1.
    change (list_ascii_of_string SetModule.CRLF) with CRLF.
    cbn [app]. rewrite <- !app_assoc. reflexivity. }
  unfold logged, Internal.EncodeCommand. rewrite EncodeCommand_fold. f_equal.
  unfold cmdLines. cbn [flat_map]. rewrite <- Htokens, !list_ascii_app.
  unfold Fmt.d, Fmt.FormatUint. rewrite list_ascii_of_string_of_list_ascii.
  change (list_ascii_of_string SetModule.CRLF) with CRLF.
  reflexivity.
Qed.

(** The loop over a log of commands, up to the error that ends it. *)
Lemma restore_all (ending : Wire.IOError) (cmds : list (list string)) : forall commands fuel,
  Forall (fun cmd => Forall plainToken cmd /\ (N.of_nat (length cmd) < 2 ^ 63)%N) cmds ->
  (length (flat_map logged cmds) < fuel)%nat ->
  restoreLoop fuel (flat_map logged cmds) ending [] commands
  = Some (match ending with
          | Wire.EOF => inl (commands ++ map logged cmds)%list
          | Wire.Failure e => inr e
          end).
Proof.
  induction cmds as [|cmd cmds IH]; intros commands fuel Hcmds Hfuel.
  - destruct fuel; [simpl in Hfuel; lia|]. cbn. rewrite app_nil_r.
    destruct ending; reflexivity.
  - apply Forall_cons in Hcmds as [[Htok Hlen] Hcmds].
    cbn [flat_map map] in *. rewrite logged_lines in *.
    pose proof (cmdLines_plain cmd Htok Hlen) as Hplain.
    destruct (cmdLines cmd) as [|l ls] eqn:Hlines; [discriminate Hlines|].
    rewrite <- app_assoc in *.
    destruct (restore_block ending l ls commands (flat_map logged cmds) fuel Hplain Hfuel)
      as (fuel' & Hf' & Heq).
    rewrite Heq, (IH _ fuel' Hcmds Hf'). destruct ending; [|reflexivity].
    rewrite <- app_assoc. reflexivity.
Qed.

Lemma WriteAll_appends (cmds : list (list string)) : forall (st : AppendStore) (f : ReadWriter),
  mut st = false -> rw st = Some f ->
  Strings.EqualFold (strategy st) "always" = false ->
  (forall i p, onWrite f i p = (length p, None)) ->
  WriteAll (map (fun cmd => list_ascii_of_string (Internal.EncodeCommand cmd)) cmds) st
  = Done None (set_rw (wroteAll (length cmds) (flat_map logged cmds) f) st).
Proof.
  induction cmds as [|cmd cmds IH]; intros st f Hm Hrw Hs Hw.
  - cbn [map WriteAll flat_map length]. unfold wroteAll. rewrite app_nil_r.
    destruct st as [s m r h], f as [a b c d e g h']. cbn in *. subst. reflexivity.
  - cbn [map WriteAll flat_map length]. unfold andThen.
    rewrite (Write_returns _ st f _ None Hm Hrw (Hw _ _)) by (intros _; exact Hs).
    rewrite firstn_all.
    rewrite (IH _ (wrote (list_ascii_of_string (Internal.EncodeCommand cmd) ++ CRLF) f));
      [|exact Hm|reflexivity|exact Hs|exact Hw].
    unfold wroteAll, wrote. cbn [toRead readEnd written writes syncs onWrite onSync].
    rewrite <- app_assoc, Nat.add_succ_r.
    destruct st as [s m r h]. reflexivity.
Qed.

(** X27.  What [Write] logs, [Restore] replays.  Under a strategy other than
    "always" and with a [ReadWriter] that takes every write whole, writing
    the commands of a list, each as [EncodeCommand] encodes it, appends
    every command followed by a line end to the log and returns nil.
    [Restore], on a store whose reader holds that log and then reports its
    end, passes the same commands with their line ends to [handleCommand],
    one call for each command and in the order written, and returns nil with
    the mutex free; when the reader ends with another error, [Restore]
    returns that error and no command is handled.  This holds for commands
    whose tokens are not empty, hold no line feed, do not begin with a zero
    byte and fit the buffer of the reader. *)
Theorem log_round_trip (cmds : list (list string)) (st st' : AppendStore)
  (f f' : ReadWriter) (fuel : nat) :
  Forall (fun cmd => Forall plainToken cmd /\ (N.of_nat (length cmd) < 2 ^ 63)%N) cmds ->
  mut st = false -> rw st = Some f ->
  Strings.EqualFold (strategy st) "always" = false ->
  (forall i p, onWrite f i p = (length p, None)) ->
  mut st' = false -> rw st' = Some f' ->
  toRead f' = flat_map logged cmds ->
  (length (flat_map logged cmds) < fuel)%nat ->
  WriteAll (map (fun cmd => list_ascii_of_string (Internal.EncodeCommand cmd)) cmds) st
  = Done None (set_rw (wroteAll (length cmds) (flat_map logged cmds) f) st)
  /\ Restore fuel st'
     = match readEnd f' with
       | Wire.EOF => Done None (add_handled (map logged cmds) (set_rw (drained f') st'))
       | Wire.Failure e => Done (Some e) (set_rw (drained f') st')
       end.
Proof.
  intros Hcmds Hm Hrw Hs Hw Hm' Hrw' Hlog Hfuel. split.
  - apply WriteAll_appends; assumption.
  - unfold Restore, locked, andThen, Lock, Unlock. rewrite Hm'.
    cbn [rw set_mut]. rewrite Hrw', Hlog.
    rewrite (restore_all (readEnd f') cmds [] fuel Hcmds Hfuel).
    destruct st' as [s m r h]. cbn in Hm', Hrw'. subst.
    destruct (readEnd f'); reflexivity.
Qed.

Lemma log_round_trip_witness :
  Restore 100
    (mkAppendStore "everysec" false
       (Some (Samples3.file (flat_map logged [["SET"; "k"; "v"]; ["DEL"; "k"]]))) [])
  = Done None
      (mkAppendStore "everysec" false (Some (Samples3.file []))
         [logged ["SET"; "k"; "v"]; logged ["DEL"; "k"]]).
Proof.
  refine (proj2 (log_round_trip [["SET"; "k"; "v"]; ["DEL"; "k"]]
                   (mkAppendStore "everysec" false (Some (Samples3.file [])) [])
                   (mkAppendStore "everysec" false
                      (Some (Samples3.file (flat_map logged [["SET"; "k"; "v"]; ["DEL"; "k"]])))
                      [])
                   (Samples3.file [])
                   (Samples3.file (flat_map logged [["SET"; "k"; "v"]; ["DEL"; "k"]]))
                   100 _ eq_refl eq_refl eq_refl (fun _ _ => eq_refl) eq_refl eq_refl
                   eq_refl _)).
  - repeat match goal with
           | |- Forall _ _ => constructor
           | |- _ /\ _ => split
           | |- plainToken _ => unfold plainToken; cbv zeta
           end;
      try discriminate; try reflexivity;
      try (unfold defaultBufSize; cbn [list_ascii_of_string length]; lia);
      intros Hin; cbn [list_ascii_of_string] in Hin;
      repeat (apply elem_of_cons in Hin as [Hin|Hin]; [discriminate Hin|]);
      apply elem_of_nil in Hin; exact Hin.
  - vm_compute. lia.
Defined.
